(** * ParrotDB / libslax: atoms, short strings, Patricia lookup, rulebook

    A shallow embedding of the code of [parrotdb/pacommon.h], of the
    Patricia tree header ([pa_pat.h]) and of the rulebook compiler
    ([xi_rulebook_prep] and [xi_rulebook_find]), with the properties the
    specification states about them, and then further properties of the
    code: the rounding and address functions of [pacommon.h], the bit
    indices and the key reads of the Patricia lookup, the edge cases of the
    rulebook compiler, and [xi_rulebook_dump].

    Conventions.
    - C integers are [Z]; a value stored in or converted to a [w]-bit
      unsigned type is reduced with [u16] or [u32].
    - An atom ([pa_atom_t], [uint32_t]) is a [Z]; [PA_NULL_ATOM] is [0].
    - A pointer into a pool is the atom it was obtained from; [NULL] is
      [None].
    - A byte buffer is a [list Z]; a read past its end is a fault. *)

From Stdlib Require Import ZArith Lia Sorted.
From stdpp Require Import base option list gmap strings.

Local Open Scope Z_scope.

(** ** Machine integers *)

Definition u16 (z : Z) : Z := z mod 65536.
Definition u32 (z : Z) : Z := z mod 4294967296.

(** ** pacommon.h *)

Definition PA_NULL_ATOM : Z := 0.

(** *** Short strings *)

Module Short.

Definition PA_SHORT_STRINGS_MIN : Z := 1.
Definition PA_SHORT_STRINGS_MAX : Z := 256.

(** The functions take [const char *]: whether plain [char] is signed is the
    ABI's choice (signed on x86 and x86-64, unsigned on 32-bit ARM and
    PowerPC), so it is a parameter of the model. *)
Inductive char_abi := SignedChar | UnsignedChar.

(** The value of a [char] object holding the byte [byte] (0..255). *)
Definition char_value (abi : char_abi) (byte : Z) : Z :=
  match abi with
  | UnsignedChar => byte
  | SignedChar => if byte <? 128 then byte else byte - 256
  end.

(** A C string is the list of its bytes before the terminating NUL;
    [*string] is its first byte, or the NUL when it is empty. *)
Definition cstr_head (string : list Z) : Z :=
  match string with
  | [] => 0
  | c :: _ => c
  end.

(** [PA_SHORT_STRINGS_MIN + *string], an [int], converted to [pa_atom_t]. *)
Definition pa_short_string_atom (abi : char_abi) (string : list Z) : Z :=
  u32 (PA_SHORT_STRINGS_MIN + char_value abi (cstr_head string)).

(** Modelled from the spec: the contents of the table [pa_short_strings] are
    not in the sources, the header declares it [extern], of
    [PA_SHORT_STRINGS_MAX * 2] bytes.  Section 4.3: "a 512-byte static table
    holding each single byte followed by NUL". *)
Definition pa_short_strings : list Z :=
  flat_map (λ c, [c; 0]) (seqZ 0 PA_SHORT_STRINGS_MAX).

(** [&pa_short_strings[(atom - PA_SHORT_STRINGS_MIN) << 1]]: the bytes from
    that index on, [None] when the index is outside the table.  The index is
    computed in [uint32_t]. *)
Definition pa_short_string (atom : Z) : option (list Z) :=
  let index := u32 (Z.shiftl (u32 (atom - PA_SHORT_STRINGS_MIN)) 1) in
  if index <? Z.of_nat (length pa_short_strings)
  then Some (drop (Z.to_nat index) pa_short_strings)
  else None.

(** The C string that starts a buffer. *)
Fixpoint cstr_of (buf : list Z) : list Z :=
  match buf with
  | [] => []
  | c :: buf' => if c =? 0 then [] else c :: cstr_of buf'
  end.

(** Modelled from the spec: the interning function of the string table is
    not in the sources.  Section 4.3: strings of length at most one take the
    short-string path, which is [pa_short_string_atom]; longer ones go
    through the table ([None] here). *)
Definition intern_short (abi : char_abi) (s : list Z) : option Z :=
  if decide (length s ≤ 1)%nat then Some (pa_short_string_atom abi s)
  else None.

(** Modelled from the spec: dereference of a short-string atom, section 4.3:
    "short-string atoms decode from a 512-byte static table". *)
Definition deref_short (atom : Z) : option (list Z) :=
  cstr_of <$> pa_short_string atom.

End Short.

(** *** Rounding, items and addresses *)

Module Atoms.

Import Short.

(** [1 << shift] with [shift] a [pa_shift_t] ([uint8_t], promoted to [int]):
    the shift of the [int] constant 1 is defined while the result fits an
    [int], that is for [shift] up to 30. *)
Definition int_shl1 (shift : Z) : option Z :=
  if (0 <=? shift) && (shift <=? 30) then Some (Z.shiftl 1 shift) else None.

(** [(val + (1 << shift) - 1) & ~((1 << shift) - 1)]: the sum is taken in
    [uint32_t], the mask is an [int] converted to [uint32_t]. *)
Definition pa_roundup_shift32 (val shift : Z) : option Z :=
  one ← int_shl1 shift;
  Some (Z.land (u32 (val + one - 1)) (u32 (Z.lnot (one - 1)))).

(** [(val + rnd - 1) & ~(rnd - 1)], all in [uint32_t]. *)
Definition pa_roundup32 (val rnd : Z) : Z :=
  Z.land (u32 (val + rnd - 1)) (u32 (Z.lnot (u32 (rnd - 1)))).

(** [(val + (1 << shift) - 1) >> shift] *)
Definition pa_items_shift32 (val shift : Z) : option Z :=
  one ← int_shl1 shift;
  Some (Z.shiftr (u32 (val + one - 1)) shift).

(** Addresses are integers.  [&cp[atom << shift]]: the index is computed in
    [uint32_t], the shift being defined below the width of that type. *)
Definition pa_pointer (base atom shift : Z) : option Z :=
  if (0 <=? shift) && (shift <? 32) then Some (base + u32 (Z.shiftl atom shift))
  else None.

(** [delta >> shift] with [delta = cur - base] a [ptrdiff_t] of [bits] bits
    (32 or 64), converted to [pa_atom_t].  A difference that does not fit
    the type, or a shift by its width or more, is undefined. *)
Definition pa_atom (bits : Z) (base cur shift : Z) : option Z :=
  let delta := cur - base in
  if (- 2 ^ (bits - 1) <=? delta) && (delta <? 2 ^ (bits - 1))
     && (0 <=? shift) && (shift <? bits)
  then Some (u32 (Z.shiftr delta shift))
  else None.

(** The address [pa_short_string] returns, the table [pa_short_strings]
    being at the address [table]. *)
Definition pa_short_string_addr (table atom : Z) : Z :=
  table + u32 (Z.shiftl (u32 (atom - PA_SHORT_STRINGS_MIN)) 1).

(** [&pa_short_strings[0] <= string
     && string < &pa_short_strings[PA_SHORT_STRINGS_MAX * 2]] *)
Definition pa_is_short_string (table string : Z) : bool :=
  (table <=? string) && (string <? table + PA_SHORT_STRINGS_MAX * 2).

End Atoms.

(** ** pa_pat.h: Patricia tree *)

Module Pat.

(** [pa_pat_node_t].  [ppn_length] and [ppn_bit] are [uint16_t] fields and
    are read through [u16]; the three atoms are [uint32_t]. *)
Record pa_pat_node_t := mk_node {
  ppn_length : Z;
  ppn_bit : Z;
  ppn_left : Z;
  ppn_right : Z;
  ppn_data : Z;
}.

(** [pa_pat_t] with its [pa_pat_info_t] inlined ([pp_root], [pp_key_bytes]
    are the header's shorthands).  [pp_nodes] is the fixed pool of nodes,
    [pp_key_func] the key function, from a data atom to the key bytes. *)
Record pa_pat_t := mk_pat {
  pp_root : Z;
  pp_key_bytes : Z;
  pp_nodes : gmap Z pa_pat_node_t;
  pp_key_func : Z -> option (list Z);
}.

Definition PA_PAT_MAXKEY : Z := 256.
Definition PA_PAT_NOBIT : Z := 0.

Definition pa_pat_is_null (atom : Z) : bool := atom =? PA_NULL_ATOM.

(** Modelled from the spec: [pa_fixed_atom_addr], the fixed pool's address
    function, is not part of the sources at hand.  Section 4.2: it "returns
    a live pointer by two-level indexing; out-of-range atoms return null
    rather than aborting", and section 8: [P.addr(0) == null]. *)
Definition pa_fixed_atom_addr {A} (pool : gmap Z A) (atom : Z) : option A :=
  if atom =? PA_NULL_ATOM then None else pool !! atom.

Definition pa_pat_node (root : pa_pat_t) (atom : Z) : option pa_pat_node_t :=
  pa_fixed_atom_addr (pp_nodes root) atom.

Definition pa_pat_key (root : pa_pat_t) (node : pa_pat_node_t)
  : option (list Z) :=
  pp_key_func root (ppn_data node).

(** [key[bit >> 8] & (~bit & 0xff)]; [None] when the byte lies outside the
    key buffer. *)
Definition pat_key_test (key : list Z) (bit : Z) : option Z :=
  b ← key !! Z.to_nat (Z.shiftr bit 8);
  Some (Z.land b (Z.land (Z.lnot bit) 255)).

Definition pa_pat_length (node : pa_pat_node_t) : Z :=
  u16 (Z.shiftr (u16 (ppn_length node)) 8 + 1).

Definition pa_pat_length_to_bit (length : Z) : Z :=
  if length =? 0 then PA_PAT_NOBIT
  else u16 (Z.lor (Z.shiftl (length - 1) 8) 255).

(** [pa_pat_makebit]; the table [pa_pat_hi_bit_table] is only declared
    ([extern]) in the header, so it is an argument here. *)
Definition pa_pat_makebit (pa_pat_hi_bit_table : Z -> Z)
    (offset bit_in_byte : Z) : Z :=
  u16 (Z.lor (Z.shiftl (Z.land offset 255) 8)
             (Z.land (Z.lnot (pa_pat_hi_bit_table bit_in_byte)) 255)).

(** Modelled from the spec: the contents of [pa_pat_hi_bit_table] are not in
    the sources.  Section 4.4 indexes it by the bit within the byte, "0 =
    MSB", so entry [i] is the mask with only that bit set. *)
Definition hi_bit_mask (i : Z) : Z := Z.shiftr 128 i.

(** *** pa_pat_get_inline *)

Inductive fault := NullDeref | OutOfBounds.

(** The three [return NULL] statements of [pa_pat_get_inline] and its
    [return node]. *)
Inductive ret_site := AtRootNull | AtNullCheck | AtCompare.

Inductive get_result :=
| Aborted
| Faulted (f : fault)
| OutOfFuel
| Returned (site : ret_site) (node : option Z).

Inductive walk_end :=
| WalkFuel
| WalkFault (f : fault)
| WalkReturn
| WalkExit (current : Z) (node : pa_pat_node_t).

(** [bit < bit_len && pat_key_test(key, bit)] *)
Definition go_right (key : list Z) (bit_len bit : Z) : option bool :=
  if bit <? bit_len then t ← pat_key_test key bit; Some (negb (t =? 0))
  else Some false.

(** The [while] loop.  [node] is [pa_pat_node(root, current)]; the first
    component of the result is the ghost trace of the values assigned to
    [bit], one for each iteration. *)
Fixpoint pa_pat_walk (root : pa_pat_t) (key : list Z) (bit_len : Z)
    (fuel : nat) (bit current : Z) (node : option pa_pat_node_t)
  : list Z * walk_end :=
  match node with
  | None => ([], WalkFault NullDeref)
  | Some n =>
    if bit <? u16 (ppn_bit n) then
      match fuel with
      | O => ([], WalkFuel)
      | S fuel' =>
        match node with
        | None => ([], WalkReturn)
        | Some n =>
          let bit := u16 (ppn_bit n) in
          match go_right key bit_len bit with
          | None => ([bit], WalkFault OutOfBounds)
          | Some go =>
            let current := if go then ppn_right n else ppn_left n in
            let r := pa_pat_walk root key bit_len fuel' bit current
                       (pa_pat_node root current) in
            (bit :: r.1, r.2)
          end
        end
      end
    else ([], WalkExit current n)
  end.

(** [bcmp(b1, b2, len)]: [Some true] when the first [len] bytes differ. *)
Definition bcmp (b1 b2 : option (list Z)) (len : Z) : option bool :=
  k1 ← b1; k2 ← b2;
  if decide (Z.to_nat len ≤ length k1 ∧ Z.to_nat len ≤ length k2)%nat
  then Some (negb (bool_decide (take (Z.to_nat len) k1
                                = take (Z.to_nat len) k2)))
  else None.

(** The loop runs at most 65535 times (see [pa_pat_walk_fuel]). *)
Definition walk_fuel : nat := Z.to_nat 65535.
Global Arguments walk_fuel : simpl never.

(** [pa_pat_get_inline].  [key_bytes] is the value of the [uint16_t]
    parameter, 0 to 65535: the call converts its argument to that type, so a
    call with the argument [n] is [pa_pat_get_inline root (u16 n) key]. *)
Definition pa_pat_get_inline (root : pa_pat_t) (key_bytes : Z) (key : list Z)
  : get_result :=
  if key_bytes =? 0 then Aborted
  else
    let current := pp_root root in
    if pa_pat_is_null current then Returned AtRootNull None
    else
      let bit := PA_PAT_NOBIT in
      let bit_len := pa_pat_length_to_bit key_bytes in
      match (pa_pat_walk root key bit_len walk_fuel bit current
               (pa_pat_node root current)).2 with
      | WalkFuel => OutOfFuel
      | WalkFault f => Faulted f
      | WalkReturn => Returned AtNullCheck None
      | WalkExit current node =>
        if negb (u16 (ppn_length node) =? bit_len) then Returned AtCompare None
        else
          match bcmp (pa_pat_key root node) (Some key) key_bytes with
          | None => Faulted OutOfBounds
          | Some true => Returned AtCompare None
          | Some false => Returned AtCompare (Some current)
          end
      end.

(** *** The lookup as section 4.4 words it *)

(** "the key's bit [b] is set" *)
Definition key_bit_set (key : list Z) (b : Z) : Prop :=
  ∃ byte, key !! Z.to_nat (Z.shiftr b 8) = Some byte
          ∧ Z.land byte (Z.land (Z.lnot b) 255) ≠ 0.

(** One step of the walk, on pairs (previous bit index, current atom): the
    node's bit index [b] exceeds the previous one; "go right if the key's bit
    [b] is set and [b < bit_length(key_bytes)], else left". *)
Inductive walk_step (root : pa_pat_t) (key : list Z) (bit_len : Z)
  : Z * Z -> Z * Z -> Prop :=
| walk_step_right prev cur n :
    pa_pat_node root cur = Some n ->
    prev < u16 (ppn_bit n) ->
    u16 (ppn_bit n) < bit_len ∧ key_bit_set key (u16 (ppn_bit n)) ->
    walk_step root key bit_len (prev, cur) (u16 (ppn_bit n), ppn_right n)
| walk_step_left prev cur n :
    pa_pat_node root cur = Some n ->
    prev < u16 (ppn_bit n) ->
    ¬ (u16 (ppn_bit n) < bit_len ∧ key_bit_set key (u16 (ppn_bit n))) ->
    walk_step root key bit_len (prev, cur) (u16 (ppn_bit n), ppn_left n).

(** The atoms the walk reaches, with the bit index it holds on arrival. *)
Definition reached (root : pa_pat_t) (key : list Z) (bit_len : Z)
    (st : Z * Z) : Prop :=
  rtc (walk_step root key bit_len) (PA_PAT_NOBIT, pp_root root) st.

(** "if the current walk's previous bit index is not less than [b], stop". *)
Definition walk_stops (root : pa_pat_t) (st : Z * Z) (n : pa_pat_node_t)
  : Prop :=
  pa_pat_node root st.2 = Some n ∧ ¬ (st.1 < u16 (ppn_bit n)).

(** "the node's length equals the key's bit-length and the bytes compare
    equal" *)
Definition node_matches (root : pa_pat_t) (key_bytes : Z) (key : list Z)
    (n : pa_pat_node_t) : Prop :=
  u16 (ppn_length n) = pa_pat_length_to_bit key_bytes
  ∧ ∃ k, pa_pat_key root n = Some k
         ∧ take (Z.to_nat key_bytes) k = take (Z.to_nat key_bytes) key.

(** *** Well-formed tries *)

(** The key function yields, for a node, a buffer of at least the node's
    key length. *)
Definition node_key_ok (root : pa_pat_t) (n : pa_pat_node_t) : bool :=
  match pa_pat_key root n with
  | Some k => bool_decide (Z.to_nat (pa_pat_length n) ≤ length k)%nat
  | None => false
  end.

Definition node_links_ok (root : pa_pat_t) (n : pa_pat_node_t) : bool :=
  bool_decide (is_Some (pa_pat_node root (ppn_left n)))
  && bool_decide (is_Some (pa_pat_node root (ppn_right n))).

(** Every node of the pool links to nodes of the pool and has its key, and
    the root is null or a node of the pool. *)
Definition wf_trie (root : pa_pat_t) : Prop :=
  (pp_root root ≠ PA_NULL_ATOM -> is_Some (pa_pat_node root (pp_root root)))
  ∧ map_Forall (λ _ n, node_links_ok root n && node_key_ok root n = true)
               (pp_nodes root).

(** A search key is a buffer of [key_bytes] bytes, at most [PA_PAT_MAXKEY]. *)
Definition valid_key (key_bytes : Z) (key : list Z) : Prop :=
  1 <= key_bytes <= PA_PAT_MAXKEY ∧ length key = Z.to_nat key_bytes.

(** *** A trie holding the one-byte keys "a" and "b" *)

Definition ab_key_func (datom : Z) : option (list Z) :=
  if datom =? 101 then Some [97] else if datom =? 102 then Some [98] else None.

Definition ab_trie : pa_pat_t :=
  mk_pat 2 1
    (<[1 := mk_node 255 0 1 1 101]> (<[2 := mk_node 255 253 1 2 102]> ∅))
    ab_key_func.

(** The packed index, its byte offset and its mask, checked on all 256 * 8
    pairs of offset and bit. *)
Definition makebit_ok (b i : Z) : bool :=
  let bit := pa_pat_makebit hi_bit_mask b i in
  (bit =? Z.lor (Z.shiftl (Z.land b 255) 8)
                (Z.land (Z.lnot (hi_bit_mask i)) 255))
  && (Z.shiftr bit 8 =? b)
  && (Z.land (Z.lnot bit) 255 =? 2 ^ (7 - i)).

(** *** pa_pat_getnext and pa_pat_lookup_geq *)

(** Byte-wise comparison of keys, the order of [pa_pat_compare_nodes]. *)
Fixpoint key_compare (k1 k2 : list Z) : comparison :=
  match k1, k2 with
  | [], [] => Eq
  | [], _ :: _ => Lt
  | _ :: _, [] => Gt
  | c1 :: k1', c2 :: k2' =>
    match c1 ?= c2 with
    | Eq => key_compare k1' k2'
    | c => c
    end
  end.

Definition key_le (k1 k2 : list Z) : bool :=
  match key_compare k1 k2 with
  | Gt => false
  | _ => true
  end.

(** The nodes of the tree with their keys. *)
Definition tree_keys (root : pa_pat_t) : list (Z * list Z) :=
  if pa_pat_is_null (pp_root root) then []
  else omap (λ an, n ← pa_pat_node root an.1; k ← pa_pat_key root n;
                   Some (an.1, k))
            (map_to_list (pp_nodes root)).

(** A key that [pa_pat_getnext] may return for the search key [key]: a
    larger one, or an equal one when [return_eq] is set. *)
Definition key_eligible (return_eq : bool) (key k : list Z) : bool :=
  match key_compare key k with
  | Lt => true
  | Eq => return_eq
  | Gt => false
  end.

(** Modelled from the spec: [pa_pat_getnext] is declared in the header but
    its body is not in the sources.  Its documentation there: "return a node
    in the tree which is at least as large as the key specified.  The call
    has a parameter which modifies its behaviour when an exact match is found
    in the tree; you can either choose to have it return the exact match, if
    there is one, or you can have it always return a node with a larger key (a
    la SNMP getnext)", [return_eq] being "FALSE for classic getnext".  The
    node returned is the one with the smallest eligible key. *)
Definition pa_pat_getnext (root : pa_pat_t) (key_bytes : Z) (key : list Z)
    (return_eq : bool) : option Z :=
  let eligible :=
    filter (λ c, key_eligible return_eq (take (Z.to_nat key_bytes) key) c.2
                 = true)
           (tree_keys root) in
  fst <$> find (λ c, forallb (λ d, key_le c.2 d.2) eligible) eligible.

(** [pa_pat_lookup_geq]; [getnext] stands for [pa_pat_getnext]. *)
Definition pa_pat_lookup_geq
    (getnext : pa_pat_t -> Z -> list Z -> bool -> option Z)
    (root : pa_pat_t) (key : list Z) : option Z :=
  getnext root (pp_key_bytes root) key true.

End Pat.

(** ** The rulebook *)

Module Rules.

Import Pat.

(** xi_io.h *)
Definition XI_TYPE_OPEN : Z := 4.
Definition XI_TYPE_CLOSE : Z := 5.

(** [xi_action_names]; an action is its index in the table. *)
Definition xi_action_names : list string :=
  ["none"; "discard"; "save"; "save-simple"; "save-with-attributes"; "emit";
   "return"]%string.

Definition XIA_NONE : Z := 0.
Definition XIA_DISCARD : Z := 1.
Definition XIA_SAVE : Z := 2.

Definition xi_rule_action_value (name : string) : Z :=
  match list_find (λ n, n = name) xi_action_names with
  | Some (type, _) => Z.of_nat type
  | None => XIA_NONE
  end.

(** The records of xi_rules.h, with the fields the code uses. *)
Record xi_rule_t := mk_rule {
  xr_flags : Z;
  xr_action : Z;
  xr_use_tag : Z;
  xr_new_state : Z;
  xr_bitmap : Z;
  xr_next : Z;
}.

Record xi_rstate_t := mk_rstate {
  xrbs_flags : Z;
  xrbs_action : Z;
  xrbs_first_rule : Z;
}.

(** [bzero] of a record. *)
Definition rule_zero : xi_rule_t := mk_rule 0 0 0 0 0 0.
Definition rstate_zero : xi_rstate_t := mk_rstate 0 0 0.

(** Modelled from the spec: the fixed pool (pa_fixed.h) is not in the
    sources.  Section 4.2: "[alloc() → atom] returns the head of the
    free-list, detaching it", "[addr(atom)] returns a live pointer ...
    out-of-range atoms return null", and section 8: "Pool at [max_atoms]
    returns null".  [pf_cells] holds the records of the mapped pages,
    [pf_free] the free list, head first; a pool that can grow no more has an
    empty free list. *)
Record pa_fixed_t (A : Type) := mk_fixed {
  pf_max_atoms : Z;
  pf_free : list Z;
  pf_cells : gmap Z A;
}.
Global Arguments mk_fixed {A} _ _ _.
Global Arguments pf_max_atoms {A} _.
Global Arguments pf_free {A} _.
Global Arguments pf_cells {A} _.

Definition pa_fixed_alloc_atom {A} (pfp : pa_fixed_t A) : Z * pa_fixed_t A :=
  match pf_free pfp with
  | [] => (PA_NULL_ATOM, pfp)
  | atom :: free => (atom, mk_fixed (pf_max_atoms pfp) free (pf_cells pfp))
  end.

(** Modelled from the spec: [pa_fixed_element], the record at an index of
    the pool ("a fixed pool of states (indexed by an externally assigned
    16-bit state id)"), null when the pool does not hold that index. *)
Definition pa_fixed_element {A} (pfp : pa_fixed_t A) (index : Z) : option A :=
  pf_cells pfp !! index.

Definition pa_fixed_max_atoms {A} (pfp : pa_fixed_t A) : Z := pf_max_atoms pfp.

Definition pa_fixed_store {A} (pfp : pa_fixed_t A) (atom : Z) (f : A -> A)
  : pa_fixed_t A :=
  mk_fixed (pf_max_atoms pfp) (pf_free pfp) (alter f atom (pf_cells pfp)).

(** Modelled from the spec: the bitmap pool (pa_bitmap.h) is not in the
    sources.  Section 4.5: "[alloc() → atom] reserves a new bitmap, initially
    empty.  [set(atom, bit)] and [test(atom, bit)]".  [pb_free] lists the
    atoms still to be handed out. *)
Record pa_bitmap_t := mk_bitmap {
  pb_free : list Z;
  pb_maps : gmap Z (gset Z);
}.

Definition pa_bitmap_alloc (pbp : pa_bitmap_t) : Z * pa_bitmap_t :=
  match pb_free pbp with
  | [] => (PA_NULL_ATOM, pbp)
  | atom :: free => (atom, mk_bitmap free (<[atom := ∅]> (pb_maps pbp)))
  end.

Definition pa_bitmap_set (pbp : pa_bitmap_t) (atom bit : Z) : pa_bitmap_t :=
  mk_bitmap (pb_free pbp) (alter (λ m, {[bit]} ∪ m) atom (pb_maps pbp)).

Definition pa_bitmap_test (pbp : pa_bitmap_t) (atom bit : Z) : bool :=
  match pb_maps pbp !! atom with
  | Some m => bool_decide (bit ∈ m)
  | None => false
  end.

(** [xi_rulebook_t] with its info block inlined. *)
Record xi_rulebook_t := mk_rulebook {
  xrb_rules : pa_fixed_t xi_rule_t;
  xrb_states : pa_fixed_t xi_rstate_t;
  xrb_bitmaps : pa_bitmap_t;
  xrsi_max_state : Z;
}.

Definition set_rules (xrbp : xi_rulebook_t) (rules : pa_fixed_t xi_rule_t) :=
  mk_rulebook rules (xrb_states xrbp) (xrb_bitmaps xrbp) (xrsi_max_state xrbp).
Definition set_states (xrbp : xi_rulebook_t) (st : pa_fixed_t xi_rstate_t) :=
  mk_rulebook (xrb_rules xrbp) st (xrb_bitmaps xrbp) (xrsi_max_state xrbp).
Definition set_bitmaps (xrbp : xi_rulebook_t) (pbp : pa_bitmap_t) :=
  mk_rulebook (xrb_rules xrbp) (xrb_states xrbp) pbp (xrsi_max_state xrbp).
Definition set_max_state (xrbp : xi_rulebook_t) (sid : Z) :=
  mk_rulebook (xrb_rules xrbp) (xrb_states xrbp) (xrb_bitmaps xrbp) sid.

Definition rule_store (xrbp : xi_rulebook_t) (rid : Z)
    (f : xi_rule_t -> xi_rule_t) : xi_rulebook_t :=
  set_rules xrbp (pa_fixed_store (xrb_rules xrbp) rid f).

Definition state_store (xrbp : xi_rulebook_t) (sid : Z)
    (f : xi_rstate_t -> xi_rstate_t) : xi_rulebook_t :=
  set_states xrbp (pa_fixed_store (xrb_states xrbp) sid f).

(** A [pa_atom_t *] of the compiler: null, [&statep->xrbs_first_rule] for the
    state at an index, or [&xrp->xr_next] for the rule at an atom. *)
Inductive atom_loc :=
| LocNull
| LocFirstRule (sid : Z)
| LocNext (rid : Z).

(** [*loc = atom]; a null [loc] is a fault. *)
Definition store_atom (xrbp : xi_rulebook_t) (loc : atom_loc) (atom : Z)
  : option xi_rulebook_t :=
  match loc with
  | LocNull => None
  | LocFirstRule sid =>
    Some (state_store xrbp sid
            (λ s, mk_rstate (xrbs_flags s) (xrbs_action s) atom))
  | LocNext rid =>
    Some (rule_store xrbp rid
            (λ r, mk_rule (xr_flags r) (xr_action r) (xr_use_tag r)
                          (xr_new_state r) (xr_bitmap r) atom))
  end.

(** A node of the script's tree as the callback sees it: its name atom and
    its attributes, by name atom.  Modelled from the spec:
    [xi_tree_get_attrib_string] is not in the sources; it yields the string
    of the attribute, null when the node has none of that name. *)
Record xi_node_t := mk_xnode {
  xn_name : Z;
  xn_attribs : list (Z * string);
}.

Definition xi_tree_get_attrib_string (nodep : xi_node_t) (atom : Z)
  : option string :=
  snd <$> find (λ a, a.1 =? atom) (xn_attribs nodep).

Definition XI_DEPTH_MAX_RULES : Z := 4.

(** [struct xrp_stack_s] *)
Record xrp_stack_s := mk_stack {
  xrps_state : Z;
  xrps_statep : option Z;
  xrps_rule : Z;
  xrps_nextp : atom_loc;
}.

(** [xi_rulebook_prep_t]; [xrp_rulebook] is the rulebook being built. *)
Record xi_rulebook_prep_t := mk_prep {
  xrp_rulebook : xi_rulebook_t;
  xrp_atom_action : Z;
  xrp_atom_id : Z;
  xrp_atom_new_state : Z;
  xrp_atom_rule : Z;
  xrp_atom_script : Z;
  xrp_atom_state : Z;
  xrp_atom_tag : Z;
  xrp_atom_use_tag : Z;
  xrp_depth : Z;
  xrp_stack : list xrp_stack_s;
}.

Definition prep_set (prep : xi_rulebook_prep_t) (xrbp : xi_rulebook_t)
    (stack : list xrp_stack_s) : xi_rulebook_prep_t :=
  mk_prep xrbp (xrp_atom_action prep) (xrp_atom_id prep)
    (xrp_atom_new_state prep) (xrp_atom_rule prep) (xrp_atom_script prep)
    (xrp_atom_state prep) (xrp_atom_tag prep) (xrp_atom_use_tag prep)
    (xrp_depth prep) stack.

Section Compile.

(** libc's [strtol(s, NULL, 0)], and [xi_parse_atom] on the script (not in
    the sources): the atom of a name, the argument [None] being a null
    string. *)
Variable strtol : string -> Z.
Variable xi_parse_atom : option string -> Z.

(** [xi_rule_bitmap_add], on the rule at [rid]. *)
Definition xi_rule_bitmap_add (xrbp : xi_rulebook_t) (rid : Z)
    (tag : option string) : xi_rulebook_t :=
  let atom := xi_parse_atom tag in
  if atom =? PA_NULL_ATOM then xrbp
  else
    match pa_fixed_atom_addr (pf_cells (xrb_rules xrbp)) rid with
    | None => xrbp
    | Some xrp =>
      let '(bitmap, xrbp) :=
        if xr_bitmap xrp =? PA_NULL_ATOM then
          let '(bitmap, pbp) := pa_bitmap_alloc (xrb_bitmaps xrbp) in
          (bitmap,
           rule_store (set_bitmaps xrbp pbp) rid
             (λ r, mk_rule (xr_flags r) (xr_action r) (xr_use_tag r)
                           (xr_new_state r) bitmap (xr_next r)))
        else (xr_bitmap xrp, xrbp) in
      if bitmap =? PA_NULL_ATOM then xrbp
      else set_bitmaps xrbp (pa_bitmap_set (xrb_bitmaps xrbp) bitmap atom)
    end.

(** The [<state>] branch of [xi_rulebook_prep_cb].  [None] is a fault: a
    null string handed to [strtol] or [strcmp], or a stack entry outside the
    array.  The state id is an [xi_state_id_t], 16 bits wide (section 3). *)
Definition prep_open_state (prep : xi_rulebook_prep_t) (nodep : xi_node_t)
  : option xi_rulebook_prep_t :=
  let xrbp := xrp_rulebook prep in
  let id := xi_tree_get_attrib_string nodep (xrp_atom_id prep) in
  let action := xi_tree_get_attrib_string nodep (xrp_atom_action prep) in
  id ← id;
  let sid := u16 (strtol id) in
  if pa_fixed_max_atoms (xrb_states xrbp) <? sid then Some prep
  else
    prep ← match pa_fixed_element (xrb_states xrbp) sid with
           | Some _ =>
             action ← action;
             _ ← xrp_stack prep !! Z.to_nat (xrp_depth prep);
             Some (prep_set prep
                     (state_store xrbp sid
                        (λ _, mk_rstate 0 (xi_rule_action_value action) 0))
                     (alter (λ e, mk_stack (xrps_state e) (xrps_statep e)
                                    (xrps_rule e) (LocFirstRule sid))
                            (Z.to_nat (xrp_depth prep)) (xrp_stack prep)))
           | None => Some prep
           end;
    Some (if xrsi_max_state (xrp_rulebook prep) <? sid
          then prep_set prep (set_max_state (xrp_rulebook prep) sid)
                 (xrp_stack prep)
          else prep).

(** The [<rule>] branch. *)
Definition prep_open_rule (prep : xi_rulebook_prep_t) (nodep : xi_node_t)
  : option xi_rulebook_prep_t :=
  let xrbp := xrp_rulebook prep in
  let tag := xi_tree_get_attrib_string nodep (xrp_atom_tag prep) in
  let action := xi_tree_get_attrib_string nodep (xrp_atom_action prep) in
  let new_state :=
    xi_tree_get_attrib_string nodep (xrp_atom_new_state prep) in
  let use_tag := xi_tree_get_attrib_string nodep (xrp_atom_use_tag prep) in
  let '(rid, rules) := pa_fixed_alloc_atom (xrb_rules xrbp) in
  let xrbp := set_rules xrbp rules in
  match pa_fixed_atom_addr (pf_cells (xrb_rules xrbp)) rid with
  | None => Some (prep_set prep xrbp (xrp_stack prep))
  | Some _ =>
    let xrbp := rule_store xrbp rid (λ _, rule_zero) in
    let xrbp := xi_rule_bitmap_add xrbp rid tag in
    let xrbp :=
      rule_store xrbp rid
        (λ r, mk_rule (xr_flags r)
                (from_option xi_rule_action_value (xr_action r) action)
                (from_option (λ u, xi_parse_atom (Some u)) (xr_use_tag r)
                   use_tag)
                (from_option (λ n, u16 (strtol n)) (xr_new_state r) new_state)
                (xr_bitmap r) (xr_next r)) in
    stackp ← xrp_stack prep !! Z.to_nat (xrp_depth prep);
    xrbp ← store_atom xrbp (xrps_nextp stackp) rid;
    Some (prep_set prep xrbp
            (alter (λ e, mk_stack (xrps_state e) (xrps_statep e) rid
                           (LocNext rid))
                   (Z.to_nat (xrp_depth prep)) (xrp_stack prep)))
  end.

(** [xi_rulebook_prep_cb]; it returns 0 whenever it returns. *)
Definition xi_rulebook_prep_cb (prep : xi_rulebook_prep_t) (type : Z)
    (nodep : xi_node_t) : option xi_rulebook_prep_t :=
  if type =? XI_TYPE_OPEN then
    if xn_name nodep =? xrp_atom_script prep then Some prep
    else if xn_name nodep =? xrp_atom_state prep then
      prep_open_state prep nodep
    else if xn_name nodep =? xrp_atom_rule prep then
      prep_open_rule prep nodep
    else Some prep
  else Some prep.

(** Modelled from the spec: [xi_parse_emit] is not in the sources.  Section
    4.7: the rulebook is compiled "by a single pass over its tree"; the pass
    hands the nodes to the callback in document order. *)
Fixpoint xi_parse_emit (events : list (Z * xi_node_t))
    (prep : xi_rulebook_prep_t) : option xi_rulebook_prep_t :=
  match events with
  | [] => Some prep
  | (type, nodep) :: events =>
    prep ← xi_rulebook_prep_cb prep type nodep;
    xi_parse_emit events prep
  end.

(** [xi_rulebook_prep], from the rulebook that [xi_rulebook_setup] made: the
    [bzero] of the [prep] block, the eight name atoms, and the pass. *)
Definition xi_rulebook_prep_init (xrbp : xi_rulebook_t) : xi_rulebook_prep_t :=
  mk_prep xrbp
    (xi_parse_atom (Some "action"%string)) (xi_parse_atom (Some "id"%string))
    (xi_parse_atom (Some "new-state"%string))
    (xi_parse_atom (Some "rule"%string))
    (xi_parse_atom (Some "script"%string))
    (xi_parse_atom (Some "state"%string)) (xi_parse_atom (Some "tag"%string))
    (xi_parse_atom (Some "use-tag"%string))
    0 (replicate (Z.to_nat XI_DEPTH_MAX_RULES) (mk_stack 0 None 0 LocNull)).

Definition xi_rulebook_prep (xrbp : xi_rulebook_t)
    (events : list (Z * xi_node_t)) : option xi_rulebook_t :=
  xrp_rulebook <$> xi_parse_emit events (xi_rulebook_prep_init xrbp).

End Compile.

(** *** Rule lists *)

(** The chain of a state as [xi_rulebook_dump] walks it: from
    [xrbs_first_rule] along [xr_next] to the null atom.  [None] when the
    fuel runs out or an atom does not resolve. *)
Fixpoint rule_chain (cells : gmap Z xi_rule_t) (fuel : nat) (rid : Z)
  : option (list Z) :=
  if rid =? PA_NULL_ATOM then Some []
  else
    match fuel with
    | O => None
    | S fuel =>
      rulep ← pa_fixed_atom_addr cells rid;
      (rid ::.) <$> rule_chain cells fuel (xr_next rulep)
    end.

(** A chain without a cycle has at most as many rules as the pool has
    cells. *)
Definition state_rules (xrbp : xi_rulebook_t) (sid : Z) : option (list Z) :=
  statep ← pa_fixed_element (xrb_states xrbp) sid;
  rule_chain (pf_cells (xrb_rules xrbp))
    (size (pf_cells (xrb_rules xrbp))) (xrbs_first_rule statep).

(** *** Scripts *)

(** A [<rule tag=T action=A new-state=M use-tag=U/>] element; an attribute
    may be absent. *)
Record rule_decl := mk_rule_decl {
  rd_tag : option string;
  rd_action : option string;
  rd_new_state : option string;
  rd_use_tag : option string;
}.

(** A [<state id=N action=A>] element with its [<rule>] children. *)
Record state_decl := mk_state_decl {
  sd_id : string;
  sd_action : string;
  sd_rules : list rule_decl;
}.

Section Script.

Variable strtol : string -> Z.
Variable xi_parse_atom : option string -> Z.

Definition name_atom (name : string) : Z := xi_parse_atom (Some name).

Definition attrib (name : string) (value : option string)
  : list (Z * string) :=
  match value with
  | Some v => [(name_atom name, v)]
  | None => []
  end.

Definition rule_node (rd : rule_decl) : xi_node_t :=
  mk_xnode (name_atom "rule")
    (attrib "tag" (rd_tag rd) ++ attrib "action" (rd_action rd)
     ++ attrib "new-state" (rd_new_state rd)
     ++ attrib "use-tag" (rd_use_tag rd)).

Definition state_node (sd : state_decl) : xi_node_t :=
  mk_xnode (name_atom "state")
    [(name_atom "id", sd_id sd); (name_atom "action", sd_action sd)].

Definition script_node : xi_node_t := mk_xnode (name_atom "script") [].

(** The nodes of a script in document order, each element opened and
    closed. *)
Definition rule_events (rd : rule_decl) : list (Z * xi_node_t) :=
  [(XI_TYPE_OPEN, rule_node rd); (XI_TYPE_CLOSE, rule_node rd)].

Definition state_events (sd : state_decl) : list (Z * xi_node_t) :=
  (XI_TYPE_OPEN, state_node sd)
  :: flat_map rule_events (sd_rules sd) ++ [(XI_TYPE_CLOSE, state_node sd)].

Definition script_events (script : list state_decl) : list (Z * xi_node_t) :=
  (XI_TYPE_OPEN, script_node)
  :: flat_map state_events script ++ [(XI_TYPE_CLOSE, script_node)].

Definition state_id (sd : state_decl) : Z := u16 (strtol (sd_id sd)).

(** The eight names whose atoms the compiler caches are interned to
    distinct atoms. *)
Definition names_distinct : Prop :=
  NoDup (name_atom <$> ["action"; "id"; "new-state"; "rule"; "script";
                        "state"; "tag"; "use-tag"]%string).

(** The states of the script have distinct ids, each within the states pool
    and held by it. *)
Definition states_ok (xrbp : xi_rulebook_t) (script : list state_decl)
  : Prop :=
  NoDup (state_id <$> script)
  ∧ Forall (λ sd,
              state_id sd <= pa_fixed_max_atoms (xrb_states xrbp)
              ∧ is_Some (pa_fixed_element (xrb_states xrbp) (state_id sd)))
           script.

(** The rules pool can hand out [n] records: its free list holds at least
    [n] atoms, and is a list of distinct, non-null atoms of mapped pages. *)
Definition rules_ok (xrbp : xi_rulebook_t) (n : nat) : Prop :=
  (n ≤ length (pf_free (xrb_rules xrbp)))%nat
  ∧ NoDup (pf_free (xrb_rules xrbp))
  ∧ Forall (λ a, a ≠ PA_NULL_ATOM
                 ∧ is_Some (pf_cells (xrb_rules xrbp) !! a))
           (pf_free (xrb_rules xrbp)).

(** The record at [rid] carries the attributes of the element [rd]. *)
Definition rule_compiled (cells : gmap Z xi_rule_t) (rid : Z)
    (rd : rule_decl) : Prop :=
  ∃ r, cells !! rid = Some r
       ∧ xr_action r = from_option xi_rule_action_value 0 (rd_action rd)
       ∧ xr_use_tag r = from_option (λ u, xi_parse_atom (Some u)) 0
                          (rd_use_tag rd)
       ∧ xr_new_state r = from_option (λ n, u16 (strtol n)) 0
                            (rd_new_state rd).

(** The number of [<rule>] elements before the state at position [i]. *)
Definition rules_before (script : list state_decl) (i : nat) : nat :=
  length (flat_map sd_rules (take i script)).

End Script.

Global Arguments name_atom _ _ : simpl never.

(** The claim C7 as the specification states it: every [<rule>] child of a
    [<state>] gets a record of its own, and the chain of the state lists
    these records in the order of the elements. *)
Definition rules_in_order (strtol : string -> Z)
    (xi_parse_atom : option string -> Z) (xrbp : xi_rulebook_t)
    (script : list state_decl) : Prop :=
  ∃ xrbp',
    xi_rulebook_prep strtol xi_parse_atom xrbp
      (script_events xi_parse_atom script) = Some xrbp'
    ∧ ∀ sd, sd ∈ script ->
        ∃ rids, state_rules xrbp' (state_id strtol sd) = Some rids
                ∧ NoDup rids
                ∧ Forall2 (rule_compiled strtol xi_parse_atom
                             (pf_cells (xrb_rules xrbp')))
                          rids (sd_rules sd).

(** *** An example: the script of scenario 6 *)

(** Decimal [strtol]. *)
Fixpoint ex_strtol_from (s : string) (acc : Z) : Z :=
  match s with
  | EmptyString => acc
  | String c s =>
    let d := Z.of_N (Ascii.N_of_ascii c) - 48 in
    if (0 <=? d) && (d <=? 9) then ex_strtol_from s (10 * acc + d) else acc
  end.

Definition ex_strtol (s : string) : Z := ex_strtol_from s 0.

(** An interning of the names the example uses. *)
Definition ex_names : list string :=
  ["action"; "id"; "new-state"; "rule"; "script"; "state"; "tag"; "use-tag";
   "doc"; "p"]%string.

Definition ex_atom (name : option string) : Z :=
  match name with
  | None => PA_NULL_ATOM
  | Some name =>
    match list_find (λ n, n = name) ex_names with
    | Some (i, _) => Z.of_nat i + 1000
    | None => PA_NULL_ATOM
    end
  end.

(** States [{1: default=discard}] and [{2: default=save}], with the rule of
    state 1 that matches "doc": save, new state 2. *)
Definition ex_script : list state_decl :=
  [mk_state_decl "1" "discard"
     [mk_rule_decl (Some "doc") (Some "save") (Some "2") None];
   mk_state_decl "2" "save" []]%string.

(** A rulebook as [xi_rulebook_setup] leaves it, with [free] as the free
    list of the rules pool. *)
Definition ex_rulebook (free : list Z) : xi_rulebook_t :=
  mk_rulebook
    (mk_fixed 16 free (list_to_map ((λ a, (a, rule_zero)) <$> [1; 2; 3])))
    (mk_fixed 16 [] (list_to_map ((λ a, (a, rstate_zero)) <$> [1; 2])))
    (mk_bitmap [1; 2; 3] ∅)
    0.

(** *** Rule lookup *)

(** [xi_parse_t]; of its fields [xi_rulebook_find] reads the default rule
    only. *)
Record xi_parse_t := mk_parse {
  xp_default_rule : xi_rule_t;
}.

(** [xi_rulebook_find]: the rule at the pointer it returns,
    [&parsep->xp_default_rule]; its other arguments are unused. *)
Definition xi_rulebook_find (parsep : xi_parse_t) (name_atom : Z)
    (pref name attribs : option string) : xi_rule_t :=
  xp_default_rule parsep.

(** What section 4.7 asks of the lookup: "Scan the state's rule list in
    order; a rule matches iff its tag bitmap has [tag_atom] set.  If no rule
    matches, apply the state's default action." *)
Inductive selection :=
| SelRule (rid : Z) (rule : xi_rule_t)
| SelDefault (action : Z).

Definition rule_matches (xrbp : xi_rulebook_t) (tag_atom rid : Z) : bool :=
  match pf_cells (xrb_rules xrbp) !! rid with
  | Some rulep => pa_bitmap_test (xrb_bitmaps xrbp) (xr_bitmap rulep) tag_atom
  | None => false
  end.

Definition rulebook_select (xrbp : xi_rulebook_t) (state tag_atom : Z)
  : option selection :=
  statep ← pa_fixed_element (xrb_states xrbp) state;
  rids ← state_rules xrbp state;
  match find (rule_matches xrbp tag_atom) rids with
  | Some rid =>
    rulep ← pf_cells (xrb_rules xrbp) !! rid; Some (SelRule rid rulep)
  | None => Some (SelDefault (xrbs_action statep))
  end.

Definition selection_action (sel : selection) : Z :=
  match sel with
  | SelRule _ rulep => xr_action rulep
  | SelDefault action => action
  end.

(** The rulebook of scenario 6, compiled. *)
Definition ex_compiled : option xi_rulebook_t :=
  xi_rulebook_prep ex_strtol ex_atom (ex_rulebook [1; 2; 3])
    (script_events ex_atom ex_script).

(** *** Linked rule lists in the pool *)

(** [rids] is the chain that starts at the atom [first]. *)
Fixpoint chain_at (cells : gmap Z xi_rule_t) (first : Z) (rids : list Z)
  : Prop :=
  match rids with
  | [] => first = PA_NULL_ATOM
  | rid :: rids =>
    first = rid ∧ rid ≠ PA_NULL_ATOM
    ∧ ∃ r, cells !! rid = Some r ∧ chain_at cells (xr_next r) rids
  end.

Definition set_next (atom : Z) (r : xi_rule_t) : xi_rule_t :=
  mk_rule (xr_flags r) (xr_action r) (xr_use_tag r) (xr_new_state r)
          (xr_bitmap r) atom.

Definition set_first (atom : Z) (s : xi_rstate_t) : xi_rstate_t :=
  mk_rstate (xrbs_flags s) (xrbs_action s) atom.

(** The effect of [*loc = rid] on the cells of the two pools. *)
Definition link_rule (loc : atom_loc) (rid : Z) (cells : gmap Z xi_rule_t)
  : gmap Z xi_rule_t :=
  match loc with
  | LocNext r => alter (set_next rid) r cells
  | _ => cells
  end.

Definition link_state (loc : atom_loc) (rid : Z) (cells : gmap Z xi_rstate_t)
  : gmap Z xi_rstate_t :=
  match loc with
  | LocFirstRule sid => alter (set_first rid) sid cells
  | _ => cells
  end.

(** Where the tail pointer of state [sid] points once the rules [rids] have
    been appended. *)
Definition last_loc (sid : Z) (rids : list Z) : atom_loc :=
  match last rids with
  | None => LocFirstRule sid
  | Some r => LocNext r
  end.

(** *** Invariants of the compilation *)

Section Invariants.

Variable strtol : string -> Z.
Variable xi_parse_atom : option string -> Z.

(** What the callback never changes: the cached atoms and the depth. *)
Definition prep_consts (prep : xi_rulebook_prep_t) : Prop :=
  [xrp_atom_action prep; xrp_atom_id prep; xrp_atom_new_state prep;
   xrp_atom_rule prep; xrp_atom_script prep; xrp_atom_state prep;
   xrp_atom_tag prep; xrp_atom_use_tag prep]
  = name_atom xi_parse_atom
    <$> ["action"; "id"; "new-state"; "rule"; "script"; "state"; "tag";
         "use-tag"]%string
  ∧ xrp_depth prep = 0.

(** The state [sid] heads the chain [rids], which carries the elements
    [rds], and [loc] is where its tail is. *)
Definition tail_invariant (cells : gmap Z xi_rule_t)
    (scells : gmap Z xi_rstate_t) (loc : atom_loc) (sid : Z)
    (rids : list Z) (rds : list rule_decl) : Prop :=
  loc = last_loc sid rids
  ∧ Forall2 (rule_compiled strtol xi_parse_atom cells) rids rds
  ∧ ∃ st, scells !! sid = Some st
          ∧ chain_at cells (xrbs_first_rule st) rids.

(** From [prep] to [prep']: only the rule records at [rids] and the state
    records at [sids] may differ, and both pools hold the same atoms. *)
Definition prep_frame (rids sids : list Z) (prep prep' : xi_rulebook_prep_t)
  : Prop :=
  let cells p := pf_cells (xrb_rules (xrp_rulebook p)) in
  let scells p := pf_cells (xrb_states (xrp_rulebook p)) in
  prep_consts prep'
  ∧ pf_max_atoms (xrb_states (xrp_rulebook prep'))
    = pf_max_atoms (xrb_states (xrp_rulebook prep))
  ∧ (∀ a, a ∉ rids -> cells prep' !! a = cells prep !! a)
  ∧ (∀ a, is_Some (cells prep' !! a) ↔ is_Some (cells prep !! a))
  ∧ (∀ s, s ∉ sids -> scells prep' !! s = scells prep !! s)
  ∧ (∀ s, is_Some (scells prep' !! s) ↔ is_Some (scells prep !! s)).

End Invariants.

(** *** Tags of the compiled rules *)

(** The rule at [rid] matches the atom of the tag of [rd], when that is not
    the null atom, and no other atom. *)
Definition tag_compiled (xi_parse_atom : option string -> Z)
    (xrbp : xi_rulebook_t) (rid : Z) (rd : rule_decl) : Prop :=
  ∀ a, rule_matches xrbp a rid = true
       ↔ (a = xi_parse_atom (rd_tag rd) ∧ a ≠ PA_NULL_ATOM).

(** The bitmap pool can hand out [n] bitmaps: its free list holds at least
    [n] atoms, distinct and not null, and it has no bitmap at the null
    atom. *)
Definition bitmaps_ok (xrbp : xi_rulebook_t) (n : nat) : Prop :=
  (n ≤ length (pb_free (xrb_bitmaps xrbp)))%nat
  ∧ NoDup (pb_free (xrb_bitmaps xrbp))
  ∧ Forall (λ b, b ≠ PA_NULL_ATOM) (pb_free (xrb_bitmaps xrbp))
  ∧ pb_maps (xrb_bitmaps xrbp) !! PA_NULL_ATOM = None.

(** The record at [rid] has the bitmap of the tag of [rd]: none when the
    tag has the null atom, else a bitmap handed out before, which holds the
    atom of the tag only. *)
Definition tag_record (xi_parse_atom : option string -> Z)
    (xrbp : xi_rulebook_t) (rid : Z) (rd : rule_decl) : Prop :=
  ∃ r, pf_cells (xrb_rules xrbp) !! rid = Some r
       ∧ if xi_parse_atom (rd_tag rd) =? PA_NULL_ATOM
         then xr_bitmap r = PA_NULL_ATOM
         else xr_bitmap r ≠ PA_NULL_ATOM
              ∧ (xr_bitmap r ∉ pb_free (xrb_bitmaps xrbp))
              ∧ pb_maps (xrb_bitmaps xrbp) !! xr_bitmap r
                = Some {[xi_parse_atom (rd_tag rd)]}.

(** The rules [rids], compiled from the elements [rds], have their tag
    bitmaps, and the two pools can go on allocating. *)
Definition tags_invariant (xi_parse_atom : option string -> Z)
    (prep : xi_rulebook_prep_t) (rids : list Z) (rds : list rule_decl)
  : Prop :=
  let xrbp := xrp_rulebook prep in
  prep_consts xi_parse_atom prep
  ∧ NoDup (rids ++ pf_free (xrb_rules xrbp))
  ∧ Forall (λ a, a ≠ PA_NULL_ATOM
                 ∧ is_Some (pf_cells (xrb_rules xrbp) !! a))
           (pf_free (xrb_rules xrbp))
  ∧ NoDup (pb_free (xrb_bitmaps xrbp))
  ∧ Forall (λ b, b ≠ PA_NULL_ATOM) (pb_free (xrb_bitmaps xrbp))
  ∧ pb_maps (xrb_bitmaps xrbp) !! PA_NULL_ATOM = None
  ∧ Forall2 (tag_record xi_parse_atom xrbp) rids rds.

(** *** The largest state id *)

(** What a call of the callback keeps: the cached atoms and the size of
    the states pool; and what it does to the largest state id. *)
Definition max_state_step (prep prep' : xi_rulebook_prep_t) : Prop :=
  xrp_atom_script prep' = xrp_atom_script prep
  ∧ xrp_atom_state prep' = xrp_atom_state prep
  ∧ xrp_atom_id prep' = xrp_atom_id prep
  ∧ pf_max_atoms (xrb_states (xrp_rulebook prep'))
    = pf_max_atoms (xrb_states (xrp_rulebook prep))
  ∧ xrsi_max_state (xrp_rulebook prep)
    <= xrsi_max_state (xrp_rulebook prep')
    <= Z.max (xrsi_max_state (xrp_rulebook prep))
             (pf_max_atoms (xrb_states (xrp_rulebook prep))).

(** *** xi_rulebook_dump *)

Definition xi_rulebook_state (xrbp : xi_rulebook_t) (sid : Z)
  : option xi_rstate_t :=
  pa_fixed_element (xrb_states xrbp) sid.

Definition xi_rulebook_rule (xrbp : xi_rulebook_t) (rid : Z)
  : option xi_rule_t :=
  pa_fixed_atom_addr (pf_cells (xrb_rules xrbp)) rid.

(** What [slaxLog] is given: the line of a state ("state %u: flags %#x,
    action %d") and the lines of a rule (its atom, flags, action, use-tag,
    new state and next atom). *)
Inductive dump_line :=
| DumpState (sid flags action : Z)
| DumpRule (rid flags action use_tag new_state next : Z).

Definition dump_rule_line (rid : Z) (rulep : xi_rule_t) : dump_line :=
  DumpRule rid (xr_flags rulep) (xr_action rulep) (xr_use_tag rulep)
           (xr_new_state rulep) (xr_next rulep).

Inductive dump_end := DumpDone | DumpFault | DumpFuel.

(** The inner loop of [xi_rulebook_dump],
    [for (rid = ...; rid != PA_NULL_ATOM; rid = rulep->xr_next)].  When
    [xi_rulebook_rule] gives null the body does [continue], and the loop then
    evaluates [rulep->xr_next] with [rulep] null: a fault. *)
Fixpoint dump_rules (xrbp : xi_rulebook_t) (fuel : nat) (rid : Z)
  : list dump_line * dump_end :=
  if rid =? PA_NULL_ATOM then ([], DumpDone)
  else
    match fuel with
    | O => ([], DumpFuel)
    | S fuel =>
      match xi_rulebook_rule xrbp rid with
      | None => ([], DumpFault)
      | Some rulep =>
        let r := dump_rules xrbp fuel (xr_next rulep) in
        (dump_rule_line rid rulep :: r.1, r.2)
      end
    end.

(** The body of the outer loop, which runs it for [sid] from 1 to
    [xrsi_max_state]: a state the pool does not hold is skipped. *)
Definition dump_state (xrbp : xi_rulebook_t) (fuel : nat) (sid : Z)
  : list dump_line * dump_end :=
  match xi_rulebook_state xrbp sid with
  | None => ([], DumpDone)
  | Some statep =>
    let r := dump_rules xrbp fuel (xrbs_first_rule statep) in
    (DumpState sid (xrbs_flags statep) (xrbs_action statep) :: r.1, r.2)
  end.

End Rules.

(** * Properties *)

Import Short Pat Rules.

(** ** Machine integers *)

Lemma u16_range z : 0 <= u16 z < 65536.
Proof. unfold u16. apply Z.mod_pos_bound. lia. Qed.

Lemma u16_small z : 0 <= z < 65536 -> u16 z = z.
Proof. intros H. unfold u16. apply Z.mod_small. lia. Qed.

Lemma u32_small z : 0 <= z < 4294967296 -> u32 z = z.
Proof. intros H. unfold u32. apply Z.mod_small. lia. Qed.

(** ** Short strings *)

Lemma pa_short_strings_lookup c :
  0 <= c < PA_SHORT_STRINGS_MAX ->
  drop (Z.to_nat (2 * c)) pa_short_strings
  = [c; 0] ++ drop (Z.to_nat (2 * c + 2)) pa_short_strings.
Proof.
  intros Hc.
  assert (Hall : Forall (λ c, drop (Z.to_nat (2 * c)) pa_short_strings
                   = [c; 0] ++ drop (Z.to_nat (2 * c + 2)) pa_short_strings)
                   (seqZ 0 PA_SHORT_STRINGS_MAX)).
  { apply (bool_decide_unpack _). vm_compute. exact I. }
  rewrite Forall_forall in Hall. apply Hall, elem_of_seqZ.
  unfold PA_SHORT_STRINGS_MAX in *. lia.
Qed.

(** Where [char] is unsigned the atom of a one-byte string is [1 + s[0]], in
    the short-string range. *)
Lemma pa_short_string_atom_unsigned c :
  0 <= c <= 255 ->
  pa_short_string_atom UnsignedChar [c] = 1 + c
  ∧ PA_SHORT_STRINGS_MIN <= pa_short_string_atom UnsignedChar [c]
    <= PA_SHORT_STRINGS_MAX.
Proof.
  intros Hc. unfold pa_short_string_atom, PA_SHORT_STRINGS_MIN,
    PA_SHORT_STRINGS_MAX. simpl. rewrite u32_small; lia.
Qed.

(** So it is for the bytes below 128, whatever the ABI. *)
Lemma pa_short_string_atom_ascii abi c :
  0 <= c <= 127 ->
  pa_short_string_atom abi [c] = 1 + c
  ∧ PA_SHORT_STRINGS_MIN <= pa_short_string_atom abi [c]
    <= PA_SHORT_STRINGS_MAX.
Proof.
  intros Hc. unfold pa_short_string_atom, PA_SHORT_STRINGS_MIN,
    PA_SHORT_STRINGS_MAX, char_value. simpl.
  destruct abi; [destruct (Z.ltb_spec c 128); [|lia]|]; rewrite u32_small; lia.
Qed.

(** The empty string and "a". *)
Lemma pa_short_string_atom_examples abi :
  pa_short_string_atom abi [] = 1 ∧ pa_short_string_atom abi [97] = 98.
Proof. by destruct abi. Qed.

(** Where [char] is signed, a byte of 128 or more is sign-extended and the
    atom leaves the short-string range. *)
Lemma pa_short_string_atom_signed_high c :
  128 <= c <= 255 ->
  pa_short_string_atom SignedChar [c] = u32 (c - 255)
  ∧ ¬ (PA_SHORT_STRINGS_MIN <= pa_short_string_atom SignedChar [c]
       <= PA_SHORT_STRINGS_MAX).
Proof.
  intros Hc.
  assert (Hall : Forall (λ c,
            pa_short_string_atom SignedChar [c] = u32 (c - 255)
            ∧ ¬ (PA_SHORT_STRINGS_MIN <= pa_short_string_atom SignedChar [c]
                 <= PA_SHORT_STRINGS_MAX)) (seqZ 128 128)).
  { apply (bool_decide_unpack _). vm_compute. exact I. }
  rewrite Forall_forall in Hall. apply Hall, elem_of_seqZ. lia.
Qed.

(** C2, at the failing input: with a signed [char], the one-byte string
    "\xff" gets the atom 0, which is [PA_NULL_ATOM] and not [1 + 255]; the
    one-byte string "\x80" gets 4294967169. *)
Theorem pa_short_string_atom_high_byte :
  pa_short_string_atom SignedChar [255] = PA_NULL_ATOM
  ∧ pa_short_string_atom SignedChar [128] = 4294967169
  ∧ ¬ (PA_SHORT_STRINGS_MIN <= pa_short_string_atom SignedChar [255]
       <= PA_SHORT_STRINGS_MAX)
  ∧ pa_short_string_atom UnsignedChar [255] = 256.
Proof. vm_compute. repeat split; try done. intros [H _]. by apply H. Qed.

(** The table entry of a short-string atom: its byte and a NUL, inside the
    512 bytes of the table. *)
Lemma pa_short_string_entry a :
  PA_SHORT_STRINGS_MIN <= a <= PA_SHORT_STRINGS_MAX ->
  length pa_short_strings = 512%nat
  ∧ ∃ buf, pa_short_string a = Some buf ∧ take 2 buf = [a - 1; 0].
Proof.
  unfold PA_SHORT_STRINGS_MIN, PA_SHORT_STRINGS_MAX. intros Ha.
  split; [done|]. unfold pa_short_string, PA_SHORT_STRINGS_MIN.
  rewrite Z.shiftl_mul_pow2 by lia. change (2 ^ 1) with 2.
  rewrite (u32_small (a - 1)) by lia.
  rewrite (u32_small ((a - 1) * 2)) by lia.
  change (Z.of_nat (length pa_short_strings)) with 512.
  destruct (Z.ltb_spec ((a - 1) * 2) 512); [|lia].
  eexists. split; [done|].
  replace ((a - 1) * 2) with (2 * (a - 1)) by lia.
  rewrite pa_short_strings_lookup by (unfold PA_SHORT_STRINGS_MAX; lia).
  done.
Qed.

(** Interning then dereferencing a string of length at most one gives the
    string back when its byte is below 128, or when [char] is unsigned. *)
Lemma deref_intern_short abi s :
  (length s ≤ 1)%nat ->
  Forall (λ c, 1 <= c <= 255 ∧ (abi = SignedChar -> c <= 127)) s ->
  ∃ atom, intern_short abi s = Some atom ∧ deref_short atom = Some s.
Proof.
  intros Hlen Hs. unfold intern_short. rewrite decide_True by done.
  eexists. split; [done|]. unfold deref_short.
  destruct s as [|c [|]]; [by destruct abi| |simpl in Hlen; lia].
  apply Forall_cons in Hs as [[Hc Habi] _].
  assert (Hatom : pa_short_string_atom abi [c] = 1 + c).
  { destruct abi.
    - apply pa_short_string_atom_ascii. specialize (Habi eq_refl). lia.
    - apply pa_short_string_atom_unsigned. lia. }
  rewrite Hatom.
  unfold pa_short_string, PA_SHORT_STRINGS_MIN.
  rewrite Z.shiftl_mul_pow2 by lia. change (2 ^ 1) with 2.
  replace (1 + c - 1) with c by lia.
  rewrite (u32_small c) by lia. rewrite (u32_small (c * 2)) by lia.
  change (Z.of_nat (length pa_short_strings)) with 512.
  destruct (Z.ltb_spec (c * 2) 512); [|lia].
  replace (c * 2) with (2 * c) by lia.
  rewrite pa_short_strings_lookup by (unfold PA_SHORT_STRINGS_MAX; lia).
  simpl. destruct (Z.eqb_spec c 0); [lia|done].
Qed.

(** C8, at the failing input: with a signed [char], interning the one-byte
    string "\xff" gives the atom 0, whose table index, computed in
    [uint32_t], is 4294967294 and lies outside the 512-byte table: the
    string is not read back.  The entries of the atoms 1 and 256 are the
    bytes 0 and 255, each followed by a NUL. *)
Theorem deref_intern_short_high_byte :
  intern_short SignedChar [255] = Some 0
  ∧ u32 (Z.shiftl (u32 (0 - PA_SHORT_STRINGS_MIN)) 1) = 4294967294
  ∧ pa_short_string 0 = None
  ∧ deref_short 0 ≠ Some [255]
  ∧ (take 2 <$> pa_short_string 1) = Some [0; 0]
  ∧ (take 2 <$> pa_short_string 256) = Some [255; 0].
Proof. vm_compute. repeat split; done. Qed.

(** ** Patricia lookup *)

(** *** Bit arithmetic of lengths and keys *)

Lemma pa_pat_length_to_bit_eq key_bytes :
  1 <= key_bytes <= PA_PAT_MAXKEY ->
  pa_pat_length_to_bit key_bytes = (key_bytes - 1) * 256 + 255.
Proof.
  unfold PA_PAT_MAXKEY, pa_pat_length_to_bit. intros H.
  destruct (Z.eqb_spec key_bytes 0) as [->|_]; [lia|].
  assert (Hl : Z.lor (Z.shiftl (key_bytes - 1) 8) 255
               = (key_bytes - 1) * 256 + 255).
  { rewrite Z.shiftl_mul_pow2 by lia. change (2 ^ 8) with 256.
    rewrite <- Z.lxor_lor, <- Z.add_nocarry_lxor; try reflexivity.
    - change 255 with (Z.ones 8). rewrite Z.land_ones by lia.
      change (2 ^ 8) with 256. apply Z.mod_mul. lia.
    - change 255 with (Z.ones 8). rewrite Z.land_ones by lia.
      change (2 ^ 8) with 256. apply Z.mod_mul. lia. }
  rewrite Hl. apply u16_small. lia.
Qed.

Lemma go_right_spec key bit_len b g :
  go_right key bit_len b = Some g ->
  g = true ↔ (b < bit_len ∧ key_bit_set key b).
Proof.
  unfold go_right, pat_key_test, key_bit_set.
  destruct (Z.ltb_spec b bit_len) as [Hlt|Hge].
  - destruct (key !! Z.to_nat (Z.shiftr b 8)) as [byte|] eqn:Hk; simpl; [|done].
    intros [= <-]. split.
    + intros Hg. split; [done|]. exists byte. split; [done|].
      intros Hz. rewrite Hz in Hg. done.
    + intros [_ (byte' & [= <-] & Hnz)].
      destruct (Z.eqb_spec (Z.land byte (Z.land (Z.lnot b) 255)) 0); done.
  - intros [= <-]. split; [done|]. intros [? _]. lia.
Qed.

Lemma go_right_in_bounds key_bytes key b :
  valid_key key_bytes key -> 0 <= b ->
  is_Some (go_right key (pa_pat_length_to_bit key_bytes) b).
Proof.
  intros [Hkb Hlen] Hb. unfold go_right, pat_key_test.
  rewrite pa_pat_length_to_bit_eq by done.
  destruct (Z.ltb_spec b ((key_bytes - 1) * 256 + 255)) as [Hlt|_]; [|eauto].
  assert (Hi : (Z.to_nat (Z.shiftr b 8) < length key)%nat).
  { rewrite Hlen, Z.shiftr_div_pow2 by lia. change (2 ^ 8) with 256.
    assert (b / 256 < key_bytes) by (apply Z.div_lt_upper_bound; lia).
    assert (0 <= b / 256) by (apply Z.div_pos; lia). lia. }
  apply lookup_lt_is_Some_2 in Hi as [byte ->]. simpl. eauto.
Qed.

(** *** The loop: termination, trace, and the dead null check *)

Section Walk.
Context (root : pa_pat_t) (key : list Z) (bit_len : Z).

Local Abbreviation walk := (pa_pat_walk root key bit_len).
Local Abbreviation step := (walk_step root key bit_len).

Lemma pa_pat_walk_fuel fuel bit current node :
  0 <= bit -> 65535 - bit <= Z.of_nat fuel ->
  (walk fuel bit current node).2 ≠ WalkFuel.
Proof.
  revert bit current node.
  induction fuel as [|fuel IH]; intros bit current [n|] Hb Hf; simpl; try done.
  - pose proof (u16_range (ppn_bit n)).
    destruct (Z.ltb_spec bit (u16 (ppn_bit n))); [lia|done].
  - pose proof (u16_range (ppn_bit n)).
    destruct (Z.ltb_spec bit (u16 (ppn_bit n))); [|done].
    destruct (go_right _ _ _); simpl; [|done].
    apply IH; lia.
Qed.

Lemma pa_pat_walk_no_null_check fuel bit current node :
  (walk fuel bit current node).2 ≠ WalkReturn.
Proof.
  revert bit current node.
  induction fuel as [|fuel IH]; intros bit current [n|]; simpl; try done.
  - destruct (_ <? _); done.
  - destruct (_ <? _); [|done].
    destruct (go_right _ _ _); simpl; [apply IH|done].
Qed.

(** The values taken by [bit] increase strictly and stay below 65536. *)
Lemma pa_pat_walk_trace fuel bit current node :
  StronglySorted Z.lt (bit :: (walk fuel bit current node).1)
  ∧ Forall (λ b, b < 65536) (walk fuel bit current node).1.
Proof.
  assert (Hnil : ∀ b, StronglySorted Z.lt [b] ∧ Forall (λ b, b < 65536) [])
    by (split; repeat constructor).
  revert bit current node.
  induction fuel as [|fuel IH]; intros bit current [n|]; simpl; try apply Hnil.
  - destruct (_ <? _); apply Hnil.
  - pose proof (u16_range (ppn_bit n)).
    destruct (Z.ltb_spec bit (u16 (ppn_bit n))) as [Hlt|]; [|apply Hnil].
    destruct (go_right _ _ _) as [go|]; simpl.
    + destruct (IH (u16 (ppn_bit n)) (if go then ppn_right n else ppn_left n)
                  (pa_pat_node root (if go then ppn_right n else ppn_left n)))
        as [Hs Hf].
      split; [|constructor; [lia|done]].
      constructor; [done|].
      apply StronglySorted_inv in Hs as [_ Hall].
      constructor; [done|].
      eapply Forall_impl; [exact Hall|]. simpl. intros; lia.
    + split; repeat constructor; lia.
Qed.

Lemma pa_pat_walk_steps fuel bit current node :
  0 <= bit <= 65535 ->
  Z.of_nat (length (walk fuel bit current node).1) <= 65535 - bit.
Proof.
  revert bit current node.
  induction fuel as [|fuel IH]; intros bit current [n|] Hb; simpl; try lia.
  - destruct (_ <? _); simpl; lia.
  - pose proof (u16_range (ppn_bit n)).
    destruct (Z.ltb_spec bit (u16 (ppn_bit n))); simpl; [|lia].
    destruct (go_right _ _ _) as [go|]; simpl; [|lia].
    specialize (IH (u16 (ppn_bit n)) (if go then ppn_right n else ppn_left n)
                  (pa_pat_node root (if go then ppn_right n else ppn_left n))).
    lia.
Qed.

(** The loop follows [walk_step] and leaves at a stopping node. *)
Lemma pa_pat_walk_sound fuel bit current a n :
  (walk fuel bit current (pa_pat_node root current)).2 = WalkExit a n ->
  ∃ b, rtc step (bit, current) (b, a) ∧ walk_stops root (b, a) n.
Proof.
  revert bit current.
  induction fuel as [|fuel IH]; intros bit current; simpl;
    destruct (pa_pat_node root current) as [m|] eqn:Hm; try done.
  - destruct (Z.ltb_spec bit (u16 (ppn_bit m))); [done|].
    intros [= <- <-]. exists bit. split; [done|]. split; [done|simpl; lia].
  - destruct (Z.ltb_spec bit (u16 (ppn_bit m))) as [Hlt|Hge].
    + destruct (go_right _ _ _) as [go|] eqn:Hgo; simpl; [|done].
      intros Hw. apply IH in Hw as (b & Hrtc & Hstop).
      exists b. split; [|done].
      eapply rtc_l; [|exact Hrtc].
      apply go_right_spec in Hgo. destruct go.
      * apply walk_step_right; [done..|]. by apply Hgo.
      * apply walk_step_left; [done..|]. intros Hr. by apply Hgo in Hr.
    + intros [= <- <-]. exists bit. split; [done|]. split; [done|simpl; lia].
Qed.

(** When the reached atoms resolve and the key bytes can be read, the
    loop leaves normally. *)
Lemma pa_pat_walk_exits fuel bit current :
  0 <= bit -> 65535 - bit <= Z.of_nat fuel ->
  (∀ b, 0 <= b -> is_Some (go_right key bit_len b)) ->
  (∀ st, rtc step (bit, current) st -> is_Some (pa_pat_node root st.2)) ->
  ∃ a n, (walk fuel bit current (pa_pat_node root current)).2 = WalkExit a n.
Proof.
  revert bit current.
  induction fuel as [|fuel IH]; intros bit current Hb Hf Hkey Hres;
    destruct (Hres (bit, current)) as [m Hm]; [done| |done|]; simpl in *;
    rewrite Hm; simpl; pose proof (u16_range (ppn_bit m)).
  - destruct (Z.ltb_spec bit (u16 (ppn_bit m))); [lia|eauto].
  - destruct (Z.ltb_spec bit (u16 (ppn_bit m))) as [Hlt|]; [|eauto].
    destruct (Hkey (u16 (ppn_bit m))) as [go Hgo]; [lia|].
    rewrite Hgo. simpl. apply IH; [lia..|done|].
    intros st Hst. apply Hres. eapply rtc_l; [|exact Hst].
    apply go_right_spec in Hgo. destruct go.
    + apply walk_step_right; [done..|]. by apply Hgo.
    + apply walk_step_left; [done..|]. intros Hr. by apply Hgo in Hr.
Qed.

End Walk.

(** *** Well-formed tries *)

Lemma pa_pat_node_in_pool root a n :
  pa_pat_node root a = Some n -> pp_nodes root !! a = Some n.
Proof.
  unfold pa_pat_node, pa_fixed_atom_addr. by destruct (a =? PA_NULL_ATOM).
Qed.

Lemma wf_trie_node root a n :
  wf_trie root -> pa_pat_node root a = Some n ->
  is_Some (pa_pat_node root (ppn_left n))
  ∧ is_Some (pa_pat_node root (ppn_right n))
  ∧ ∃ k, pa_pat_key root n = Some k
         ∧ (Z.to_nat (pa_pat_length n) ≤ length k)%nat.
Proof.
  intros [_ Hall] Hn. apply pa_pat_node_in_pool in Hn.
  apply Hall in Hn. apply andb_prop in Hn as [Hl Hk].
  apply andb_prop in Hl as [Hl Hr].
  apply bool_decide_eq_true in Hl, Hr. repeat split; [done..|].
  unfold node_key_ok in Hk. destruct (pa_pat_key root n) as [k|]; [|done].
  apply bool_decide_eq_true in Hk. eauto.
Qed.

Lemma wf_trie_reached root key bit_len st :
  wf_trie root -> pp_root root ≠ PA_NULL_ATOM ->
  reached root key bit_len st -> is_Some (pa_pat_node root st.2).
Proof.
  intros Hwf Hne Hst. unfold reached in Hst. revert st Hst.
  apply (rtc_ind_r (λ st, is_Some (pa_pat_node root st.2))).
  - by apply Hwf.
  - intros st st' _ Hstep _.
    destruct Hstep as [prev cur n Hn _ _|prev cur n Hn _ _]; simpl;
      by apply (wf_trie_node root cur n).
Qed.

Lemma ab_trie_wf : wf_trie ab_trie.
Proof.
  split.
  - intros _. vm_compute. eauto.
  - apply (bool_decide_unpack _). by vm_compute.
Qed.

Lemma pa_pat_length_of_bit key_bytes n :
  1 <= key_bytes <= PA_PAT_MAXKEY ->
  u16 (ppn_length n) = pa_pat_length_to_bit key_bytes ->
  pa_pat_length n = key_bytes.
Proof.
  intros Hkb Hl. unfold pa_pat_length. rewrite Hl.
  rewrite pa_pat_length_to_bit_eq by done. unfold PA_PAT_MAXKEY in Hkb.
  rewrite Z.shiftr_div_pow2 by lia. change (2 ^ 8) with 256.
  rewrite Z.div_add_l by lia. change (255 / 256) with 0.
  rewrite u16_small; lia.
Qed.

(** The final comparison, once the loop has left at node [n]. *)
Lemma pa_pat_get_inline_compare root key_bytes key a n :
  wf_trie root -> valid_key key_bytes key ->
  pp_root root ≠ PA_NULL_ATOM -> pa_pat_node root a = Some n ->
  (pa_pat_walk root key (pa_pat_length_to_bit key_bytes) walk_fuel
     PA_PAT_NOBIT (pp_root root) (pa_pat_node root (pp_root root))).2
    = WalkExit a n ->
  (node_matches root key_bytes key n ->
     pa_pat_get_inline root key_bytes key = Returned AtCompare (Some a))
  ∧ (¬ node_matches root key_bytes key n ->
     pa_pat_get_inline root key_bytes key = Returned AtCompare None).
Proof.
  intros Hwf [Hkb Hlen] Hroot Hn Hw. unfold pa_pat_get_inline, pa_pat_is_null.
  destruct (Z.eqb_spec key_bytes 0) as [->|_]; [lia|].
  destruct (Z.eqb_spec (pp_root root) PA_NULL_ATOM) as [|_]; [done|].
  rewrite Hw. unfold node_matches.
  destruct (Z.eqb_spec (u16 (ppn_length n)) (pa_pat_length_to_bit key_bytes))
    as [Hl|Hl]; simpl; [|split; [by intros [? _]|done]].
  destruct (wf_trie_node root a n Hwf Hn) as (_ & _ & k & Hk & Hkl).
  rewrite (pa_pat_length_of_bit key_bytes n Hkb Hl) in Hkl.
  rewrite Hk. simpl. rewrite decide_True by lia.
  case_bool_decide as Heq; simpl.
  - split; [done|]. intros Hno. destruct Hno. eauto.
  - split; [|done]. intros (_ & k' & [= <-] & Heq'). done.
Qed.

(** *** Properties of the lookup *)

Lemma pa_pat_get_inline_null root key_bytes key :
  key_bytes ≠ 0 -> pp_root root = PA_NULL_ATOM ->
  pa_pat_get_inline root key_bytes key = Returned AtRootNull None.
Proof.
  intros Hkb Hroot. unfold pa_pat_get_inline, pa_pat_is_null. rewrite Hroot.
  destruct (Z.eqb_spec key_bytes 0); done.
Qed.

Lemma pa_pat_get_inline_walk root key_bytes key :
  wf_trie root -> valid_key key_bytes key -> pp_root root ≠ PA_NULL_ATOM ->
  ∃ st n,
    reached root key (pa_pat_length_to_bit key_bytes) st
    ∧ walk_stops root st n
    ∧ (node_matches root key_bytes key n ->
         pa_pat_get_inline root key_bytes key = Returned AtCompare (Some st.2))
    ∧ (¬ node_matches root key_bytes key n ->
         pa_pat_get_inline root key_bytes key = Returned AtCompare None).
Proof.
  intros Hwf Hkey Hroot.
  destruct (pa_pat_walk_exits root key (pa_pat_length_to_bit key_bytes)
              walk_fuel PA_PAT_NOBIT (pp_root root)) as (a & n & Hw).
  - done.
  - unfold walk_fuel, PA_PAT_NOBIT. lia.
  - intros b Hb. by apply go_right_in_bounds.
  - intros st Hst.
    by apply (wf_trie_reached root key (pa_pat_length_to_bit key_bytes)).
  - destruct (pa_pat_walk_sound _ _ _ _ _ _ _ _ Hw) as (b & Hrtc & Hstop).
    exists (b, a), n. split; [done|]. split; [done|].
    apply pa_pat_get_inline_compare; try done. apply Hstop.
Qed.

(** C3: on a well-formed trie and a non-empty key, [pa_pat_get_inline]
    returns null when the root is null; otherwise the loop follows
    [walk_step] from the root (right exactly when the node's bit index is
    below the key's bit length and that bit of the key is set), leaves at the
    first node whose bit index does not exceed the previous one, and the
    result is that node exactly when its length equals the key's bit length
    and its key bytes equal the search key, null otherwise; it never faults
    or aborts. *)
Theorem pa_pat_get_inline_spec root key_bytes key :
  wf_trie root -> valid_key key_bytes key ->
  (pp_root root = PA_NULL_ATOM ->
     pa_pat_get_inline root key_bytes key = Returned AtRootNull None)
  ∧ (pp_root root ≠ PA_NULL_ATOM ->
     ∃ st n,
       reached root key (pa_pat_length_to_bit key_bytes) st
       ∧ walk_stops root st n
       ∧ (node_matches root key_bytes key n ->
            pa_pat_get_inline root key_bytes key
            = Returned AtCompare (Some st.2))
       ∧ (¬ node_matches root key_bytes key n ->
            pa_pat_get_inline root key_bytes key = Returned AtCompare None)).
Proof.
  intros Hwf Hkey. split.
  - apply pa_pat_get_inline_null. destruct Hkey as [Hkb _]. lia.
  - by apply pa_pat_get_inline_walk.
Qed.

Lemma pa_pat_get_inline_spec_witness :
  wf_trie ab_trie ∧ valid_key 1 [98]
  ∧ ∃ st n,
      reached ab_trie [98] (pa_pat_length_to_bit 1) st
      ∧ walk_stops ab_trie st n
      ∧ (node_matches ab_trie 1 [98] n ->
           pa_pat_get_inline ab_trie 1 [98] = Returned AtCompare (Some st.2))
      ∧ (¬ node_matches ab_trie 1 [98] n ->
           pa_pat_get_inline ab_trie 1 [98] = Returned AtCompare None).
Proof.
  assert (Hwf : wf_trie ab_trie).
  { split; [intros _; vm_compute; eauto|].
    apply (bool_decide_unpack _). vm_compute. exact I. }
  assert (Hkey : valid_key 1 [98]).
  { split; [unfold PA_PAT_MAXKEY; lia|reflexivity]. }
  split; [exact Hwf|]. split; [exact Hkey|].
  apply (pa_pat_get_inline_spec ab_trie 1 [98] Hwf Hkey).
  vm_compute. discriminate.
Defined.

(** C6: the walk terminates.  With the 65535 units of fuel of
    [pa_pat_get_inline] the loop never runs out of fuel, whatever the pool
    holds: the values taken by [bit] increase strictly and are 16-bit, so
    there are at most 65535 iterations; and when the loop leaves, it is at
    the first node whose bit index does not exceed the previous one. *)
Theorem pa_pat_walk_terminates root key bit_len current :
  let w := pa_pat_walk root key bit_len walk_fuel PA_PAT_NOBIT current
             (pa_pat_node root current) in
  w.2 ≠ WalkFuel
  ∧ StronglySorted Z.lt (PA_PAT_NOBIT :: w.1)
  ∧ Forall (λ b, b < 65536) w.1
  ∧ Z.of_nat (length w.1) <= 65535
  ∧ (∀ a n, w.2 = WalkExit a n ->
       ∃ b, rtc (walk_step root key bit_len) (PA_PAT_NOBIT, current) (b, a)
            ∧ walk_stops root (b, a) n)
  ∧ ∀ key_bytes, pa_pat_get_inline root key_bytes key ≠ OutOfFuel.
Proof.
  cbv zeta. split; [|split; [|split; [|split; [|split]]]].
  - apply pa_pat_walk_fuel; unfold PA_PAT_NOBIT, walk_fuel; lia.
  - apply pa_pat_walk_trace.
  - apply pa_pat_walk_trace.
  - pose proof (pa_pat_walk_steps root key bit_len walk_fuel PA_PAT_NOBIT
                  current (pa_pat_node root current)) as H.
    unfold PA_PAT_NOBIT in *. lia.
  - intros a n Hw. by apply (pa_pat_walk_sound _ _ _ walk_fuel).
  - intros key_bytes. unfold pa_pat_get_inline.
    destruct (key_bytes =? 0); [done|].
    destruct (pa_pat_is_null _); [done|].
    pose proof (pa_pat_walk_fuel root key (pa_pat_length_to_bit key_bytes)
                  walk_fuel PA_PAT_NOBIT (pp_root root)
                  (pa_pat_node root (pp_root root))) as H.
    assert (H0 : 0 <= PA_PAT_NOBIT) by done.
    assert (H1 : 65535 - PA_PAT_NOBIT <= Z.of_nat walk_fuel)
      by (unfold PA_PAT_NOBIT, walk_fuel; lia).
    specialize (H H0 H1).
    destruct (pa_pat_walk _ _ _ _ _ _ _).2; try done.
    destruct (negb _); [done|]. by destruct (bcmp _ _ _) as [[]|].
Qed.

Lemma pa_pat_walk_terminates_witness :
  ∃ b, rtc (walk_step ab_trie [97] 255) (PA_PAT_NOBIT, 2) (b, 1)
       ∧ walk_stops ab_trie (b, 1) (mk_node 255 0 1 1 101).
Proof.
  apply (pa_pat_walk_terminates ab_trie [97] 255 2). vm_compute. reflexivity.
Defined.

(** C9: a zero-length key aborts; a key length of at least one byte, that
    is a [uint16_t] value of 1 to 65535, never does; and since the call
    converts its argument to [uint16_t], it aborts exactly when the converted
    length is 0, as it is for 65536.  On a well-formed trie with a key of 1
    to [PA_PAT_MAXKEY] = 256 bytes the call returns null or a node that
    matches the key.  256 bytes is the longest key whose length the 16-bit
    index can hold: its bit length is 65535, and that of 257 bytes wraps to
    the bit length of one byte. *)
Theorem pa_pat_get_inline_abort root key_bytes key :
  wf_trie root -> valid_key key_bytes key ->
  (∀ r k, pa_pat_get_inline r 0 k = Aborted)
  ∧ (∀ r kb k, 1 <= kb <= 65535 -> pa_pat_get_inline r kb k ≠ Aborted)
  ∧ (∀ r kb k, pa_pat_get_inline r (u16 kb) k = Aborted ↔ u16 kb = 0)
  ∧ (∃ site, pa_pat_get_inline root key_bytes key = Returned site None
      ∨ ∃ a n, pa_pat_get_inline root key_bytes key = Returned site (Some a)
               ∧ pa_pat_node root a = Some n
               ∧ node_matches root key_bytes key n)
  ∧ PA_PAT_MAXKEY = 256
  ∧ pa_pat_length_to_bit PA_PAT_MAXKEY = 65535
  ∧ pa_pat_length_to_bit (PA_PAT_MAXKEY + 1) = pa_pat_length_to_bit 1.
Proof.
  intros Hwf Hkey.
  assert (Hpos : ∀ r kb k, kb ≠ 0 -> pa_pat_get_inline r kb k ≠ Aborted).
  { intros r kb k Hkb. unfold pa_pat_get_inline.
    destruct (Z.eqb_spec kb 0); [done|].
    destruct (pa_pat_is_null _); [done|].
    destruct (pa_pat_walk _ _ _ _ _ _ _).2; try done.
    destruct (negb _); [done|]. by destruct (bcmp _ _ _) as [[]|]. }
  split; [done|]. split; [|split; [|split; [|done]]].
  - intros r kb k Hkb. apply Hpos. lia.
  - intros r kb k. split.
    + intros Hab. destruct (decide (u16 kb = 0)) as [|Hnz]; [done|].
      by destruct (Hpos r (u16 kb) k Hnz).
    + by intros ->.
  - destruct (decide (pp_root root = PA_NULL_ATOM)) as [Hr|Hr].
    + exists AtRootNull. left. apply pa_pat_get_inline_null; [|done].
      destruct Hkey as [Hkb _]. lia.
    + destruct (pa_pat_get_inline_walk root key_bytes key Hwf Hkey Hr)
        as ([b a] & n & _ & [Hn _] & Hyes & Hno).
      exists AtCompare.
      destruct (Z.eq_dec (u16 (ppn_length n)) (pa_pat_length_to_bit key_bytes))
        as [Hl|Hl]; [|left; apply Hno; by intros [? _]].
      destruct (pa_pat_key root n) as [k|] eqn:Hk;
        [|left; apply Hno; intros (_ & k & Hk' & _); congruence].
      destruct (decide (take (Z.to_nat key_bytes) k
                        = take (Z.to_nat key_bytes) key)) as [He|He].
      * assert (Hm : node_matches root key_bytes key n).
        { split; [done|]. exists k. by rewrite <- Hk. }
        right. exists a, n. split; [by apply Hyes|done].
      * left. apply Hno. intros (_ & k' & Hk' & He').
        rewrite Hk in Hk'. by injection Hk' as <-.
Qed.

Lemma pa_pat_get_inline_abort_witness :
  wf_trie ab_trie ∧ valid_key 1 [97]
  ∧ pa_pat_get_inline ab_trie 0 [97] = Aborted
  ∧ pa_pat_get_inline ab_trie 1 [97] ≠ Aborted
  ∧ pa_pat_get_inline ab_trie (u16 65536) [97] = Aborted.
Proof.
  assert (Hwf : wf_trie ab_trie).
  { split; [intros _; vm_compute; eauto|].
    apply (bool_decide_unpack _). vm_compute. exact I. }
  assert (Hkey : valid_key 1 [97]).
  { split; [unfold PA_PAT_MAXKEY; lia|reflexivity]. }
  destruct (pa_pat_get_inline_abort ab_trie 1 [97] Hwf Hkey)
    as (H0 & H1 & H2 & _).
  split; [exact Hwf|]. split; [exact Hkey|].
  split; [apply H0|]. split; [apply H1; lia|]. apply H2. reflexivity.
Defined.

(** C10: in the loop of [pa_pat_get_inline] the node is non-null every time
    its bit field is read.  The in-loop null check never returns, on any
    pool (the loop condition has read the node before).  When the root atom
    and every child atom the walk reaches resolve in the node pool, the loop
    condition never reads a null node, the loop leaves at a node, and the
    call returns a node or null. *)
Theorem pa_pat_walk_never_null root key_bytes key :
  valid_key key_bytes key ->
  map_Forall (λ _ n, node_key_ok root n = true) (pp_nodes root) ->
  (∀ st, reached root key (pa_pat_length_to_bit key_bytes) st ->
         is_Some (pa_pat_node root st.2)) ->
  let w := pa_pat_walk root key (pa_pat_length_to_bit key_bytes) walk_fuel
             PA_PAT_NOBIT (pp_root root) (pa_pat_node root (pp_root root)) in
  (∀ r k bl fuel bit cur nd, (pa_pat_walk r k bl fuel bit cur nd).2 ≠ WalkReturn)
  ∧ w.2 ≠ WalkFault NullDeref
  ∧ (∃ a n, w.2 = WalkExit a n ∧ pa_pat_node root a = Some n)
  ∧ ∃ res, pa_pat_get_inline root key_bytes key = Returned AtCompare res.
Proof.
  intros Hkey Hkeys Hres w. split; [apply pa_pat_walk_no_null_check|].
  destruct (pa_pat_walk_exits root key (pa_pat_length_to_bit key_bytes)
              walk_fuel PA_PAT_NOBIT (pp_root root)) as (a & n & Hw).
  { done. } { unfold walk_fuel, PA_PAT_NOBIT. lia. }
  { intros b Hb. by apply go_right_in_bounds. } { exact Hres. }
  destruct (pa_pat_walk_sound _ _ _ _ _ _ _ _ Hw) as (b & _ & [Hn _]).
  simpl in Hn. subst w. rewrite Hw.
  split; [done|]. split; [eauto|].
  destruct (Hres (PA_PAT_NOBIT, pp_root root)) as [m Hm]; [apply rtc_refl|].
  destruct Hkey as [Hkb Hlen].
  unfold pa_pat_get_inline, pa_pat_is_null.
  destruct (Z.eqb_spec key_bytes 0) as [->|_]; [lia|].
  destruct (Z.eqb_spec (pp_root root) PA_NULL_ATOM) as [Hr|_].
  { simpl in Hm. unfold pa_pat_node, pa_fixed_atom_addr in Hm.
    rewrite Hr in Hm. done. }
  rewrite Hw.
  destruct (Z.eqb_spec (u16 (ppn_length n)) (pa_pat_length_to_bit key_bytes))
    as [Hl|Hl]; simpl; [|eauto].
  pose proof (Hkeys _ _ (pa_pat_node_in_pool _ _ _ Hn)) as Hk. simpl in Hk.
  unfold node_key_ok in Hk. destruct (pa_pat_key root n) as [k|]; [|done].
  apply bool_decide_eq_true in Hk.
  rewrite (pa_pat_length_of_bit key_bytes n Hkb Hl) in Hk.
  simpl. rewrite decide_True by lia. destruct (negb _); eauto.
Qed.

Lemma pa_pat_walk_never_null_witness :
  ∃ res, pa_pat_get_inline ab_trie 1 [97] = Returned AtCompare res.
Proof.
  assert (Hwf : wf_trie ab_trie).
  { split; [intros _; vm_compute; eauto|].
    apply (bool_decide_unpack _). vm_compute. exact I. }
  apply (pa_pat_walk_never_null ab_trie 1 [97]).
  - split; [unfold PA_PAT_MAXKEY; lia|reflexivity].
  - apply (bool_decide_unpack _). vm_compute. exact I.
  - intros st Hst.
    apply (wf_trie_reached ab_trie [97] (pa_pat_length_to_bit 1) st Hwf);
      [vm_compute; discriminate|exact Hst].
Defined.

(** *** Bit numbering *)

Lemma land_pow2_testbit a k :
  0 <= k -> Z.land a (2 ^ k) ≠ 0 ↔ Z.testbit a k = true.
Proof.
  intros Hk. split.
  - intros Hnz. destruct (Z.testbit a k) eqn:Ht; [done|].
    destruct Hnz. apply Z.bits_inj'. intros n Hn.
    rewrite Z.land_spec, Z.bits_0, Z.pow2_bits_eqb by lia.
    destruct (Z.eqb_spec k n) as [->|_]; [by rewrite Ht|apply andb_false_r].
  - intros Ht Hz. apply (f_equal (λ z, Z.testbit z k)) in Hz.
    rewrite Z.land_spec, Z.bits_0, Z.pow2_bits_eqb, Ht, Z.eqb_refl in Hz by lia.
    done.
Qed.

Lemma makebit_ok_all b i :
  0 <= b <= 255 -> 0 <= i <= 7 -> makebit_ok b i = true.
Proof.
  intros Hb Hi.
  assert (Hall : Forall (λ b, Forall (λ i, makebit_ok b i = true) (seqZ 0 8))
                        (seqZ 0 256)).
  { apply (bool_decide_unpack _). vm_compute. exact I. }
  rewrite Forall_forall in Hall.
  specialize (Hall b). rewrite Forall_forall in Hall.
  apply Hall; apply elem_of_seqZ; lia.
Qed.

(** C4: for a byte offset [b] in 0..255 and a bit [i] in 0..7 counted from
    the most significant one, [pa_pat_makebit] yields
    [((b & 0xff) << 8) | (~hi_bit_mask[i] & 0xff)], and [pat_key_test] on that
    index computes [key[bit >> 8] & (~bit & 0xff)], which reads byte [b] of
    the key and is non-zero exactly when bit [i] of that byte is set.  This
    holds for every table whose entry [i] is the mask of bit [i]. *)
Theorem pa_pat_makebit_key_test pa_pat_hi_bit_table b i key byte :
  0 <= b <= 255 -> 0 <= i <= 7 ->
  pa_pat_hi_bit_table i = hi_bit_mask i ->
  key !! Z.to_nat b = Some byte ->
  let bit := pa_pat_makebit pa_pat_hi_bit_table b i in
  bit = Z.lor (Z.shiftl (Z.land b 255) 8)
              (Z.land (Z.lnot (hi_bit_mask i)) 255)
  ∧ pat_key_test key bit = Some (Z.land byte (Z.land (Z.lnot bit) 255))
  ∧ (∀ t, pat_key_test key bit = Some t ->
          t ≠ 0 ↔ Z.testbit byte (7 - i) = true).
Proof.
  intros Hb Hi Htable Hkey bit.
  assert (Hsame : bit = pa_pat_makebit hi_bit_mask b i).
  { unfold bit, pa_pat_makebit. by rewrite Htable. }
  clearbody bit. subst bit. set (bit := pa_pat_makebit hi_bit_mask b i).
  pose proof (makebit_ok_all b i Hb Hi) as Hok. unfold makebit_ok in Hok.
  fold bit in Hok. apply andb_prop in Hok as [Hok Hmask].
  apply andb_prop in Hok as [Hbit Hoff].
  apply Z.eqb_eq in Hbit, Hoff, Hmask.
  assert (Htest : pat_key_test key bit
                  = Some (Z.land byte (Z.land (Z.lnot bit) 255))).
  { unfold pat_key_test. rewrite Hoff, Hkey. done. }
  split; [done|]. split; [done|].
  intros t Ht. rewrite Htest in Ht. injection Ht as <-.
  rewrite Hmask. apply land_pow2_testbit. lia.
Qed.

Lemma pa_pat_makebit_key_test_witness :
  pa_pat_makebit hi_bit_mask 0 6 = 253
  ∧ pat_key_test [98] (pa_pat_makebit hi_bit_mask 0 6) = Some 2
  ∧ (2 ≠ 0 ↔ Z.testbit 98 (7 - 6) = true).
Proof.
  destruct (pa_pat_makebit_key_test hi_bit_mask 0 6 [98] 98)
    as (H1 & H2 & H3); [lia|lia|reflexivity|reflexivity|].
  split; [reflexivity|]. split; [exact H2|]. apply H3. exact H2.
Defined.

(** *** pa_pat_getnext and pa_pat_lookup_geq *)

Lemma key_compare_refl k : key_compare k k = Eq.
Proof. induction k as [|c k IH]; simpl; [done|]. by rewrite Z.compare_refl. Qed.

Lemma key_compare_eq k1 k2 : key_compare k1 k2 = Eq -> k1 = k2.
Proof.
  revert k2. induction k1 as [|c1 k1 IH]; intros [|c2 k2]; simpl; try done.
  destruct (Z.compare_spec c1 c2) as [->| |]; try done.
  intros H. by rewrite (IH k2 H).
Qed.

Lemma key_compare_antisym k1 k2 :
  key_compare k2 k1 = CompOpp (key_compare k1 k2).
Proof.
  revert k2. induction k1 as [|c1 k1 IH]; intros [|c2 k2]; simpl; try done.
  rewrite (Z.compare_antisym c1 c2).
  destruct (c1 ?= c2); simpl; [apply IH|done..].
Qed.

Lemma key_le_antisym k1 k2 :
  key_le k1 k2 = true -> key_le k2 k1 = true -> k1 = k2.
Proof.
  unfold key_le. rewrite (key_compare_antisym k1 k2).
  destruct (key_compare k1 k2) eqn:Hc; simpl; try done.
  intros _ _. by apply key_compare_eq.
Qed.

Lemma tree_keys_node root a k :
  (a, k) ∈ tree_keys root ↔
  pp_root root ≠ PA_NULL_ATOM
  ∧ ∃ n, pa_pat_node root a = Some n ∧ pa_pat_key root n = Some k.
Proof.
  unfold tree_keys, pa_pat_is_null.
  destruct (Z.eqb_spec (pp_root root) PA_NULL_ATOM) as [Hr|Hr].
  { split; [intros H; by apply elem_of_nil in H|by intros [? _]]. }
  rewrite list_elem_of_omap. split.
  - intros ([a' n'] & Hin & Hk). simpl in Hk. split; [done|].
    destruct (pa_pat_node root a') as [n|] eqn:Hn; [|done]. simpl in Hk.
    destruct (pa_pat_key root n) as [k'|] eqn:Hkey; [|done].
    simpl in Hk. injection Hk as <- <-. eauto.
  - intros (_ & n & Hn & Hk). exists (a, n). split.
    + apply elem_of_map_to_list. by apply pa_pat_node_in_pool.
    + simpl. rewrite Hn. simpl. rewrite Hk. done.
Qed.

(** What the modelled [pa_pat_getnext] returns is a node of the tree whose
    key is eligible. *)
Lemma pa_pat_getnext_eligible root key_bytes key return_eq r :
  pa_pat_getnext root key_bytes key return_eq = Some r ->
  ∃ n k, pa_pat_node root r = Some n ∧ pa_pat_key root n = Some k
         ∧ key_eligible return_eq (take (Z.to_nat key_bytes) key) k = true.
Proof.
  unfold pa_pat_getnext. intros H.
  apply fmap_Some in H as ([a k] & Hfind & ->).
  apply find_some in Hfind as [Hin _]. simpl.
  apply list_elem_of_In, list_elem_of_filter in Hin as [Helig Hin].
  apply tree_keys_node in Hin as (_ & n & Hn & Hk). eauto.
Qed.

(** With [return_eq] set, an exact match in the tree is what comes back. *)
Lemma pa_pat_getnext_exact root key_bytes key a n :
  pp_root root ≠ PA_NULL_ATOM ->
  pa_pat_node root a = Some n ->
  pa_pat_key root n = Some (take (Z.to_nat key_bytes) key) ->
  ∃ r m, pa_pat_getnext root key_bytes key true = Some r
         ∧ pa_pat_node root r = Some m
         ∧ pa_pat_key root m = Some (take (Z.to_nat key_bytes) key).
Proof.
  intros Hr Hn Hk. unfold pa_pat_getnext.
  set (key' := take (Z.to_nat key_bytes) key) in *.
  set (eligible := filter _ _).
  assert (Hin : (a, key') ∈ eligible).
  { apply list_elem_of_filter. split.
    - simpl. unfold key_eligible. by rewrite key_compare_refl.
    - apply tree_keys_node. eauto. }
  assert (Hmin : forallb (λ d, key_le (a, key').2 d.2) eligible = true).
  { apply forallb_forall. intros [b kb] Hb.
    apply list_elem_of_In, list_elem_of_filter in Hb as [Helig _].
    simpl in *. unfold key_eligible in Helig. unfold key_le.
    by destruct (key_compare key' kb). }
  destruct (find (λ c, forallb (λ d, key_le c.2 d.2) eligible) eligible)
    as [[r k]|] eqn:Hfind.
  - apply find_some in Hfind as [Hrin Hrmin]. simpl in Hrmin.
    rewrite forallb_forall in Hrmin.
    pose proof (Hrmin _ (proj1 (list_elem_of_In _ _) Hin)) as Hle. simpl in Hle.
    apply list_elem_of_In, list_elem_of_filter in Hrin as [Helig Hrin].
    simpl in Helig.
    assert (Hge : key_le key' k = true).
    { unfold key_eligible in Helig. unfold key_le.
      by destruct (key_compare key' k). }
    rewrite (key_le_antisym _ _ Hle Hge) in Hrin.
    apply tree_keys_node in Hrin as (_ & m & Hm & Hmk).
    exists r, m. done.
  - exfalso.
    pose proof (find_none _ _ Hfind (a, key')
                  (proj1 (list_elem_of_In _ _) Hin)) as Hno.
    simpl in Hno, Hmin. congruence.
Qed.

(** C5: [pa_pat_lookup_geq] is [pa_pat_getnext] on the root's key length
    with [return_eq] set, whatever [pa_pat_getnext] is; and in the documented
    contract of [pa_pat_getnext] it is the caller's [return_eq] that decides
    about an exact match: what is returned has a key at least as large as the
    search key, strictly larger when [return_eq] is clear, and with
    [return_eq] set an exact match in the tree is returned. *)
Theorem pa_pat_lookup_geq_forwards root key :
  (∀ getnext, pa_pat_lookup_geq getnext root key
              = getnext root (pp_key_bytes root) key true)
  ∧ (∀ key_bytes return_eq r,
       pa_pat_getnext root key_bytes key return_eq = Some r ->
       ∃ n k, pa_pat_node root r = Some n ∧ pa_pat_key root n = Some k
              ∧ match key_compare (take (Z.to_nat key_bytes) key) k with
                | Lt => True
                | Eq => return_eq = true
                | Gt => False
                end)
  ∧ (∀ key_bytes a n,
       pp_root root ≠ PA_NULL_ATOM ->
       pa_pat_node root a = Some n ->
       pa_pat_key root n = Some (take (Z.to_nat key_bytes) key) ->
       ∃ r m, pa_pat_getnext root key_bytes key true = Some r
              ∧ pa_pat_node root r = Some m
              ∧ pa_pat_key root m = Some (take (Z.to_nat key_bytes) key)).
Proof.
  split; [done|]. split.
  - intros key_bytes return_eq r Hr.
    apply pa_pat_getnext_eligible in Hr as (n & k & Hn & Hk & Helig).
    exists n, k. split; [done|]. split; [done|].
    unfold key_eligible in Helig.
    by destruct (key_compare (take (Z.to_nat key_bytes) key) k).
  - intros key_bytes a n. apply pa_pat_getnext_exact.
Qed.

Lemma pa_pat_lookup_geq_forwards_witness :
  pa_pat_lookup_geq pa_pat_getnext ab_trie [97]
  = pa_pat_getnext ab_trie (pp_key_bytes ab_trie) [97] true
  ∧ pa_pat_getnext ab_trie 1 [97] true = Some 1
  ∧ pa_pat_getnext ab_trie 1 [97] false = Some 2.
Proof.
  split; [apply (pa_pat_lookup_geq_forwards ab_trie [97])|].
  vm_compute. split; reflexivity.
Defined.

(** ** Rulebook compilation *)

(** *** Linked rule lists in the pool *)

Lemma chain_at_rule_chain cells first rids fuel :
  chain_at cells first rids -> (length rids ≤ fuel)%nat ->
  rule_chain cells fuel first = Some rids.
Proof.
  revert first fuel.
  induction rids as [|rid rids IH]; intros first fuel; simpl.
  - intros -> _. by destruct fuel.
  - intros (-> & Hnz & r & Hr & Hch) Hlen.
    destruct fuel as [|fuel]; [lia|]. simpl.
    destruct (Z.eqb_spec rid PA_NULL_ATOM); [done|].
    unfold pa_fixed_atom_addr.
    destruct (Z.eqb_spec rid PA_NULL_ATOM); [done|].
    rewrite Hr. simpl. rewrite (IH _ fuel Hch); [done|lia].
Qed.

Lemma chain_at_dom cells first rids :
  chain_at cells first rids -> Forall (λ a, is_Some (cells !! a)) rids.
Proof.
  revert first. induction rids as [|rid rids IH]; intros first; simpl.
  - constructor.
  - intros (_ & _ & r & Hr & Hch). constructor; eauto.
Qed.

Lemma chain_at_frame cells cells' first rids :
  chain_at cells first rids ->
  (∀ a, a ∈ rids -> cells' !! a = cells !! a) ->
  chain_at cells' first rids.
Proof.
  revert first. induction rids as [|rid rids IH]; intros first; simpl; [done|].
  intros (-> & Hnz & r & Hr & Hch) Hsame. split; [done|]. split; [done|].
  exists r. split.
  - rewrite Hsame; [done|]. apply list_elem_of_here.
  - apply IH; [done|]. intros a Ha. apply Hsame. by apply list_elem_of_further.
Qed.

(** Appending at the tail: the record at [rid] ends the chain, and the last
    record of the chain is made to point at it. *)
Lemma chain_at_snoc cells first rids last rid rec :
  chain_at cells first (rids ++ [last]) ->
  NoDup (rids ++ [last]) -> rid ∉ rids ++ [last] -> rid ≠ PA_NULL_ATOM ->
  cells !! rid = Some rec -> xr_next rec = PA_NULL_ATOM ->
  chain_at (alter (set_next rid) last cells) first (rids ++ [last; rid]).
Proof.
  intros Hch Hnd Hnin Hnz Hrec Hnext. revert first Hch Hnd Hnin.
  induction rids as [|x rids IH]; intros first; simpl.
  - intros (-> & Hlz & r & Hr & _) _ Hnin.
    assert (rid ≠ last) by (intros ->; apply Hnin, list_elem_of_here).
    split; [done|]. split; [done|]. exists (set_next rid r). split.
    { by rewrite lookup_alter_eq, Hr. }
    simpl. split; [done|]. split; [done|]. exists rec. split; [|done].
    by rewrite lookup_alter_ne.
  - intros (-> & Hxz & r & Hr & Hch) Hnd Hnin.
    apply NoDup_cons in Hnd as [Hx Hnd].
    assert (x ≠ last).
    { intros ->. apply Hx, elem_of_app. right. apply list_elem_of_here. }
    split; [done|]. split; [done|]. exists r. split.
    { by rewrite lookup_alter_ne. }
    apply IH; [done..|]. intros Hin. apply Hnin. by apply list_elem_of_further.
Qed.

(** *** The callback, event by event *)

Section CompileFacts.

Variable strtol : string -> Z.
Variable xi_parse_atom : option string -> Z.
Hypothesis Hnames : names_distinct xi_parse_atom.

Local Abbreviation atom := (name_atom xi_parse_atom).
Local Abbreviation callback := (xi_rulebook_prep_cb strtol xi_parse_atom).
Local Abbreviation emit := (xi_parse_emit strtol xi_parse_atom).
Local Abbreviation prep_ok := (prep_consts xi_parse_atom).
Local Abbreviation tail_inv := (tail_invariant strtol xi_parse_atom).
Local Abbreviation frame := (prep_frame xi_parse_atom).

Lemma prep_ok_set prep xrbp stack :
  prep_ok prep -> prep_ok (prep_set prep xrbp stack).
Proof. by destruct prep. Qed.

Ltac names_neq :=
  let H := fresh "H" in
  pose proof Hnames as H; unfold names_distinct in H;
  rewrite !fmap_cons in H;
  repeat (apply NoDup_cons in H as [? H]);
  repeat match goal with
         | Hn : _ ∉ _ :: _ |- _ => rewrite !not_elem_of_cons in Hn; destruct_and? Hn
         end.

Ltac eqb_names :=
  repeat match goal with
         | |- context [?a =? ?b] =>
           destruct (Z.eqb_spec a b); [exfalso; congruence|]
         end.

Lemma rule_node_attribs rd :
  xi_tree_get_attrib_string (rule_node xi_parse_atom rd) (atom "tag")
  = rd_tag rd
  ∧ xi_tree_get_attrib_string (rule_node xi_parse_atom rd) (atom "action")
    = rd_action rd
  ∧ xi_tree_get_attrib_string (rule_node xi_parse_atom rd) (atom "new-state")
    = rd_new_state rd
  ∧ xi_tree_get_attrib_string (rule_node xi_parse_atom rd) (atom "use-tag")
    = rd_use_tag rd.
Proof.
  names_neq. unfold xi_tree_get_attrib_string, rule_node.
  destruct rd as [[t|] [a|] [n|] [u|]]; simpl;
    rewrite ?Z.eqb_refl; eqb_names; simpl; rewrite ?Z.eqb_refl; done.
Qed.

Lemma state_node_attribs sd :
  xi_tree_get_attrib_string (state_node xi_parse_atom sd) (atom "id")
  = Some (sd_id sd)
  ∧ xi_tree_get_attrib_string (state_node xi_parse_atom sd) (atom "action")
    = Some (sd_action sd).
Proof.
  names_neq. unfold xi_tree_get_attrib_string, state_node. simpl.
  rewrite ?Z.eqb_refl; eqb_names; simpl; rewrite ?Z.eqb_refl; done.
Qed.

Ltac prep_atoms Hok :=
  let Ha := fresh "Ha" in
  destruct Hok as [Ha ?]; simpl in Ha;
  injection Ha as ? ? ? ? ? ? ? ?; simpl in *; subst.

Lemma callback_close prep nodep : callback prep XI_TYPE_CLOSE nodep = Some prep.
Proof. done. Qed.

Lemma callback_script prep :
  prep_ok prep ->
  callback prep XI_TYPE_OPEN (script_node xi_parse_atom) = Some prep.
Proof.
  intros Hok. destruct prep. prep_atoms Hok.
  unfold xi_rulebook_prep_cb. simpl. by rewrite Z.eqb_refl.
Qed.

Lemma callback_state prep sd e st :
  prep_ok prep -> xrp_stack prep !! 0%nat = Some e ->
  state_id strtol sd <= pf_max_atoms (xrb_states (xrp_rulebook prep)) ->
  pf_cells (xrb_states (xrp_rulebook prep)) !! state_id strtol sd = Some st ->
  ∃ prep',
    callback prep XI_TYPE_OPEN (state_node xi_parse_atom sd) = Some prep'
    ∧ prep_ok prep'
    ∧ xrb_rules (xrp_rulebook prep') = xrb_rules (xrp_rulebook prep)
    ∧ pf_max_atoms (xrb_states (xrp_rulebook prep'))
      = pf_max_atoms (xrb_states (xrp_rulebook prep))
    ∧ pf_cells (xrb_states (xrp_rulebook prep'))
      = <[state_id strtol sd :=
            mk_rstate 0 (xi_rule_action_value (sd_action sd)) 0]>
          (pf_cells (xrb_states (xrp_rulebook prep)))
    ∧ ∃ e', xrp_stack prep' !! 0%nat = Some e'
            ∧ xrps_nextp e' = LocFirstRule (state_id strtol sd).
Proof.
  intros Hok Hstack Hmax Hst.
  pose proof (state_node_attribs sd) as [Hid Hact].
  names_neq.
  destruct prep as [[rules [smax sfree scells] bitmaps max_state]
                      ? ? ? ? ? ? ? ? depth stack].
  prep_atoms Hok.
  unfold xi_rulebook_prep_cb, prep_open_state. simpl.
  eqb_names. rewrite Z.eqb_refl. simpl. rewrite Hid, Hact. simpl.
  fold (state_id strtol sd).
  rewrite (proj2 (Z.ltb_ge smax (state_id strtol sd)) Hmax).
  unfold pa_fixed_element. simpl. rewrite Hst. simpl.
  change (Z.to_nat 0) with 0%nat. rewrite Hstack. simpl.
  assert (Hcells : alter (λ _, mk_rstate 0 (xi_rule_action_value (sd_action sd)) 0)
                     (state_id strtol sd) scells
                   = <[state_id strtol sd :=
                         mk_rstate 0 (xi_rule_action_value (sd_action sd)) 0]>
                       scells).
  { apply map_eq. intros i. destruct (decide (i = state_id strtol sd)) as [->|].
    - by rewrite lookup_alter_eq, lookup_insert_eq, Hst.
    - by rewrite lookup_alter_ne, lookup_insert_ne. }
  destruct stack as [|e0 stack]; [done|]. simpl in Hstack.
  destruct (max_state <? state_id strtol sd); eexists;
    (split; [reflexivity|]); simpl; rewrite Hcells;
    repeat split; eauto.
Qed.

Lemma alter_present {A} (f : A -> A) (m : gmap Z A) i x :
  m !! i = Some x -> alter f i m = <[i := f x]> m.
Proof.
  intros Hx. apply map_eq. intros j. destruct (decide (j = i)) as [->|].
  - by rewrite lookup_alter_eq, lookup_insert_eq, Hx.
  - by rewrite lookup_alter_ne, lookup_insert_ne.
Qed.

Lemma xi_rule_bitmap_add_spec xrbp rid tag r :
  rid ≠ PA_NULL_ATOM -> pf_cells (xrb_rules xrbp) !! rid = Some r ->
  ∃ bitmap pbp,
    xi_rule_bitmap_add xi_parse_atom xrbp rid tag
    = mk_rulebook
        (mk_fixed (pf_max_atoms (xrb_rules xrbp)) (pf_free (xrb_rules xrbp))
           (<[rid := mk_rule (xr_flags r) (xr_action r) (xr_use_tag r)
                       (xr_new_state r) bitmap (xr_next r)]>
              (pf_cells (xrb_rules xrbp))))
        (xrb_states xrbp) pbp (xrsi_max_state xrbp).
Proof.
  intros Hnz Hr.
  destruct xrbp as [[rmax rfree rcells] states bitmaps max_state].
  simpl in *.
  assert (Hsame : <[rid := mk_rule (xr_flags r) (xr_action r) (xr_use_tag r)
                             (xr_new_state r) (xr_bitmap r) (xr_next r)]> rcells
                  = rcells).
  { apply insert_id. by destruct r. }
  unfold xi_rule_bitmap_add.
  destruct (xi_parse_atom tag =? PA_NULL_ATOM).
  { exists (xr_bitmap r), bitmaps. by rewrite Hsame. }
  unfold pa_fixed_atom_addr. simpl.
  destruct (Z.eqb_spec rid PA_NULL_ATOM); [done|]. rewrite Hr.
  destruct (xr_bitmap r =? PA_NULL_ATOM) eqn:Hb.
  - destruct (pa_bitmap_alloc bitmaps) as [bitmap pbp].
    unfold rule_store, set_rules, set_bitmaps, pa_fixed_store. simpl.
    rewrite (alter_present _ _ _ _ Hr).
    destruct (bitmap =? PA_NULL_ATOM); eauto.
  - simpl. rewrite Hb. eexists (xr_bitmap r), _. rewrite Hsame. reflexivity.
Qed.

Lemma callback_rule prep rd e rid free old :
  prep_ok prep -> xrp_stack prep !! 0%nat = Some e ->
  xrps_nextp e ≠ LocNull ->
  pf_free (xrb_rules (xrp_rulebook prep)) = rid :: free ->
  rid ≠ PA_NULL_ATOM ->
  pf_cells (xrb_rules (xrp_rulebook prep)) !! rid = Some old ->
  ∃ prep' rec,
    callback prep XI_TYPE_OPEN (rule_node xi_parse_atom rd) = Some prep'
    ∧ prep_ok prep'
    ∧ pf_free (xrb_rules (xrp_rulebook prep')) = free
    ∧ pf_cells (xrb_rules (xrp_rulebook prep'))
      = link_rule (xrps_nextp e) rid
          (<[rid := rec]> (pf_cells (xrb_rules (xrp_rulebook prep))))
    ∧ xr_next rec = PA_NULL_ATOM
    ∧ xr_action rec = from_option xi_rule_action_value 0 (rd_action rd)
    ∧ xr_use_tag rec
      = from_option (λ u, xi_parse_atom (Some u)) 0 (rd_use_tag rd)
    ∧ xr_new_state rec
      = from_option (λ n, u16 (strtol n)) 0 (rd_new_state rd)
    ∧ pf_max_atoms (xrb_states (xrp_rulebook prep'))
      = pf_max_atoms (xrb_states (xrp_rulebook prep))
    ∧ pf_cells (xrb_states (xrp_rulebook prep'))
      = link_state (xrps_nextp e) rid
          (pf_cells (xrb_states (xrp_rulebook prep)))
    ∧ ∃ e', xrp_stack prep' !! 0%nat = Some e' ∧ xrps_nextp e' = LocNext rid.
Proof.
  intros Hok Hstack Hloc Hfree Hnz Hold.
  pose proof (rule_node_attribs rd) as (Htag & Hact & Hnew & Huse).
  destruct prep as [[[rmax rfree rcells] [smax sfree scells] bitmaps max_state]
                      ? ? ? ? ? ? ? ? depth stack].
  prep_atoms Hok.
  assert (Hcb : callback
            (mk_prep
               (mk_rulebook (mk_fixed rmax (rid :: free) rcells)
                  (mk_fixed smax sfree scells) bitmaps max_state)
               (atom "action") (atom "id") (atom "new-state") (atom "rule")
               (atom "script") (atom "state") (atom "tag") (atom "use-tag")
               0 stack)
            XI_TYPE_OPEN (rule_node xi_parse_atom rd)
          = prep_open_rule strtol xi_parse_atom
              (mk_prep
                 (mk_rulebook (mk_fixed rmax (rid :: free) rcells)
                    (mk_fixed smax sfree scells) bitmaps max_state)
                 (atom "action") (atom "id") (atom "new-state") (atom "rule")
                 (atom "script") (atom "state") (atom "tag") (atom "use-tag")
                 0 stack)
              (rule_node xi_parse_atom rd)).
  { names_neq. unfold xi_rulebook_prep_cb. simpl. eqb_names.
    by rewrite Z.eqb_refl. }
  rewrite Hcb. clear Hcb.
  unfold prep_open_rule. simpl xrp_atom_tag. simpl xrp_atom_action.
  simpl xrp_atom_new_state. simpl xrp_atom_use_tag.
  rewrite Htag, Hact, Hnew, Huse. simpl.
  unfold pa_fixed_atom_addr. simpl.
  destruct (Z.eqb_spec rid PA_NULL_ATOM); [done|]. rewrite Hold.
  set (x := rule_store (set_rules _ _) rid _).
  assert (Hx : x = mk_rulebook
                     (mk_fixed rmax free (<[rid := rule_zero]> rcells))
                     (mk_fixed smax sfree scells) bitmaps max_state).
  { subst x. unfold rule_store, set_rules, pa_fixed_store. simpl.
    by rewrite (alter_present _ _ _ _ Hold). }
  rewrite Hx. clear x Hx.
  edestruct (xi_rule_bitmap_add_spec
               (mk_rulebook (mk_fixed rmax free (<[rid := rule_zero]> rcells))
                  (mk_fixed smax sfree scells) bitmaps max_state)
               rid (rd_tag rd) rule_zero) as (bitmap & pbp & Hadd);
    [done|simpl; apply lookup_insert_eq|].
  rewrite Hadd. clear Hadd. simpl. rewrite insert_insert_eq.
  unfold rule_store, set_rules, pa_fixed_store. simpl.
  rewrite (alter_present _ _ _ _ (lookup_insert_eq _ _ _)), insert_insert_eq.
  simpl. change (Z.to_nat 0) with 0%nat. rewrite Hstack. simpl.
  destruct stack as [|e0 stack]; [done|]. simpl in Hstack.
  injection Hstack as ->.
  destruct (xrps_nextp e) as [|sid|r] eqn:He; [done| |]; simpl;
    eexists _, _; (split; [reflexivity|]); simpl; repeat split; eauto.
Qed.

(** *** The moving tail pointer *)

Lemma link_rule_other sid rids rid rec cells a :
  a ∉ rids ++ [rid] ->
  link_rule (last_loc sid rids) rid (<[rid := rec]> cells) !! a = cells !! a.
Proof.
  intros Ha. apply not_elem_of_app in Ha as [Ha Har].
  apply not_elem_of_cons in Har as [Har _].
  unfold link_rule, last_loc. destruct (last rids) as [r|] eqn:Hl.
  - apply last_Some in Hl as [rids' ->].
    rewrite lookup_alter_ne, lookup_insert_ne; [done..|].
    intros <-. apply Ha, elem_of_app. right. apply list_elem_of_here.
  - by rewrite lookup_insert_ne.
Qed.

Lemma link_rule_is_Some loc rid rec cells a :
  is_Some (cells !! rid) ->
  is_Some (link_rule loc rid (<[rid := rec]> cells) !! a)
  ↔ is_Some (cells !! a).
Proof.
  intros Hrid.
  assert (Hins : is_Some (<[rid := rec]> cells !! a) ↔ is_Some (cells !! a)).
  { destruct (decide (a = rid)) as [->|].
    - rewrite lookup_insert_eq. split; eauto.
    - by rewrite lookup_insert_ne. }
  destruct loc as [|sid|r]; simpl; try done.
  rewrite <- Hins. destruct (decide (a = r)) as [->|].
  - rewrite lookup_alter_eq. apply fmap_is_Some.
  - by rewrite lookup_alter_ne.
Qed.

Lemma link_state_other sid rids rid scells s :
  s ≠ sid -> link_state (last_loc sid rids) rid scells !! s = scells !! s.
Proof.
  intros Hs. unfold link_state, last_loc. destruct (last rids); [done|].
  by rewrite lookup_alter_ne.
Qed.

Lemma link_state_is_Some loc rid scells s :
  is_Some (link_state loc rid scells !! s) ↔ is_Some (scells !! s).
Proof.
  destruct loc as [|sid|r]; simpl; try done.
  destruct (decide (s = sid)) as [->|].
  - rewrite lookup_alter_eq. apply fmap_is_Some.
  - by rewrite lookup_alter_ne.
Qed.

Lemma rule_compiled_frame cells cells' rid rd :
  rule_compiled strtol xi_parse_atom cells rid rd ->
  (cells' !! rid = cells !! rid
   ∨ ∃ a, cells' !! rid = set_next a <$> cells !! rid) ->
  rule_compiled strtol xi_parse_atom cells' rid rd.
Proof.
  intros (r & Hr & Hf) [Hsame|[a Ha]].
  - exists r. by rewrite Hsame.
  - exists (set_next a r). rewrite Ha, Hr. done.
Qed.

Lemma Forall2_impl_elem {A B} (P Q : A -> B -> Prop) l k :
  Forall2 P l k -> (∀ x y, x ∈ l -> P x y -> Q x y) -> Forall2 Q l k.
Proof.
  induction 1 as [|x y l k Hxy _ IH]; intros Himp; constructor.
  - apply Himp; [apply list_elem_of_here|done].
  - apply IH. intros x' y' Hin. apply Himp. by apply list_elem_of_further.
Qed.

Lemma link_rule_lookup loc rid rec cells a :
  a ≠ rid ->
  link_rule loc rid (<[rid := rec]> cells) !! a = cells !! a
  ∨ ∃ x, link_rule loc rid (<[rid := rec]> cells) !! a
         = set_next x <$> cells !! a.
Proof.
  intros Ha. destruct loc as [|sid|r]; simpl;
    try (left; by rewrite lookup_insert_ne).
  destruct (decide (a = r)) as [->|].
  - right. exists rid. by rewrite lookup_alter_eq, lookup_insert_ne.
  - left. by rewrite lookup_alter_ne, lookup_insert_ne.
Qed.

(** One [<rule>] more: the invariant after [*nextp = rid]. *)
Lemma tail_inv_step cells scells loc sid rids rds rid rec rd :
  tail_inv cells scells loc sid rids rds ->
  NoDup (rids ++ [rid]) -> rid ≠ PA_NULL_ATOM ->
  xr_next rec = PA_NULL_ATOM ->
  xr_action rec = from_option xi_rule_action_value 0 (rd_action rd) ->
  xr_use_tag rec
  = from_option (λ u, xi_parse_atom (Some u)) 0 (rd_use_tag rd) ->
  xr_new_state rec
  = from_option (λ n, u16 (strtol n)) 0 (rd_new_state rd) ->
  tail_inv (link_rule loc rid (<[rid := rec]> cells))
           (link_state loc rid scells) (LocNext rid) sid
           (rids ++ [rid]) (rds ++ [rd]).
Proof.
  intros (-> & Hcomp & st & Hst & Hch) Hnd Hnz Hnext Hact Huse Hnew.
  pose proof Hnd as Hnd'.
  apply NoDup_app in Hnd' as (Hnd0 & Hfresh & _).
  assert (Hrid : rid ∉ rids).
  { intros Hin. apply (Hfresh _ Hin), list_elem_of_here. }
  assert (Hnew_cell : link_rule (last_loc sid rids) rid (<[rid := rec]> cells)
                        !! rid = Some rec).
  { unfold link_rule, last_loc. destruct (last rids) as [r|] eqn:Hl.
    - rewrite lookup_alter_ne, lookup_insert_eq; [done|].
      intros ->. apply Hrid. apply last_Some in Hl as [rids' ->].
      apply elem_of_app. right. apply list_elem_of_here.
    - by rewrite lookup_insert_eq. }
  split; [|split].
  - unfold last_loc. by rewrite last_snoc.
  - apply Forall2_app.
    + eapply Forall2_impl_elem; [exact Hcomp|].
      intros a rd' Ha Hc. eapply rule_compiled_frame; [exact Hc|].
      apply link_rule_lookup. by intros ->.
    + constructor; [|constructor]. exists rec. done.
  - unfold last_loc in *. destruct (last rids) as [l|] eqn:Hl.
    + apply last_Some in Hl as [rids' ->]. simpl. exists st. split; [done|].
      rewrite <- app_assoc. simpl.
      apply (chain_at_snoc _ _ _ _ _ rec); try done.
      * eapply chain_at_frame; [exact Hch|]. intros a Ha.
        rewrite lookup_insert_ne; [done|]. by intros ->.
      * by rewrite lookup_insert_eq.
    + apply last_None in Hl as ->. simpl in *.
      exists (set_first rid st). split.
      { by rewrite lookup_alter_eq, Hst. }
      simpl. split; [done|]. split; [done|]. exists rec.
      by rewrite lookup_insert_eq.
Qed.

(** *** Frames *)

Lemma frame_refl rids sids prep : prep_ok prep -> frame rids sids prep prep.
Proof.
  intros Hok. unfold prep_frame. split; [done|]. repeat split; auto.
Qed.

Lemma frame_trans rids1 sids1 rids2 sids2 rids sids prep prep1 prep2 :
  frame rids1 sids1 prep prep1 -> frame rids2 sids2 prep1 prep2 ->
  (∀ a, a ∈ rids1 ∨ a ∈ rids2 -> a ∈ rids) ->
  (∀ s, s ∈ sids1 ∨ s ∈ sids2 -> s ∈ sids) ->
  frame rids sids prep prep2.
Proof.
  intros (_ & Hm1 & Hc1 & Hd1 & Hs1 & He1) (Hok & Hm2 & Hc2 & Hd2 & Hs2 & He2)
    Hr Hs.
  split; [done|]. split; [congruence|]. split; [|split; [|split]].
  - intros a Ha. rewrite Hc2, Hc1; [done|..]; intros Hin; apply Ha, Hr; auto.
  - intros a. by rewrite Hd2, Hd1.
  - intros x Hx. rewrite Hs2, Hs1; [done|..]; intros Hin; apply Hx, Hs; auto.
  - intros x. by rewrite He2, He1.
Qed.

(** *** The rules of one state *)

Lemma emit_rules rds :
  ∀ prep e sid done rds0 free,
    prep_ok prep -> xrp_stack prep !! 0%nat = Some e ->
    tail_inv (pf_cells (xrb_rules (xrp_rulebook prep)))
             (pf_cells (xrb_states (xrp_rulebook prep)))
             (xrps_nextp e) sid done rds0 ->
    pf_free (xrb_rules (xrp_rulebook prep)) = free ->
    (length rds ≤ length free)%nat ->
    NoDup (done ++ free) ->
    Forall (λ a, a ≠ PA_NULL_ATOM
                 ∧ is_Some (pf_cells (xrb_rules (xrp_rulebook prep)) !! a))
           free ->
    ∃ prep' e',
      emit (flat_map (rule_events xi_parse_atom) rds) prep = Some prep'
      ∧ frame (done ++ take (length rds) free) [sid] prep prep'
      ∧ xrp_stack prep' !! 0%nat = Some e'
      ∧ tail_inv (pf_cells (xrb_rules (xrp_rulebook prep')))
                 (pf_cells (xrb_states (xrp_rulebook prep')))
                 (xrps_nextp e') sid (done ++ take (length rds) free)
                 (rds0 ++ rds)
      ∧ pf_free (xrb_rules (xrp_rulebook prep')) = drop (length rds) free.
Proof.
  induction rds as [|rd rds IH];
    intros prep e sid done rds0 free Hok Hstack Hinv Hfree Hlen Hnd Hall.
  - exists prep, e. simpl. rewrite !app_nil_r.
    split; [done|]. split; [by apply frame_refl|].
    split; [done|]. split; [done|]. done.
  - destruct free as [|rid free']; [simpl in Hlen; lia|].
    apply Forall_cons in Hall as [[Hnz [old Hold]] Hall].
    destruct (callback_rule prep rd e rid free' old)
      as (prep1 & rec & Hcb & Hok1 & Hfree1 & Hcells1 & Hnext & Hact & Huse
          & Hnew & Hmax1 & Hscells1 & e1 & Hstack1 & Hloc1); try done.
    { destruct Hinv as [-> _]. unfold last_loc. by destruct (last done). }
    assert (Hnd1 : NoDup ((done ++ [rid]) ++ free')).
    { by rewrite <- app_assoc. }
    assert (Hndd : NoDup (done ++ [rid])).
    { by apply NoDup_app in Hnd1 as [? _]. }
    pose proof (tail_inv_step _ _ _ _ _ _ rid rec rd Hinv Hndd Hnz Hnext Hact
                  Huse Hnew) as Hinv1.
    rewrite <- Hcells1, <- Hscells1, <- Hloc1 in Hinv1.
    destruct (IH prep1 e1 sid (done ++ [rid]) (rds0 ++ [rd]) free')
      as (prep' & e' & Hemit & Hframe & Hstack' & Hinv' & Hfree');
      try done.
    { simpl in Hlen. lia. }
    { eapply Forall_impl; [exact Hall|]. simpl. intros a [Ha Hs].
      split; [done|]. rewrite Hcells1. by apply link_rule_is_Some. }
    exists prep', e'.
    replace (done ++ take (length (rd :: rds)) (rid :: free'))
      with ((done ++ [rid]) ++ take (length rds) free')
      by (by rewrite <- app_assoc).
    replace (rds0 ++ rd :: rds) with ((rds0 ++ [rd]) ++ rds)
      by (by rewrite <- app_assoc).
    split; [|split; [|done]].
    + simpl. unfold rule_events. simpl. rewrite Hcb. simpl. exact Hemit.
    + eapply (frame_trans (done ++ [rid]) [sid]); [|exact Hframe|..].
      * destruct Hinv as [Hloc _].
        split; [done|]. split; [done|]. split; [|split; [|split]].
        -- intros a Ha. rewrite Hcells1, Hloc. by apply link_rule_other.
        -- intros a. rewrite Hcells1. by apply link_rule_is_Some.
        -- intros x Hx. rewrite Hscells1, Hloc. apply link_state_other.
           intros ->. apply Hx, list_elem_of_here.
        -- intros x. rewrite Hscells1. apply link_state_is_Some.
      * intros a [Ha|Ha]; [|done]. apply elem_of_app. by left.
      * by intros x [Hx|Hx].
Qed.

(** *** One state, then the script *)

Lemma emit_app events1 events2 prep :
  emit (events1 ++ events2) prep = emit events1 prep ≫= emit events2.
Proof.
  revert prep. induction events1 as [|[type nodep] events1 IH]; intros prep;
    simpl; [done|].
  destruct (callback prep type nodep) as [prep1|]; simpl; [apply IH|done].
Qed.

Lemma emit_state sd prep e free :
  prep_ok prep -> xrp_stack prep !! 0%nat = Some e ->
  pf_free (xrb_rules (xrp_rulebook prep)) = free ->
  (length (sd_rules sd) ≤ length free)%nat ->
  NoDup free ->
  Forall (λ a, a ≠ PA_NULL_ATOM
               ∧ is_Some (pf_cells (xrb_rules (xrp_rulebook prep)) !! a))
         free ->
  state_id strtol sd <= pf_max_atoms (xrb_states (xrp_rulebook prep)) ->
  is_Some (pf_cells (xrb_states (xrp_rulebook prep)) !! state_id strtol sd) ->
  ∃ prep' e',
    emit (state_events xi_parse_atom sd) prep = Some prep'
    ∧ frame (take (length (sd_rules sd)) free) [state_id strtol sd] prep prep'
    ∧ xrp_stack prep' !! 0%nat = Some e'
    ∧ tail_inv (pf_cells (xrb_rules (xrp_rulebook prep')))
               (pf_cells (xrb_states (xrp_rulebook prep')))
               (xrps_nextp e') (state_id strtol sd)
               (take (length (sd_rules sd)) free) (sd_rules sd)
    ∧ pf_free (xrb_rules (xrp_rulebook prep'))
      = drop (length (sd_rules sd)) free.
Proof.
  intros Hok Hstack Hfree Hlen Hnd Hall Hmax [st Hst].
  destruct (callback_state prep sd e st)
    as (prep1 & Hcb & Hok1 & Hrules1 & Hmax1 & Hscells1 & e1 & Hstack1 & Hloc1);
    try done.
  destruct (emit_rules (sd_rules sd) prep1 e1 (state_id strtol sd) [] [] free)
    as (prep' & e' & Hemit & Hframe & Hstack' & Hinv' & Hfree'); try done.
  { rewrite Hloc1. split; [done|]. split; [constructor|].
    eexists. rewrite Hscells1, lookup_insert_eq. split; [done|]. done. }
  { by rewrite Hrules1. }
  { by rewrite Hrules1. }
  exists prep', e'. simpl in *.
  split; [|split; [|done]].
  - unfold state_events. simpl. rewrite Hcb. simpl.
    rewrite emit_app, Hemit. done.
  - eapply (frame_trans [] [state_id strtol sd]); [|exact Hframe|..].
    + split; [done|]. split; [done|]. rewrite Hrules1, Hscells1.
      split; [done|]. split; [done|]. split.
      * intros x Hx. rewrite lookup_insert_ne; [done|].
        intros <-. apply Hx, list_elem_of_here.
      * intros x. destruct (decide (x = state_id strtol sd)) as [->|].
        -- rewrite lookup_insert_eq, Hst. split; eauto.
        -- by rewrite lookup_insert_ne.
    + intros a [Ha|Ha]; [by apply elem_of_nil in Ha|done].
    + by intros x [Hx|Hx].
Qed.

Lemma rules_before_cons sd script i :
  rules_before (sd :: script) (S i)
  = (length (sd_rules sd) + rules_before script i)%nat.
Proof. unfold rules_before. simpl. by rewrite length_app. Qed.

Lemma emit_states script :
  ∀ prep e free,
    prep_ok prep -> xrp_stack prep !! 0%nat = Some e ->
    pf_free (xrb_rules (xrp_rulebook prep)) = free ->
    (length (flat_map sd_rules script) ≤ length free)%nat ->
    NoDup free ->
    Forall (λ a, a ≠ PA_NULL_ATOM
                 ∧ is_Some (pf_cells (xrb_rules (xrp_rulebook prep)) !! a))
           free ->
    NoDup (state_id strtol <$> script) ->
    Forall (λ sd,
              state_id strtol sd
              <= pf_max_atoms (xrb_states (xrp_rulebook prep))
              ∧ is_Some (pf_cells (xrb_states (xrp_rulebook prep))
                           !! state_id strtol sd))
           script ->
    ∃ prep',
      emit (flat_map (state_events xi_parse_atom) script) prep = Some prep'
      ∧ frame (take (length (flat_map sd_rules script)) free)
              (state_id strtol <$> script) prep prep'
      ∧ is_Some (xrp_stack prep' !! 0%nat)
      ∧ ∀ i sd, script !! i = Some sd ->
          let rids := take (length (sd_rules sd))
                           (drop (rules_before script i) free) in
          ∃ st, pf_cells (xrb_states (xrp_rulebook prep'))
                  !! state_id strtol sd = Some st
                ∧ chain_at (pf_cells (xrb_rules (xrp_rulebook prep')))
                           (xrbs_first_rule st) rids
                ∧ Forall2 (rule_compiled strtol xi_parse_atom
                             (pf_cells (xrb_rules (xrp_rulebook prep'))))
                          rids (sd_rules sd).
Proof.
  induction script as [|sd script IH];
    intros prep e free Hok Hstack Hfree Hlen Hnd Hall Hsids Hstates.
  - exists prep. simpl. split; [done|]. split; [by apply frame_refl|].
    split; [eauto|]. intros i sd Hi. by rewrite lookup_nil in Hi.
  - simpl in Hlen. rewrite length_app in Hlen.
    rewrite fmap_cons in Hsids. apply NoDup_cons in Hsids as [Hsid Hsids].
    apply Forall_cons in Hstates as [[Hmax Hst] Hstates].
    set (k := length (sd_rules sd)) in *.
    destruct (emit_state sd prep e free)
      as (prep1 & e1 & Hemit1 & Hframe1 & Hstack1 & Hinv1 & Hfree1);
      try done; [lia|].
    pose proof Hframe1 as (Hok1 & Hmax1 & Hc1 & Hd1 & Hs1 & He1).
    destruct (IH prep1 e1 (drop k free))
      as (prep' & Hemit & Hframe & Hstack' & Hchains); try done.
    { rewrite length_drop. lia. }
    { rewrite <- (take_drop k free) in Hnd. by apply NoDup_app in Hnd as (_&_&?). }
    { apply Forall_drop. eapply Forall_impl; [exact Hall|]. simpl.
      intros a [Ha Hs]. split; [done|]. by apply Hd1. }
    { eapply Forall_impl; [exact Hstates|]. simpl.
      intros sd' [Hm Hs]. rewrite Hmax1. split; [done|]. by apply He1. }
    pose proof Hframe as (Hok' & Hmax' & Hc' & Hd' & Hs' & He').
    exists prep'. split; [|split; [|split; [done|]]].
    + cbn [flat_map]. rewrite emit_app, Hemit1. done.
    + cbn [flat_map fmap list_fmap]. rewrite length_app. fold k.
      eapply frame_trans; [exact Hframe1|exact Hframe|..].
      * rewrite <- take_take_drop. intros a Ha. by apply elem_of_app.
      * intros x [Hx|Hx]; [|by apply list_elem_of_further].
        apply list_elem_of_singleton in Hx as ->. apply list_elem_of_here.
    + intros [|i] sd' Hi; simpl in Hi.
      * injection Hi as <-. unfold rules_before. simpl. fold k.
        destruct Hinv1 as (_ & Hcomp & st & Hst1 & Hch).
        assert (Hkeep : ∀ a, a ∈ take k free ->
                  pf_cells (xrb_rules (xrp_rulebook prep')) !! a
                  = pf_cells (xrb_rules (xrp_rulebook prep1)) !! a).
        { intros a Ha. apply Hc'. intros Ha'.
          rewrite <- (take_drop k free) in Hnd.
          apply NoDup_app in Hnd as (_ & Hdisj & _).
          apply (Hdisj a Ha). apply elem_of_take in Ha' as (j & Hj & _).
          by eapply list_elem_of_lookup_2. }
        exists st. split; [|split].
        -- rewrite Hs'; [done|]. simpl. done.
        -- by apply (chain_at_frame _ _ _ _ Hch).
        -- eapply Forall2_impl_elem; [exact Hcomp|].
           intros a rd Ha Hrc. eapply rule_compiled_frame; [exact Hrc|].
           left. by apply Hkeep.
      * rewrite rules_before_cons. fold k. rewrite <- drop_drop.
        by apply Hchains.
Qed.

(** *** The compiled rulebook *)

Lemma NoDup_length_size {A} (m : gmap Z A) (l : list Z) :
  NoDup l -> Forall (λ a, is_Some (m !! a)) l -> (length l ≤ size m)%nat.
Proof.
  intros Hnd Hall. rewrite <- (size_list_to_set (C := gset Z) l Hnd).
  rewrite <- (size_dom (D := gset Z) m). apply subseteq_size.
  intros a Ha. apply elem_of_list_to_set in Ha. apply elem_of_dom.
  rewrite Forall_forall in Hall. by apply Hall.
Qed.





End CompileFacts.

(** *** The example, and the limits of the claim *)



(** So it does when two [<state>] elements carry the same id: the second
    one clears the record, and the rule of the first is in no chain. *)
Lemma rules_in_order_duplicate_state :
  ¬ rules_in_order ex_strtol ex_atom (ex_rulebook [1; 2; 3])
      [mk_state_decl "1" "discard"
         [mk_rule_decl (Some "doc") (Some "save") (Some "2") None];
       mk_state_decl "1" "save" []].
Proof.
  intros (xrbp' & Hprep & Hall).
  destruct (Hall (mk_state_decl "1" "discard"
                    [mk_rule_decl (Some "doc") (Some "save") (Some "2") None]))
    as (rids & Hrids & _ & Hcomp); [apply list_elem_of_here|].
  match type of Hprep with
  | ?c = _ => assert (Hnone : (xrbp ← c; state_rules xrbp 1) = Some [])
                by (by vm_compute)
  end.
  rewrite Hprep in Hnone. simpl in Hnone.
  change (state_id ex_strtol _) with 1 in Hrids.
  rewrite Hnone in Hrids. injection Hrids as <-. inversion Hcomp.
Qed.

(** C1, at the failing input: in state 1 of the compiled rulebook of scenario
    6 the lookup of section 4.7 selects rule 1 (save, new state 2) for the tag
    "doc" and the default action (discard) for the tag "p"; [xi_rulebook_find]
    returns the parse's default rule for both, whatever the rulebook
    holds. *)
Theorem xi_rulebook_find_default parsep pref name attribs :
  xi_rulebook_find parsep (ex_atom (Some "doc"%string)) pref name attribs
  = xp_default_rule parsep
  ∧ xi_rulebook_find parsep (ex_atom (Some "p"%string)) pref name attribs
    = xp_default_rule parsep
  ∧ (xrbp ← ex_compiled;
     rulebook_select xrbp 1 (ex_atom (Some "doc"%string)))
    = Some (SelRule 1 (mk_rule 0 XIA_SAVE 0 2 1 0))
  ∧ (xrbp ← ex_compiled;
     rulebook_select xrbp 1 (ex_atom (Some "p"%string)))
    = Some (SelDefault XIA_DISCARD)
  ∧ ¬ (xr_action
         (xi_rulebook_find parsep (ex_atom (Some "doc"%string)) pref name
            attribs) = XIA_SAVE
       ∧ xr_action
           (xi_rulebook_find parsep (ex_atom (Some "p"%string)) pref name
              attribs) = XIA_DISCARD).
Proof.
  split; [done|]. split; [done|]. split; [by vm_compute|].
  split; [by vm_compute|]. unfold xi_rulebook_find. intros [H1 H2].
  rewrite H1 in H2. done.
Qed.

(** * Further properties of the code *)

Import Atoms.

(** ** pacommon.h: rounding and addresses *)

Lemma land_u32_r a b : 0 <= a < 4294967296 -> Z.land a (u32 b) = Z.land a b.
Proof.
  intros Ha. unfold u32. change 4294967296 with (2 ^ 32) in *.
  apply Z.bits_inj'. intros n Hn. rewrite !Z.land_spec.
  destruct (Z.lt_ge_cases n 32) as [Hlt|Hge].
  - by rewrite Z.mod_pow2_bits_low by lia.
  - rewrite <- (Z.mod_small a (2 ^ 32)) by lia.
    by rewrite Z.mod_pow2_bits_high by lia.
Qed.

Lemma land_lnot_mask a s :
  0 <= s -> Z.land a (Z.lnot (2 ^ s - 1)) = 2 ^ s * (a / 2 ^ s).
Proof.
  intros Hs. rewrite <- Z.ldiff_land.
  replace (2 ^ s - 1) with (Z.ones s) by (rewrite Z.ones_equiv; lia).
  rewrite Z.ldiff_ones_r, Z.shiftl_mul_pow2, Z.shiftr_div_pow2 by lia. lia.
Qed.

Lemma int_shl1_spec shift :
  0 <= shift <= 30 -> int_shl1 shift = Some (2 ^ shift).
Proof.
  intros Hs. unfold int_shl1.
  rewrite (proj2 (Z.leb_le 0 shift)), (proj2 (Z.leb_le shift 30)) by lia.
  simpl. by rewrite Z.shiftl_1_l.
Qed.

Lemma pow2_le_30 shift : 0 <= shift <= 30 -> 0 < 2 ^ shift <= 1073741824.
Proof.
  intros Hs. split; [apply Z.pow_pos_nonneg; lia|].
  change 1073741824 with (2 ^ 30). apply Z.pow_le_mono_r; lia.
Qed.

Lemma pa_roundup_shift32_eq val shift :
  0 <= shift <= 30 ->
  pa_roundup_shift32 val shift
  = Some (2 ^ shift * (u32 (val + 2 ^ shift - 1) / 2 ^ shift)).
Proof.
  intros Hs. unfold pa_roundup_shift32. rewrite int_shl1_spec by done. simpl.
  rewrite land_u32_r by (apply Z.mod_pos_bound; lia).
  by rewrite land_lnot_mask by lia.
Qed.

Lemma pa_items_shift32_eq val shift :
  0 <= shift <= 30 ->
  pa_items_shift32 val shift = Some (u32 (val + 2 ^ shift - 1) / 2 ^ shift).
Proof.
  intros Hs. unfold pa_items_shift32. rewrite int_shl1_spec by done. simpl.
  by rewrite Z.shiftr_div_pow2 by lia.
Qed.

(** X1: [pa_roundup_shift32] gives the least multiple of [2 ^ shift] that is
    at least [val], as long as the sum does not leave 32 bits. *)
Theorem pa_roundup_shift32_least val shift :
  0 <= shift <= 30 -> 0 <= val -> val + 2 ^ shift - 1 < 4294967296 ->
  ∃ r, pa_roundup_shift32 val shift = Some r
       ∧ r mod 2 ^ shift = 0 ∧ val <= r < val + 2 ^ shift
       ∧ ∀ m, m mod 2 ^ shift = 0 -> val <= m -> r <= m.
Proof.
  intros Hs Hv Hsum. pose proof (pow2_le_30 shift Hs) as Hp.
  rewrite pa_roundup_shift32_eq by done. eexists. split; [done|].
  rewrite u32_small by lia.
  set (k := 2 ^ shift) in *. set (a := val + k - 1).
  assert (Hdm : a = k * (a / k) + a mod k) by (apply Z.div_mod; lia).
  assert (Hb : 0 <= a mod k < k) by (apply Z.mod_pos_bound; lia).
  split; [|split].
  - rewrite Z.mul_comm. apply Z.mod_mul. lia.
  - subst a. lia.
  - intros m Hm Hle. apply Z.mod_divide in Hm as [q ->]; [|lia].
    assert (a / k < q + 1); [|nia].
    apply Z.div_lt_upper_bound; [lia|]. subst a. nia.
Qed.

Lemma pa_roundup_shift32_least_witness :
  ∃ r, pa_roundup_shift32 13 3 = Some r
       ∧ r mod 2 ^ 3 = 0 ∧ 13 <= r < 13 + 2 ^ 3
       ∧ ∀ m, m mod 2 ^ 3 = 0 -> 13 <= m -> r <= m.
Proof. apply (pa_roundup_shift32_least 13 3); [lia|lia|reflexivity]. Defined.

(** X2: above the last multiple of [2 ^ shift] that 32 bits hold, the sum
    wraps and [pa_roundup_shift32] gives 0, which is below [val]. *)
Theorem pa_roundup_shift32_wraps val shift :
  0 <= shift <= 30 -> 4294967296 - 2 ^ shift < val < 4294967296 ->
  pa_roundup_shift32 val shift = Some 0.
Proof.
  intros Hs Hv. pose proof (pow2_le_30 shift Hs) as Hp.
  rewrite pa_roundup_shift32_eq by done. f_equal.
  assert (Hu : u32 (val + 2 ^ shift - 1) = val + 2 ^ shift - 1 - 4294967296).
  { unfold u32. symmetry. apply (Z.mod_unique _ _ 1); lia. }
  rewrite Hu, Z.div_small by lia. lia.
Qed.

Lemma pa_roundup_shift32_wraps_witness :
  pa_roundup_shift32 4294967295 4 = Some 0.
Proof. apply pa_roundup_shift32_wraps; [lia|split; reflexivity]. Defined.

(** X3: for a power of two, [pa_roundup32] is [pa_roundup_shift32] on its
    exponent. *)
Theorem pa_roundup32_power_of_two val shift :
  0 <= shift <= 30 -> 0 <= val < 4294967296 ->
  pa_roundup_shift32 val shift = Some (pa_roundup32 val (2 ^ shift)).
Proof.
  intros Hs Hv. pose proof (pow2_le_30 shift Hs) as Hp.
  unfold pa_roundup_shift32, pa_roundup32. rewrite int_shl1_spec by done.
  simpl. do 2 f_equal. rewrite (u32_small (2 ^ shift - 1)) by lia. done.
Qed.

Lemma pa_roundup32_power_of_two_witness :
  pa_roundup_shift32 13 3 = Some (pa_roundup32 13 (2 ^ 3)).
Proof. apply pa_roundup32_power_of_two; lia. Defined.

(** X4: [pa_items_shift32] counts the items of [2 ^ shift] bytes that hold
    [val] bytes: times the item size it is [pa_roundup_shift32], and without
    wrap-around it is the least count that covers [val]. *)
Theorem pa_items_shift32_roundup val shift :
  0 <= shift <= 30 -> 0 <= val < 4294967296 ->
  ∃ n r, pa_items_shift32 val shift = Some n
         ∧ pa_roundup_shift32 val shift = Some r
         ∧ r = n * 2 ^ shift
         ∧ (val + 2 ^ shift - 1 < 4294967296 ->
            (n - 1) * 2 ^ shift < val <= n * 2 ^ shift).
Proof.
  intros Hs Hv. pose proof (pow2_le_30 shift Hs) as Hp.
  rewrite pa_items_shift32_eq, pa_roundup_shift32_eq by done.
  eexists _, _. split; [done|]. split; [done|]. split; [lia|].
  intros Hsum. rewrite u32_small by lia.
  set (k := 2 ^ shift) in *. set (a := val + k - 1).
  assert (Hdm : a = k * (a / k) + a mod k) by (apply Z.div_mod; lia).
  assert (Hb : 0 <= a mod k < k) by (apply Z.mod_pos_bound; lia).
  subst a. nia.
Qed.

Lemma pa_items_shift32_roundup_witness :
  ∃ n r, pa_items_shift32 13 3 = Some n
         ∧ pa_roundup_shift32 13 3 = Some r
         ∧ r = n * 2 ^ 3
         ∧ (13 + 2 ^ 3 - 1 < 4294967296 ->
            (n - 1) * 2 ^ 3 < 13 <= n * 2 ^ 3).
Proof. apply (pa_items_shift32_roundup 13 3); lia. Defined.

(** X5: [pa_atom] undoes [pa_pointer]: the atom is read back from its address
    when the byte offset [atom << shift] does not wrap. *)
Theorem pa_atom_of_pointer bits base atom shift :
  32 <= bits -> 0 <= shift < 32 -> 0 <= atom ->
  atom * 2 ^ shift < 2147483648 ->
  ∃ cur, pa_pointer base atom shift = Some cur
         ∧ cur = base + atom * 2 ^ shift
         ∧ pa_atom bits base cur shift = Some atom.
Proof.
  intros Hbits Hs Ha Hoff.
  assert (Hp : 0 < 2 ^ shift) by (apply Z.pow_pos_nonneg; lia).
  assert (Hb : 2147483648 <= 2 ^ (bits - 1)).
  { change 2147483648 with (2 ^ 31). apply Z.pow_le_mono_r; lia. }
  unfold pa_pointer, pa_atom.
  rewrite (proj2 (Z.leb_le 0 shift)), (proj2 (Z.ltb_lt shift 32)) by lia.
  simpl. eexists. split; [done|].
  rewrite Z.shiftl_mul_pow2, u32_small by lia. split; [done|].
  replace (base + atom * 2 ^ shift - base) with (atom * 2 ^ shift) by lia.
  rewrite (proj2 (Z.leb_le _ _)), (proj2 (Z.ltb_lt _ _)),
    (proj2 (Z.ltb_lt shift bits)) by lia.
  simpl. rewrite Z.shiftr_div_pow2, Z.div_mul by lia.
  rewrite u32_small; [done|nia].
Qed.

Lemma pa_atom_of_pointer_witness :
  ∃ cur, pa_pointer 4096 5 4 = Some cur
         ∧ cur = 4096 + 5 * 2 ^ 4
         ∧ pa_atom 64 4096 cur 4 = Some 5.
Proof.
  apply (pa_atom_of_pointer 64 4096 5 4); [lia|lia|lia|reflexivity].
Defined.

(** X6: [pa_pointer] after [pa_atom] gives the start of the atom that holds
    the address: the address minus its offset inside the atom. *)
Theorem pa_pointer_of_atom bits base cur shift :
  32 <= bits -> 0 <= shift < 32 -> 0 <= cur - base < 2147483648 ->
  ∃ atom start, pa_atom bits base cur shift = Some atom
                ∧ pa_pointer base atom shift = Some start
                ∧ start = cur - (cur - base) mod 2 ^ shift.
Proof.
  intros Hbits Hs Hd.
  assert (Hp : 0 < 2 ^ shift) by (apply Z.pow_pos_nonneg; lia).
  assert (Hb : 2147483648 <= 2 ^ (bits - 1)).
  { change 2147483648 with (2 ^ 31). apply Z.pow_le_mono_r; lia. }
  unfold pa_pointer, pa_atom. cbv zeta.
  rewrite (proj2 (Z.leb_le 0 shift)), (proj2 (Z.ltb_lt shift 32)),
    (proj2 (Z.leb_le _ (cur - base))), (proj2 (Z.ltb_lt (cur - base) _)),
    (proj2 (Z.ltb_lt shift bits)) by lia.
  simpl. eexists _, _. split; [done|]. split; [done|].
  rewrite Z.shiftr_div_pow2, Z.shiftl_mul_pow2 by lia.
  assert (Hdm : cur - base = 2 ^ shift * ((cur - base) / 2 ^ shift)
                            + (cur - base) mod 2 ^ shift)
    by (apply Z.div_mod; lia).
  assert (Hm : 0 <= (cur - base) mod 2 ^ shift < 2 ^ shift)
    by (apply Z.mod_pos_bound; lia).
  assert (0 <= (cur - base) / 2 ^ shift) by (apply Z.div_pos; lia).
  assert ((cur - base) / 2 ^ shift * 2 ^ shift <= cur - base) by nia.
  rewrite (u32_small ((cur - base) / 2 ^ shift)) by nia.
  rewrite u32_small by nia. lia.
Qed.

Lemma pa_pointer_of_atom_witness :
  ∃ atom start, pa_atom 64 4096 4183 4 = Some atom
                ∧ pa_pointer 4096 atom 4 = Some start
                ∧ start = 4183 - (4183 - 4096) mod 2 ^ 4.
Proof. apply (pa_pointer_of_atom 64 4096 4183 4); lia. Defined.

(** X7: the address [pa_short_string] computes for an atom lies in the table,
    as [pa_is_short_string] tests it, exactly for the atoms 1..256 and for the
    atoms 2^31 + 1 .. 2^31 + 256, whose doubled index wraps onto the same
    entries. *)
Theorem pa_is_short_string_of_atom table atom :
  0 <= atom < 4294967296 ->
  pa_is_short_string table (pa_short_string_addr table atom) = true
  ↔ (PA_SHORT_STRINGS_MIN <= atom <= PA_SHORT_STRINGS_MAX
     ∨ 2147483648 + PA_SHORT_STRINGS_MIN <= atom
       <= 2147483648 + PA_SHORT_STRINGS_MAX).
Proof.
  unfold pa_is_short_string, pa_short_string_addr, PA_SHORT_STRINGS_MIN,
    PA_SHORT_STRINGS_MAX. intros Ha.
  rewrite Z.shiftl_mul_pow2 by lia. change (2 ^ 1) with 2.
  rewrite andb_true_iff, Z.leb_le, Z.ltb_lt.
  assert (Hidx : u32 (u32 (atom - 1) * 2)
                 = if decide (atom = 0) then 4294967294
                   else if decide (atom - 1 < 2147483648) then (atom - 1) * 2
                   else (atom - 1) * 2 - 4294967296).
  { destruct (decide (atom = 0)) as [->|Hnz]; [done|].
    rewrite (u32_small (atom - 1)) by lia. unfold u32.
    destruct (decide (atom - 1 < 2147483648)).
    - apply Z.mod_small. lia.
    - symmetry. apply (Z.mod_unique _ _ 1); lia. }
  rewrite Hidx. repeat case_decide; lia.
Qed.

Lemma pa_is_short_string_of_atom_witness :
  pa_is_short_string 4096 (pa_short_string_addr 4096 98) = true.
Proof.
  apply (pa_is_short_string_of_atom 4096 98); [lia|].
  left. unfold PA_SHORT_STRINGS_MIN, PA_SHORT_STRINGS_MAX. lia.
Defined.

(** X8: [pa_roundup32] with the degenerate multiples: rounding to a multiple
    of 0 gives 0 for every value, rounding to a multiple of 1 changes
    nothing. *)
Theorem pa_roundup32_zero_one val :
  0 <= val < 4294967296 ->
  pa_roundup32 val 0 = 0 ∧ pa_roundup32 val 1 = val.
Proof.
  intros Hv. unfold pa_roundup32. split.
  - change (u32 (Z.lnot (u32 (0 - 1)))) with 0. apply Z.land_0_r.
  - change (u32 (Z.lnot (u32 (1 - 1)))) with (Z.ones 32).
    rewrite Z.land_ones by lia. change (2 ^ 32) with 4294967296.
    replace (val + 1 - 1) with val by lia. rewrite u32_small by lia.
    apply Z.mod_small. lia.
Qed.

Lemma pa_roundup32_zero_one_witness :
  pa_roundup32 13 0 = 0 ∧ pa_roundup32 13 1 = 13.
Proof. apply pa_roundup32_zero_one. lia. Defined.

(** X9: rounding up twice is rounding up once, wrap-around included. *)
Theorem pa_roundup_shift32_idempotent val shift :
  0 <= shift <= 30 -> 0 <= val < 4294967296 ->
  ∃ r, pa_roundup_shift32 val shift = Some r
       ∧ 0 <= r < 4294967296
       ∧ pa_roundup_shift32 r shift = Some r.
Proof.
  intros Hs Hv. pose proof (pow2_le_30 shift Hs) as Hp.
  rewrite pa_roundup_shift32_eq by done. eexists. split; [done|].
  set (k := 2 ^ shift) in *. set (a := u32 (val + k - 1)).
  assert (Ha : 0 <= a < 4294967296) by (apply Z.mod_pos_bound; lia).
  assert (Hk : 4294967296 = k * 2 ^ (32 - shift)).
  { unfold k. rewrite <- Z.pow_add_r by lia.
    replace (shift + (32 - shift)) with 32 by lia. done. }
  assert (Hq : 0 <= a / k < 2 ^ (32 - shift)).
  { split; [apply Z.div_pos; lia|]. apply Z.div_lt_upper_bound; lia. }
  split; [nia|].
  rewrite pa_roundup_shift32_eq by done. fold k. do 2 f_equal.
  rewrite u32_small by nia.
  replace (k * (a / k) + k - 1) with (k - 1 + (a / k) * k) by lia.
  rewrite Z.div_add, Z.div_small by lia. lia.
Qed.

Lemma pa_roundup_shift32_idempotent_witness :
  ∃ r, pa_roundup_shift32 13 3 = Some r
       ∧ 0 <= r < 4294967296
       ∧ pa_roundup_shift32 r 3 = Some r.
Proof. apply (pa_roundup_shift32_idempotent 13 3); lia. Defined.

(** ** pa_pat.h: lengths, bit indices and the reads of the walk *)

Lemma lor_low_byte x : 0 <= x -> Z.lor (Z.shiftl x 8) 255 = x * 256 + 255.
Proof.
  intros Hx. rewrite Z.shiftl_mul_pow2 by lia. change (2 ^ 8) with 256.
  rewrite <- Z.lxor_lor, <- Z.add_nocarry_lxor; try reflexivity.
  - change 255 with (Z.ones 8). rewrite Z.land_ones by lia.
    change (2 ^ 8) with 256. apply Z.mod_mul. lia.
  - change 255 with (Z.ones 8). rewrite Z.land_ones by lia.
    change (2 ^ 8) with 256. apply Z.mod_mul. lia.
Qed.

Lemma pa_pat_length_to_bit_wrap len :
  1 <= len <= 65535 ->
  pa_pat_length_to_bit len = (len - 1) mod 256 * 256 + 255.
Proof.
  intros Hl. unfold pa_pat_length_to_bit.
  destruct (Z.eqb_spec len 0) as [->|_]; [lia|].
  rewrite lor_low_byte by lia. unfold u16.
  assert (Hd : len - 1 = 256 * ((len - 1) / 256) + (len - 1) mod 256)
    by (apply Z.div_mod; lia).
  assert (Hm : 0 <= (len - 1) mod 256 < 256) by (apply Z.mod_pos_bound; lia).
  symmetry. apply (Z.mod_unique _ _ ((len - 1) / 256)); lia.
Qed.

(** X10: [pa_pat_length] undoes [pa_pat_length_to_bit] for the key lengths 1
    to [PA_PAT_MAXKEY]; a longer length is stored modulo 256, and the length
    0, stored as [PA_PAT_NOBIT], reads back as 1. *)
Theorem pa_pat_length_round_trip n len :
  1 <= len <= 65535 -> ppn_length n = pa_pat_length_to_bit len ->
  pa_pat_length n = (len - 1) mod 256 + 1
  ∧ (len <= PA_PAT_MAXKEY -> pa_pat_length n = len)
  ∧ (PA_PAT_MAXKEY < len -> pa_pat_length n ≠ len)
  ∧ pa_pat_length_to_bit 0 = PA_PAT_NOBIT
  ∧ ∀ m, ppn_length m = pa_pat_length_to_bit 0 -> pa_pat_length m = 1.
Proof.
  intros Hl Hn.
  assert (Hm : 0 <= (len - 1) mod 256 < 256) by (apply Z.mod_pos_bound; lia).
  assert (Hlen : pa_pat_length n = (len - 1) mod 256 + 1).
  { unfold pa_pat_length. rewrite Hn, pa_pat_length_to_bit_wrap by done.
    rewrite (u16_small (_ * 256 + 255)) by lia.
    rewrite Z.shiftr_div_pow2 by lia. change (2 ^ 8) with 256.
    rewrite Z.div_add_l by lia. change (255 / 256) with 0.
    rewrite u16_small; lia. }
  unfold PA_PAT_MAXKEY. split; [done|]. split; [|split; [|split; [done|]]].
  - intros Hle. rewrite Hlen, Z.mod_small; lia.
  - intros Hgt. rewrite Hlen. lia.
  - intros m Hm0. unfold pa_pat_length. by rewrite Hm0.
Qed.

Lemma pa_pat_length_round_trip_witness :
  pa_pat_length (mk_node (pa_pat_length_to_bit 3) 0 0 0 0) = 3.
Proof.
  apply (pa_pat_length_round_trip
           (mk_node (pa_pat_length_to_bit 3) 0 0 0 0) 3);
    [lia|reflexivity|unfold PA_PAT_MAXKEY; lia].
Defined.

Lemma pa_pat_makebit_value b i :
  0 <= b <= 255 -> 0 <= i <= 7 ->
  pa_pat_makebit hi_bit_mask b i = 256 * b + 255 - 2 ^ (7 - i).
Proof.
  intros Hb Hi.
  assert (Hall : Forall (λ b, Forall (λ i,
            pa_pat_makebit hi_bit_mask b i = 256 * b + 255 - 2 ^ (7 - i))
            (seqZ 0 8)) (seqZ 0 256)).
  { apply (bool_decide_unpack _). vm_compute. exact I. }
  rewrite Forall_forall in Hall.
  specialize (Hall b). rewrite Forall_forall in Hall.
  apply Hall; apply elem_of_seqZ; lia.
Qed.

Lemma pa_pat_makebit_table table b i :
  table i = hi_bit_mask i ->
  pa_pat_makebit table b i = pa_pat_makebit hi_bit_mask b i.
Proof. intros Ht. unfold pa_pat_makebit. by rewrite Ht. Qed.

Lemma pow2_bit_in_byte i :
  0 <= i <= 7 ->
  2 ^ (7 - i) = 128 / 2 ^ i ∧ 1 <= 2 ^ (7 - i) <= 128.
Proof.
  intros Hi.
  assert (H : i = 0 ∨ i = 1 ∨ i = 2 ∨ i = 3 ∨ i = 4 ∨ i = 5 ∨ i = 6 ∨ i = 7)
    by lia.
  destruct H as [->|[->|[->|[->|[->|[->|[->| ->]]]]]]];
    (split; [reflexivity|split; apply Z.leb_le; reflexivity]).
Qed.

(** X11: the bit indices of [pa_pat_makebit] are ordered as the bits of a key
    are: by byte offset first, and inside a byte from the most significant bit
    to the least.  This holds for every table whose entries are the masks of
    the bits counted from the most significant one. *)
Theorem pa_pat_makebit_order table b i b' i' :
  0 <= b <= 255 -> 0 <= i <= 7 -> 0 <= b' <= 255 -> 0 <= i' <= 7 ->
  table i = hi_bit_mask i -> table i' = hi_bit_mask i' ->
  pa_pat_makebit table b i < pa_pat_makebit table b' i'
  ↔ b < b' ∨ (b = b' ∧ i < i').
Proof.
  intros Hb Hi Hb' Hi' Ht Ht'.
  rewrite (pa_pat_makebit_table table b i), (pa_pat_makebit_table table b' i')
    by done.
  rewrite (pa_pat_makebit_value b i), (pa_pat_makebit_value b' i') by done.
  pose proof (pow2_bit_in_byte i Hi) as [_ Hp].
  pose proof (pow2_bit_in_byte i' Hi') as [_ Hp'].
  assert (Hlt : 2 ^ (7 - i') < 2 ^ (7 - i) ↔ i < i').
  { rewrite <- Z.pow_lt_mono_r_iff by lia. lia. }
  lia.
Qed.

Lemma pa_pat_makebit_order_witness :
  pa_pat_makebit hi_bit_mask 0 7 < pa_pat_makebit hi_bit_mask 1 0
  ↔ 0 < 1 ∨ (0 = 1 ∧ 7 < 0).
Proof.
  apply (pa_pat_makebit_order hi_bit_mask 0 7 1 0); first [lia|reflexivity].
Defined.

(** X12: a bit index of [pa_pat_makebit] is below the bit length of a key,
    which is the test the walk makes before it reads the key, exactly when its
    byte lies inside the key. *)
Theorem pa_pat_makebit_below_length table b i key_bytes :
  0 <= b <= 255 -> 0 <= i <= 7 -> 1 <= key_bytes <= PA_PAT_MAXKEY ->
  table i = hi_bit_mask i ->
  pa_pat_makebit table b i < pa_pat_length_to_bit key_bytes ↔ b < key_bytes.
Proof.
  intros Hb Hi Hkb Ht.
  rewrite pa_pat_makebit_table, pa_pat_makebit_value by done.
  rewrite pa_pat_length_to_bit_eq by done.
  pose proof (pow2_bit_in_byte i Hi) as [_ Hp]. lia.
Qed.

Lemma pa_pat_makebit_below_length_witness :
  pa_pat_makebit hi_bit_mask 2 7 < pa_pat_length_to_bit 3 ↔ 2 < 3.
Proof.
  apply (pa_pat_makebit_below_length hi_bit_mask 2 7 3);
    first [unfold PA_PAT_MAXKEY; lia|reflexivity].
Defined.

Lemma key_index_in_bounds key_bytes key b :
  valid_key key_bytes key -> 0 <= b < pa_pat_length_to_bit key_bytes ->
  (Z.to_nat (Z.shiftr b 8) < length key)%nat.
Proof.
  intros [Hkb Hlen] Hb. rewrite pa_pat_length_to_bit_eq in Hb by done.
  rewrite Hlen, Z.shiftr_div_pow2 by lia. change (2 ^ 8) with 256.
  assert (b / 256 < key_bytes) by (apply Z.div_lt_upper_bound; lia).
  assert (0 <= b / 256) by (apply Z.div_pos; lia). lia.
Qed.

(** X13: whatever the pool holds, the walk reads the search key inside its
    [key_bytes] bytes only: a test of a bit outside the key is cut off by [bit
    < bit_len], and the loop never ends on a read out of bounds. *)
Theorem pa_pat_walk_reads_in_key root key_bytes key fuel bit current node :
  valid_key key_bytes key ->
  (pa_pat_walk root key (pa_pat_length_to_bit key_bytes) fuel bit current
     node).2 ≠ WalkFault OutOfBounds.
Proof.
  intros Hkey. revert bit current node.
  induction fuel as [|fuel IH]; intros bit current [n|]; simpl; try done.
  - destruct (_ <? _); done.
  - destruct (_ <? _); [|done].
    destruct (go_right_in_bounds key_bytes key (u16 (ppn_bit n)) Hkey)
      as [go ->]; [apply u16_range|].
    simpl. apply IH.
Qed.

Lemma pa_pat_walk_reads_in_key_witness :
  (pa_pat_walk ab_trie [98] (pa_pat_length_to_bit 1) walk_fuel PA_PAT_NOBIT 2
     (pa_pat_node ab_trie 2)).2 ≠ WalkFault OutOfBounds.
Proof.
  apply (pa_pat_walk_reads_in_key ab_trie 1 [98]).
  split; [unfold PA_PAT_MAXKEY; lia|reflexivity].
Defined.

Lemma go_right_app key_bytes key extra b :
  valid_key key_bytes key -> 0 <= b ->
  go_right (key ++ extra) (pa_pat_length_to_bit key_bytes) b
  = go_right key (pa_pat_length_to_bit key_bytes) b.
Proof.
  intros Hkey Hb. unfold go_right, pat_key_test.
  destruct (Z.ltb_spec b (pa_pat_length_to_bit key_bytes)) as [Hlt|]; [|done].
  rewrite lookup_app_l; [done|]. by eapply key_index_in_bounds.
Qed.

Lemma pa_pat_walk_app root key_bytes key extra fuel bit current node :
  valid_key key_bytes key ->
  pa_pat_walk root (key ++ extra) (pa_pat_length_to_bit key_bytes) fuel bit
    current node
  = pa_pat_walk root key (pa_pat_length_to_bit key_bytes) fuel bit current
      node.
Proof.
  intros Hkey. revert bit current node.
  induction fuel as [|fuel IH]; intros bit current [n|]; simpl; try done.
  destruct (_ <? _); [|done].
  rewrite go_right_app by (done || apply u16_range).
  destruct (go_right _ _ _); [|done]. by rewrite IH.
Qed.

(** X14: the lookup examines the first [key_bytes] bytes of the key buffer
    only: what follows them in the buffer does not change the result. *)
Theorem pa_pat_get_inline_key_prefix root key_bytes key extra :
  valid_key key_bytes key ->
  pa_pat_get_inline root key_bytes (key ++ extra)
  = pa_pat_get_inline root key_bytes key.
Proof.
  intros Hkey. unfold pa_pat_get_inline.
  destruct (key_bytes =? 0); [done|].
  destruct (pa_pat_is_null _); [done|].
  rewrite pa_pat_walk_app by done.
  destruct (pa_pat_walk _ _ _ _ _ _ _).2 as [|f| |cur n]; try done.
  destruct (negb _); [done|].
  destruct Hkey as [Hkb Hlen].
  assert (Hb : bcmp (pa_pat_key root n) (Some (key ++ extra)) key_bytes
               = bcmp (pa_pat_key root n) (Some key) key_bytes).
  { unfold bcmp. destruct (pa_pat_key root n) as [k|]; simpl; [|done].
    rewrite length_app, take_app_le by lia.
    repeat case_decide; try done; lia. }
  by rewrite Hb.
Qed.

Lemma pa_pat_get_inline_key_prefix_witness :
  pa_pat_get_inline ab_trie 1 ([98] ++ [7; 7])
  = pa_pat_get_inline ab_trie 1 [98].
Proof.
  apply (pa_pat_get_inline_key_prefix ab_trie 1 [98] [7; 7]).
  split; [unfold PA_PAT_MAXKEY; lia|reflexivity].
Defined.

(** ** The rulebook: actions, events and malformed scripts *)

Lemma xi_action_names_NoDup : NoDup xi_action_names.
Proof. apply (bool_decide_unpack _). by vm_compute. Qed.

(** X15: [xi_rule_action_value] gives the index of a name of
    [xi_action_names], so that the table read at the value gives the name
    back, and [XIA_NONE], the value of "none", for every other string. *)
Theorem xi_rule_action_value_names name :
  0 <= xi_rule_action_value name < Z.of_nat (length xi_action_names)
  ∧ (∀ i, xi_action_names !! i = Some name ->
          xi_rule_action_value name = Z.of_nat i)
  ∧ (name ∈ xi_action_names ->
     xi_action_names !! Z.to_nat (xi_rule_action_value name) = Some name)
  ∧ (name ∉ xi_action_names -> xi_rule_action_value name = XIA_NONE).
Proof.
  unfold xi_rule_action_value.
  destruct (list_find _ _) as [[j x]|] eqn:Hf.
  - apply list_find_Some in Hf as (Hj & -> & _).
    pose proof (lookup_lt_Some _ _ _ Hj) as Hlt.
    split; [lia|]. split; [|split].
    + intros i Hi. f_equal.
      by apply (NoDup_lookup _ _ _ _ xi_action_names_NoDup Hj Hi).
    + intros _. by rewrite Nat2Z.id.
    + intros Hnin. destruct Hnin. by eapply list_elem_of_lookup_2.
  - apply list_find_None in Hf. rewrite Forall_forall in Hf.
    split; [done|]. split; [|split]; [| |done].
    + intros i Hi. destruct (Hf name); [by eapply list_elem_of_lookup_2|done].
    + intros Hin. destruct (Hf name Hin). done.
Qed.

(** X16: the compiler acts on [XI_TYPE_OPEN] events only: the other events of
    the pass (close tags, text, empty tags, ...) can be left out without
    changing the result.  The end of a [<state>] is not seen. *)
Theorem xi_parse_emit_open_only strtol xi_parse_atom events prep :
  xi_parse_emit strtol xi_parse_atom events prep
  = xi_parse_emit strtol xi_parse_atom
      (filter (λ e, e.1 = XI_TYPE_OPEN) events) prep.
Proof.
  revert prep. induction events as [|[type nodep] events IH]; intros prep;
    [done|].
  destruct (decide (type = XI_TYPE_OPEN)) as [->|Hne].
  - rewrite filter_cons_True by done. simpl.
    destruct (xi_rulebook_prep_cb _ _ _ _ _); simpl; [apply IH|done].
  - rewrite filter_cons_False by done. simpl.
    unfold xi_rulebook_prep_cb.
    destruct (Z.eqb_spec type XI_TYPE_OPEN); [done|]. simpl. apply IH.
Qed.

Section CompileEdges.

Variable strtol : string -> Z.
Variable xi_parse_atom : option string -> Z.
Hypothesis Hnames : names_distinct xi_parse_atom.

Local Abbreviation atom := (name_atom xi_parse_atom).
Local Abbreviation callback := (xi_rulebook_prep_cb strtol xi_parse_atom).
Local Abbreviation emit := (xi_parse_emit strtol xi_parse_atom).
Local Abbreviation prep_ok := (prep_consts xi_parse_atom).
Local Abbreviation tail_inv := (tail_invariant strtol xi_parse_atom).
Local Abbreviation frame := (prep_frame xi_parse_atom).

Ltac names_neq :=
  let H := fresh "H" in
  pose proof Hnames as H; unfold names_distinct in H;
  rewrite !fmap_cons in H;
  repeat (apply NoDup_cons in H as [? H]);
  repeat match goal with
         | Hn : _ ∉ _ :: _ |- _ =>
           rewrite !not_elem_of_cons in Hn; destruct_and? Hn
         end.

Ltac eqb_names :=
  repeat match goal with
         | |- context [?a =? ?b] =>
           destruct (Z.eqb_spec a b); [exfalso; congruence|]
         end.

Ltac prep_atoms Hok :=
  let Ha := fresh "Ha" in
  destruct Hok as [Ha ?]; simpl in Ha;
  injection Ha as ? ? ? ? ? ? ? ?; simpl in *; subst.

Lemma prep_init_ok xrbp : prep_ok (xi_rulebook_prep_init xi_parse_atom xrbp).
Proof. done. Qed.

Lemma callback_state_node prep nodep :
  prep_ok prep -> xn_name nodep = atom "state" ->
  callback prep XI_TYPE_OPEN nodep = prep_open_state strtol prep nodep.
Proof.
  intros Hok Hname. names_neq. destruct prep. prep_atoms Hok.
  unfold xi_rulebook_prep_cb. simpl. rewrite Hname. eqb_names.
  by rewrite Z.eqb_refl.
Qed.

Lemma callback_rule_node prep nodep :
  prep_ok prep -> xn_name nodep = atom "rule" ->
  callback prep XI_TYPE_OPEN nodep
  = prep_open_rule strtol xi_parse_atom prep nodep.
Proof.
  intros Hok Hname. names_neq. destruct prep. prep_atoms Hok.
  unfold xi_rulebook_prep_cb. simpl. rewrite Hname. eqb_names.
  by rewrite Z.eqb_refl.
Qed.

(** X17: a [<rule>] that comes before any [<state>] makes the compiler fault
    when the pool has a record for it: the tail pointer of the stack entry is
    still null when the rule's atom is stored through it. *)
Theorem xi_rulebook_prep_rule_before_state xrbp rd rest :
  rules_ok xrbp 1 ->
  xi_rulebook_prep strtol xi_parse_atom xrbp
    ((XI_TYPE_OPEN, script_node xi_parse_atom)
     :: (XI_TYPE_OPEN, rule_node xi_parse_atom rd) :: rest) = None.
Proof.
  intros (Hlen & _ & Hall).
  destruct xrbp as [[rmax rfree rcells] states bitmaps max_state].
  simpl in *. destruct rfree as [|rid free]; [simpl in Hlen; lia|].
  apply Forall_cons in Hall as [[Hnz [old Hold]] _].
  unfold xi_rulebook_prep. cbn [xi_parse_emit].
  rewrite callback_script by done. cbn [mbind option_bind].
  rewrite callback_rule_node by done.
  unfold prep_open_rule. cbn [xrp_rulebook xi_rulebook_prep_init xrb_rules
    pa_fixed_alloc_atom pf_free set_rules pf_max_atoms pf_cells].
  unfold pa_fixed_atom_addr at 1.
  destruct (Z.eqb_spec rid PA_NULL_ATOM); [done|]. rewrite Hold. done.
Qed.

(** X18: a [<state>] element without an [id] attribute makes the compiler
    fault ([strtol] is handed a null string), and so does one without an
    [action] attribute whose id the states pool holds ([strcmp] is handed a
    null string). *)
Theorem xi_rulebook_prep_cb_state_attribs prep nodep :
  prep_ok prep -> xn_name nodep = atom "state" ->
  xi_tree_get_attrib_string nodep (atom "id") = None
  ∨ (∃ id,
       xi_tree_get_attrib_string nodep (atom "id") = Some id
       ∧ u16 (strtol id) <= pa_fixed_max_atoms (xrb_states (xrp_rulebook prep))
       ∧ is_Some (pa_fixed_element (xrb_states (xrp_rulebook prep))
                    (u16 (strtol id)))
       ∧ xi_tree_get_attrib_string nodep (atom "action") = None) ->
  callback prep XI_TYPE_OPEN nodep = None.
Proof.
  intros Hok Hname Hcase. rewrite callback_state_node by done.
  destruct prep. prep_atoms Hok. unfold prep_open_state. simpl.
  destruct Hcase as [->|(id & -> & Hmax & [st Hst] & ->)]; [done|]. simpl.
  rewrite (proj2 (Z.ltb_ge _ _) Hmax). by rewrite Hst.
Qed.

Lemma callback_state_rejected prep sd :
  prep_ok prep ->
  pf_max_atoms (xrb_states (xrp_rulebook prep)) < state_id strtol sd ->
  callback prep XI_TYPE_OPEN (state_node xi_parse_atom sd) = Some prep.
Proof.
  intros Hok Hmax. rewrite callback_state_node by done.
  pose proof (state_node_attribs xi_parse_atom Hnames sd) as [Hid _].
  assert (Hatom : xrp_atom_id prep = atom "id").
  { destruct prep. by prep_atoms Hok. }
  unfold prep_open_state. rewrite Hatom, Hid. simpl.
  fold (state_id strtol sd). unfold pa_fixed_max_atoms.
  by rewrite (proj2 (Z.ltb_lt _ _) Hmax).
Qed.

(** X19: a [<state>] whose id is above the maximum of the states pool is left
    out, and the tail pointer stays where it was: the [<rule>] children of the
    rejected state are appended to the rule list of the state before it. *)
Theorem xi_rulebook_prep_rejected_state xrbp sd1 sd2 :
  states_ok strtol xrbp [sd1] ->
  pa_fixed_max_atoms (xrb_states xrbp) < state_id strtol sd2 ->
  rules_ok xrbp (length (sd_rules sd1 ++ sd_rules sd2)) ->
  ∃ xrbp',
    xi_rulebook_prep strtol xi_parse_atom xrbp
      (script_events xi_parse_atom [sd1; sd2]) = Some xrbp'
    ∧ let rids := take (length (sd_rules sd1 ++ sd_rules sd2))
                       (pf_free (xrb_rules xrbp)) in
      state_rules xrbp' (state_id strtol sd1) = Some rids
      ∧ Forall2 (rule_compiled strtol xi_parse_atom
                   (pf_cells (xrb_rules xrbp')))
                rids (sd_rules sd1 ++ sd_rules sd2)
      ∧ pa_fixed_element (xrb_states xrbp') (state_id strtol sd2)
        = pa_fixed_element (xrb_states xrbp) (state_id strtol sd2).
Proof.
  intros [_ Hst1] Hrej (Hlen & Hnd & Hall).
  apply Forall_cons in Hst1 as [[Hmax1 Hcell1] _].
  rewrite length_app in Hlen.
  set (free := pf_free (xrb_rules xrbp)) in *.
  set (n1 := length (sd_rules sd1)) in *.
  set (n2 := length (sd_rules sd2)) in *.
  set (prep0 := xi_rulebook_prep_init xi_parse_atom xrbp).
  destruct (emit_state strtol xi_parse_atom Hnames sd1 prep0
              (mk_stack 0 None 0 LocNull) free)
    as (prep1 & e1 & Hemit1 & Hframe1 & Hstack1 & Htail1 & Hfree1);
    try done; [lia|].
  destruct Hframe1 as (Hok1 & Hmax & _ & Hsome1 & Hscells1 & _).
  destruct (emit_rules strtol xi_parse_atom Hnames (sd_rules sd2) prep1 e1
              (state_id strtol sd1) (take n1 free) (sd_rules sd1)
              (drop n1 free))
    as (prep2 & e2 & Hemit2 & Hframe2 & _ & Htail2 & _); try done.
  { rewrite length_drop. fold n2. lia. }
  { by rewrite take_drop. }
  { apply Forall_forall. intros a Ha. rewrite Forall_forall in Hall.
    destruct (Hall a) as [Hnz Hsome]; [|split; [done|by apply Hsome1]].
    apply list_elem_of_lookup in Ha as [i Hi].
    rewrite lookup_drop in Hi. by eapply list_elem_of_lookup_2. }
  destruct Hframe2 as (_ & _ & _ & _ & Hscells2 & _).
  fold n2 in Htail2. rewrite take_take_drop in Htail2.
  exists (xrp_rulebook prep2). split.
  - unfold xi_rulebook_prep, script_events. cbn [xi_parse_emit].
    rewrite callback_script by done. cbn [mbind option_bind flat_map].
    change (xi_rulebook_prep_init xi_parse_atom xrbp) with prep0.
    rewrite (app_nil_r (state_events xi_parse_atom sd2)), <- app_assoc.
    rewrite emit_app, Hemit1.
    cbn [mbind option_bind]. unfold state_events at 1.
    rewrite <- app_comm_cons. cbn [xi_parse_emit].
    rewrite callback_state_rejected by (done || (rewrite Hmax; done)).
    cbn [mbind option_bind]. rewrite <- app_assoc, emit_app, Hemit2. done.
  - rewrite length_app. fold n1 n2.
    destruct Htail2 as (_ & Hcomp & st & Hst & Hch).
    assert (Hndr : NoDup (take (n1 + n2) free)).
    { apply (sublist_NoDup _ free); [done|apply sublist_take]. }
    split; [|split; [done|]].
    + unfold state_rules, pa_fixed_element. rewrite Hst. simpl.
      apply chain_at_rule_chain; [done|].
      apply NoDup_length_size; [done|]. by eapply chain_at_dom.
    + assert (Hne : state_id strtol sd2 ∉ [state_id strtol sd1]).
      { rewrite list_elem_of_singleton. unfold pa_fixed_max_atoms in *. lia. }
      unfold pa_fixed_element.
      by rewrite (Hscells2 _ Hne), (Hscells1 _ Hne).
Qed.

(** *** The largest state id *)

Lemma xi_rule_bitmap_add_states xrbp rid tag :
  xrb_states (xi_rule_bitmap_add xi_parse_atom xrbp rid tag) = xrb_states xrbp
  ∧ xrsi_max_state (xi_rule_bitmap_add xi_parse_atom xrbp rid tag)
    = xrsi_max_state xrbp.
Proof.
  unfold xi_rule_bitmap_add. destruct (_ =? _); [done|].
  destruct (pa_fixed_atom_addr _ _) as [xrp|]; [|done].
  destruct (xr_bitmap xrp =? _).
  - destruct (pa_bitmap_alloc _) as [bitmap pbp].
    destruct (bitmap =? _); done.
  - destruct (_ =? _); done.
Qed.

Lemma store_atom_states xrbp loc a xrbp' :
  store_atom xrbp loc a = Some xrbp' ->
  pf_max_atoms (xrb_states xrbp') = pf_max_atoms (xrb_states xrbp)
  ∧ xrsi_max_state xrbp' = xrsi_max_state xrbp.
Proof. destruct loc; simpl; [done|by intros [= <-]..]. Qed.

Lemma max_state_step_refl prep : max_state_step prep prep.
Proof. unfold max_state_step. repeat split; lia. Qed.

Lemma max_state_step_trans prep1 prep2 prep3 :
  max_state_step prep1 prep2 -> max_state_step prep2 prep3 ->
  max_state_step prep1 prep3.
Proof.
  unfold max_state_step.
  intros (-> & -> & -> & H1 & H2) (-> & -> & -> & H3 & H4).
  repeat split; lia.
Qed.

Lemma prep_open_state_max prep nodep prep' :
  prep_open_state strtol prep nodep = Some prep' ->
  max_state_step prep prep'
  ∧ ∀ id, xi_tree_get_attrib_string nodep (xrp_atom_id prep) = Some id ->
          u16 (strtol id) <= pf_max_atoms (xrb_states (xrp_rulebook prep)) ->
          u16 (strtol id) <= xrsi_max_state (xrp_rulebook prep').
Proof.
  unfold prep_open_state, max_state_step, pa_fixed_max_atoms.
  destruct (xi_tree_get_attrib_string nodep (xrp_atom_id prep)) as [id|];
    [|done]; simpl.
  destruct (Z.ltb_spec (pf_max_atoms (xrb_states (xrp_rulebook prep)))
              (u16 (strtol id))) as [Hrej|Hacc].
  { intros [= <-]. split; [repeat split; lia|]. intros ? [= <-]. lia. }
  destruct (pa_fixed_element _ _) as [st|].
  - destruct (xi_tree_get_attrib_string _ _) as [action|]; [|done]. simpl.
    destruct (xrp_stack prep !! _); [|done]. simpl.
    destruct (Z.ltb_spec (xrsi_max_state (xrp_rulebook prep))
                (u16 (strtol id))); intros [= <-]; simpl;
      (split; [repeat split; lia|]); intros ? [= <-]; lia.
  - simpl.
    destruct (Z.ltb_spec (xrsi_max_state (xrp_rulebook prep))
                (u16 (strtol id))); intros [= <-]; simpl;
      (split; [repeat split; lia|]); intros ? [= <-]; lia.
Qed.

Lemma prep_open_rule_max prep nodep prep' :
  prep_open_rule strtol xi_parse_atom prep nodep = Some prep' ->
  max_state_step prep prep'.
Proof.
  unfold prep_open_rule, max_state_step.
  destruct (pa_fixed_alloc_atom _) as [rid rules].
  destruct (pa_fixed_atom_addr _ _).
  - destruct (xrp_stack prep !! _); [|done]. simpl.
    destruct (store_atom _ _ _) as [xrbp|] eqn:Hs; [|done]. simpl.
    intros [= <-]. apply store_atom_states in Hs as [Hs1 Hs2]. simpl.
    rewrite Hs1, Hs2. unfold rule_store. simpl.
    match goal with
    | |- context [xi_rule_bitmap_add _ ?x ?r ?t] =>
      destruct (xi_rule_bitmap_add_states x r t) as [-> ->]
    end.
    simpl. repeat split; lia.
  - intros [= <-]. simpl. repeat split; lia.
Qed.

Lemma callback_max prep type nodep prep' :
  callback prep type nodep = Some prep' -> max_state_step prep prep'.
Proof.
  unfold xi_rulebook_prep_cb.
  destruct (type =? _); [|intros [= <-]; apply max_state_step_refl].
  destruct (_ =? xrp_atom_script prep);
    [intros [= <-]; apply max_state_step_refl|].
  destruct (_ =? xrp_atom_state prep);
    [intros H; by apply prep_open_state_max in H as [? _]|].
  destruct (_ =? xrp_atom_rule prep);
    [apply prep_open_rule_max|intros [= <-]; apply max_state_step_refl].
Qed.

Lemma emit_max events prep prep' :
  emit events prep = Some prep' -> max_state_step prep prep'.
Proof.
  revert prep. induction events as [|[type nodep] events IH]; intros prep;
    simpl; [intros [= <-]; apply max_state_step_refl|].
  destruct (callback prep type nodep) as [prep1|] eqn:Hcb; [|done]. simpl.
  intros H. eapply max_state_step_trans; [by eapply callback_max|by apply IH].
Qed.


(** X20: through the compilation the size of the states pool stays, and the
    largest state id [xrsi_max_state], which bounds the loop of
    [xi_rulebook_dump], only grows, and to no more than the maximum of the
    states pool: a rejected state id is never recorded. *)
Theorem xi_rulebook_prep_max_state_bounds xrbp events xrbp' :
  xi_rulebook_prep strtol xi_parse_atom xrbp events = Some xrbp' ->
  pa_fixed_max_atoms (xrb_states xrbp') = pa_fixed_max_atoms (xrb_states xrbp)
  ∧ xrsi_max_state xrbp <= xrsi_max_state xrbp'
  ∧ xrsi_max_state xrbp'
    <= Z.max (xrsi_max_state xrbp) (pa_fixed_max_atoms (xrb_states xrbp)).
Proof.
  unfold xi_rulebook_prep.
  destruct (xi_parse_emit _ _ _ _) as [prep'|] eqn:Hemit; [|done].
  intros [= <-]. by apply emit_max in Hemit as (_ & _ & _ & ? & ? & ?).
Qed.


End CompileEdges.

Lemma xi_rulebook_prep_rule_before_state_witness :
  xi_rulebook_prep ex_strtol ex_atom (ex_rulebook [1; 2; 3])
    ((XI_TYPE_OPEN, script_node ex_atom)
     :: (XI_TYPE_OPEN,
         rule_node ex_atom (mk_rule_decl (Some "doc"%string) None None None))
     :: []) = None.
Proof.
  assert (Hnames' : names_distinct ex_atom).
  { apply (bool_decide_unpack _). vm_compute. exact I. }
  apply (xi_rulebook_prep_rule_before_state ex_strtol ex_atom Hnames').
  apply (bool_decide_unpack _). vm_compute. exact I.
Defined.

Lemma xi_rulebook_prep_cb_state_attribs_witness :
  xi_rulebook_prep_cb ex_strtol ex_atom
    (xi_rulebook_prep_init ex_atom (ex_rulebook [1; 2; 3])) XI_TYPE_OPEN
    (mk_xnode (name_atom ex_atom "state") [(name_atom ex_atom "id", "1")])
  = None.
Proof.
  assert (Hnames' : names_distinct ex_atom).
  { apply (bool_decide_unpack _). vm_compute. exact I. }
  apply (xi_rulebook_prep_cb_state_attribs ex_strtol ex_atom Hnames');
    [split; reflexivity|reflexivity|].
  right. exists "1"%string. split; [reflexivity|].
  split; [vm_compute; discriminate|]. split; [|reflexivity].
  vm_compute. eauto.
Defined.

Lemma xi_rulebook_prep_rejected_state_witness :
  ∃ xrbp',
    xi_rulebook_prep ex_strtol ex_atom (ex_rulebook [1; 2; 3])
      (script_events ex_atom
         [mk_state_decl "1" "discard"
            [mk_rule_decl (Some "doc") (Some "save") (Some "2") None];
          mk_state_decl "99" "save"
            [mk_rule_decl (Some "p") (Some "discard") None None]]%string)
    = Some xrbp'
    ∧ state_rules xrbp' 1 = Some [1; 2].
Proof.
  assert (Hnames' : names_distinct ex_atom).
  { apply (bool_decide_unpack _). vm_compute. exact I. }
  destruct (xi_rulebook_prep_rejected_state ex_strtol ex_atom Hnames'
              (ex_rulebook [1; 2; 3])
              (mk_state_decl "1" "discard"
                 [mk_rule_decl (Some "doc") (Some "save") (Some "2") None])
              (mk_state_decl "99" "save"
                 [mk_rule_decl (Some "p") (Some "discard") None None]))
    as (xrbp' & Hprep & Hrules & _).
  - apply (bool_decide_unpack _). vm_compute. exact I.
  - reflexivity.
  - apply (bool_decide_unpack _). vm_compute. exact I.
  - exists xrbp'. split; [exact Hprep|exact Hrules].
Defined.

Lemma xi_rulebook_prep_max_state_bounds_witness :
  pa_fixed_max_atoms (xrb_states (default (ex_rulebook []) ex_compiled)) = 16
  ∧ 0 <= xrsi_max_state (default (ex_rulebook []) ex_compiled)
  ∧ xrsi_max_state (default (ex_rulebook []) ex_compiled) <= Z.max 0 16.
Proof.
  apply (xi_rulebook_prep_max_state_bounds ex_strtol ex_atom
           (ex_rulebook [1; 2; 3]) (script_events ex_atom ex_script)).
  vm_compute. reflexivity.
Defined.


(** ** Tag bitmaps *)

(** X22: [xi_rule_bitmap_add] makes the rule match the tag: when the tag has
    an atom, and the rule has a bitmap or the pool can give it one, then after
    the call the bit of the tag's atom is set in the bitmap of the rule, and
    the other bits are as they were (all clear, in a bitmap just allocated). *)
Theorem xi_rule_bitmap_add_sets_tag xi_parse_atom xrbp rid tag r :
  rid ≠ PA_NULL_ATOM -> pf_cells (xrb_rules xrbp) !! rid = Some r ->
  xi_parse_atom tag ≠ PA_NULL_ATOM ->
  (if xr_bitmap r =? PA_NULL_ATOM
   then ∃ b free, pb_free (xrb_bitmaps xrbp) = b :: free ∧ b ≠ PA_NULL_ATOM
   else is_Some (pb_maps (xrb_bitmaps xrbp) !! xr_bitmap r)) ->
  let xrbp' := xi_rule_bitmap_add xi_parse_atom xrbp rid tag in
  rule_matches xrbp' (xi_parse_atom tag) rid = true
  ∧ ∀ a, a ≠ xi_parse_atom tag ->
         rule_matches xrbp' a rid
         = if xr_bitmap r =? PA_NULL_ATOM then false
           else rule_matches xrbp a rid.
Proof.
  intros Hrid Hr Htag Hpool.
  destruct xrbp as [[rmax rfree rcells] states [bfree maps] max_state].
  simpl in Hr, Hpool |- *. unfold xi_rule_bitmap_add, pa_fixed_atom_addr. simpl.
  destruct (Z.eqb_spec (xi_parse_atom tag) PA_NULL_ATOM); [done|].
  destruct (Z.eqb_spec rid PA_NULL_ATOM); [done|]. rewrite Hr.
  destruct (Z.eqb_spec (xr_bitmap r) PA_NULL_ATOM) as [Hb|Hb].
  - destruct Hpool as (b & free & -> & Hbz). unfold pa_bitmap_alloc. simpl.
    destruct (Z.eqb_spec b PA_NULL_ATOM); [done|].
    unfold rule_matches, pa_bitmap_test, pa_bitmap_set. simpl.
    rewrite lookup_alter_eq, Hr. simpl.
    rewrite lookup_alter_eq, lookup_insert_eq. simpl.
    split.
    + apply bool_decide_eq_true, elem_of_union_l. by apply elem_of_singleton.
    + intros a Ha. apply bool_decide_eq_false.
      rewrite elem_of_union, elem_of_singleton, elem_of_empty. tauto.
  - destruct Hpool as [m Hm].
    destruct (Z.eqb_spec (xr_bitmap r) PA_NULL_ATOM); [done|].
    unfold rule_matches, pa_bitmap_test, pa_bitmap_set. simpl.
    rewrite Hr, lookup_alter_eq, Hm. simpl.
    split.
    + apply bool_decide_eq_true, elem_of_union_l. by apply elem_of_singleton.
    + intros a Ha. apply bool_decide_ext.
      rewrite elem_of_union, elem_of_singleton. tauto.
Qed.

Lemma xi_rule_bitmap_add_sets_tag_witness :
  rule_matches
    (xi_rule_bitmap_add ex_atom (ex_rulebook [1; 2; 3]) 1 (Some "doc"%string))
    (ex_atom (Some "doc"%string)) 1 = true.
Proof.
  apply (xi_rule_bitmap_add_sets_tag ex_atom (ex_rulebook [1; 2; 3]) 1
           (Some "doc"%string) rule_zero).
  - discriminate.
  - reflexivity.
  - vm_compute. discriminate.
  - simpl. exists 1, [2; 3]. split; [reflexivity|discriminate].
Defined.

(** ** xi_rulebook_dump *)

Lemma dump_rules_chain xrbp rids :
  ∀ fuel first,
    chain_at (pf_cells (xrb_rules xrbp)) first rids ->
    (length rids ≤ fuel)%nat ->
    ∃ lines,
      dump_rules xrbp fuel first = (lines, DumpDone)
      ∧ Forall2 (λ line rid,
                   ∃ r, pf_cells (xrb_rules xrbp) !! rid = Some r
                        ∧ line = dump_rule_line rid r)
                lines rids.
Proof.
  induction rids as [|rid rids IH]; intros fuel first; simpl.
  - intros -> _. exists []. split; [by destruct fuel|constructor].
  - intros (-> & Hnz & r & Hr & Hch) Hfuel.
    destruct fuel as [|fuel]; [lia|]. simpl.
    destruct (Z.eqb_spec rid PA_NULL_ATOM); [done|].
    unfold xi_rulebook_rule, pa_fixed_atom_addr.
    destruct (Z.eqb_spec rid PA_NULL_ATOM); [done|]. rewrite Hr.
    destruct (IH fuel (xr_next r) Hch) as (lines & -> & Hlines); [lia|].
    eexists. split; [done|]. constructor; eauto.
Qed.

(** X23: the rule loop of [xi_rulebook_dump] ends normally exactly on a chain
    that leads to the null atom through records of the pool; it logs one rule
    for each atom of the chain.  On an atom that does not resolve the
    [continue] of the loop does not skip the rule: the loop faults. *)
Theorem dump_rules_done xrbp fuel first :
  ((dump_rules xrbp fuel first).2 = DumpDone
   ↔ ∃ rids, chain_at (pf_cells (xrb_rules xrbp)) first rids
             ∧ (length rids ≤ fuel)%nat)
  ∧ (first ≠ PA_NULL_ATOM -> xi_rulebook_rule xrbp first = None ->
     dump_rules xrbp (S fuel) first = ([], DumpFault)).
Proof.
  split; [split|].
  - revert first. induction fuel as [|fuel IH]; intros first; simpl.
    + destruct (Z.eqb_spec first PA_NULL_ATOM) as [->|]; [|done].
      intros _. by exists [].
    + destruct (Z.eqb_spec first PA_NULL_ATOM) as [->|Hnz].
      { intros _. exists []. split; [done|simpl; lia]. }
      destruct (xi_rulebook_rule xrbp first) as [r|] eqn:Hr; [|done]. simpl.
      intros Hd. apply IH in Hd as (rids & Hch & Hlen).
      exists (first :: rids). split; [|simpl; lia]. simpl.
      split; [done|]. split; [done|]. exists r. split; [|done].
      unfold xi_rulebook_rule, pa_fixed_atom_addr in Hr.
      by destruct (first =? PA_NULL_ATOM).
  - intros (rids & Hch & Hlen).
    by destruct (dump_rules_chain xrbp rids fuel first Hch Hlen)
      as (lines & -> & _).
  - intros Hnz Hnone. simpl.
    destruct (Z.eqb_spec first PA_NULL_ATOM); [done|]. by rewrite Hnone.
Qed.

(** X24: on a chain that comes back to one of its own atoms the rule loop of
    [xi_rulebook_dump] does not end: it runs out of fuel, whatever fuel it is
    given. *)
Theorem dump_rules_cycle xrbp (on_cycle : Z -> Prop) first :
  (∀ rid, on_cycle rid ->
          rid ≠ PA_NULL_ATOM
          ∧ ∃ r, xi_rulebook_rule xrbp rid = Some r ∧ on_cycle (xr_next r)) ->
  on_cycle first ->
  ∀ fuel, (dump_rules xrbp fuel first).2 = DumpFuel.
Proof.
  intros Hclosed Hfirst fuel. revert first Hfirst.
  induction fuel as [|fuel IH]; intros first Hfirst;
    destruct (Hclosed first Hfirst) as (Hnz & r & Hr & Hnext); simpl;
    destruct (Z.eqb_spec first PA_NULL_ATOM); try done.
  rewrite Hr. simpl. by apply IH.
Qed.

Lemma dump_rules_cycle_witness :
  (dump_rules
     (mk_rulebook
        (mk_fixed 16 [] (<[1 := mk_rule 0 0 0 0 0 2]>
                           (<[2 := mk_rule 0 0 0 0 0 1]> ∅)))
        (mk_fixed 16 [] ∅) (mk_bitmap [] ∅) 0)
     5 1).2 = DumpFuel.
Proof.
  apply (dump_rules_cycle _ (λ rid, rid = 1 ∨ rid = 2)); [|by left].
  intros rid [->| ->]; (split; [discriminate|]); eexists;
    (split; [reflexivity|]); simpl; [by right|by left].
Defined.

Section Compiled.

Variable strtol : string -> Z.
Variable xi_parse_atom : option string -> Z.
Hypothesis Hnames : names_distinct xi_parse_atom.

(** X25: the compilation writes to the rule records it allocates and to the
    state records the script names, and to no other: every other record of the
    two pools is as it was, and the pools hold the same atoms. *)
Theorem xi_rulebook_prep_untouched xrbp script :
  states_ok strtol xrbp script ->
  rules_ok xrbp (length (flat_map sd_rules script)) ->
  ∃ xrbp',
    xi_rulebook_prep strtol xi_parse_atom xrbp
      (script_events xi_parse_atom script) = Some xrbp'
    ∧ (∀ a, a ∉ take (length (flat_map sd_rules script))
                     (pf_free (xrb_rules xrbp)) ->
            pf_cells (xrb_rules xrbp') !! a = pf_cells (xrb_rules xrbp) !! a)
    ∧ (∀ s, s ∉ state_id strtol <$> script ->
            pa_fixed_element (xrb_states xrbp') s
            = pa_fixed_element (xrb_states xrbp) s)
    ∧ (∀ a, is_Some (pf_cells (xrb_rules xrbp') !! a)
            ↔ is_Some (pf_cells (xrb_rules xrbp) !! a))
    ∧ (∀ s, is_Some (pa_fixed_element (xrb_states xrbp') s)
            ↔ is_Some (pa_fixed_element (xrb_states xrbp) s)).
Proof.
  intros [Hsids Hstates] (Hlen & Hnd & Hall).
  destruct (emit_states strtol xi_parse_atom Hnames script
              (xi_rulebook_prep_init xi_parse_atom xrbp)
              (mk_stack 0 None 0 LocNull) (pf_free (xrb_rules xrbp)))
    as (prep' & Hemit & Hframe & _); try done.
  destruct Hframe as (_ & _ & Hrules & Hrsome & Hscells & Hssome).
  exists (xrp_rulebook prep'). split; [|done].
  unfold xi_rulebook_prep, script_events. cbn [xi_parse_emit].
  rewrite callback_script by done. simpl.
  by rewrite emit_app, Hemit.
Qed.

(** X26: compilation, then dump.  Under the conditions of the compilation (the
    states have distinct ids that the pool holds, the rules pool has a free
    record for every rule), the dump of a state of the script logs the state
    and then its rules in the order of the script, each with the attributes of
    its element, and ends normally. *)
Theorem xi_rulebook_dump_compiled xrbp script :
  states_ok strtol xrbp script ->
  rules_ok xrbp (length (flat_map sd_rules script)) ->
  ∃ xrbp',
    xi_rulebook_prep strtol xi_parse_atom xrbp
      (script_events xi_parse_atom script) = Some xrbp'
    ∧ ∀ i sd fuel, script !! i = Some sd ->
        (length (sd_rules sd) ≤ fuel)%nat ->
        let rids := take (length (sd_rules sd))
                         (drop (rules_before script i)
                               (pf_free (xrb_rules xrbp))) in
        ∃ flags action lines,
          dump_state xrbp' fuel (state_id strtol sd)
          = (DumpState (state_id strtol sd) flags action :: lines, DumpDone)
          ∧ Forall2 (λ line rid,
                       ∃ r, pf_cells (xrb_rules xrbp') !! rid = Some r
                            ∧ line = dump_rule_line rid r)
                    lines rids
          ∧ Forall2 (rule_compiled strtol xi_parse_atom
                       (pf_cells (xrb_rules xrbp')))
                    rids (sd_rules sd).
Proof.
  intros [Hsids Hstates] (Hlen & Hnd & Hall).
  destruct (emit_states strtol xi_parse_atom Hnames script
              (xi_rulebook_prep_init xi_parse_atom xrbp)
              (mk_stack 0 None 0 LocNull) (pf_free (xrb_rules xrbp)))
    as (prep' & Hemit & _ & _ & Hchains); try done.
  exists (xrp_rulebook prep'). split.
  - unfold xi_rulebook_prep, script_events. cbn [xi_parse_emit].
    rewrite callback_script by done. simpl.
    by rewrite emit_app, Hemit.
  - intros i sd fuel Hi Hfuel rids.
    destruct (Hchains i sd Hi) as (st & Hst & Hch & Hcomp).
    fold rids in Hch, Hcomp.
    destruct (dump_rules_chain (xrp_rulebook prep') rids fuel
                (xrbs_first_rule st) Hch) as (lines & Hdump & Hlines).
    { subst rids. rewrite length_take. lia. }
    exists (xrbs_flags st), (xrbs_action st), lines.
    unfold dump_state, xi_rulebook_state, pa_fixed_element.
    by rewrite Hst, Hdump.
Qed.

End Compiled.

Lemma xi_rulebook_dump_compiled_witness :
  ∃ xrbp',
    ex_compiled = Some xrbp'
    ∧ ∃ flags action lines,
        dump_state xrbp' 1 1
        = (DumpState 1 flags action :: lines, DumpDone)
        ∧ Forall2 (λ line rid,
                     ∃ r, pf_cells (xrb_rules xrbp') !! rid = Some r
                          ∧ line = dump_rule_line rid r)
                  lines [1].
Proof.
  assert (Hnames' : names_distinct ex_atom).
  { apply (bool_decide_unpack _). vm_compute. exact I. }
  assert (Hstates : states_ok ex_strtol (ex_rulebook [1; 2; 3]) ex_script).
  { apply (bool_decide_unpack _). vm_compute. exact I. }
  assert (Hrules : rules_ok (ex_rulebook [1; 2; 3])
                     (length (flat_map sd_rules ex_script))).
  { apply (bool_decide_unpack _). vm_compute. exact I. }
  destruct (xi_rulebook_dump_compiled ex_strtol ex_atom Hnames'
              (ex_rulebook [1; 2; 3]) ex_script Hstates Hrules)
    as (xrbp' & Hprep & Hdump).
  exists xrbp'. split; [exact Hprep|].
  destruct (Hdump 0%nat
              (mk_state_decl "1" "discard"
                 [mk_rule_decl (Some "doc") (Some "save") (Some "2") None])
              1%nat eq_refl (le_n 1))
    as (flags & action & lines & H1 & H2 & _).
  exists flags, action, lines. split; [exact H1|exact H2].
Defined.

Lemma xi_rulebook_prep_untouched_witness :
  ∃ xrbp',
    ex_compiled = Some xrbp'
    ∧ ∀ a, a ∉ [1] ->
           pf_cells (xrb_rules xrbp') !! a
           = pf_cells (xrb_rules (ex_rulebook [1; 2; 3])) !! a.
Proof.
  assert (Hnames' : names_distinct ex_atom).
  { apply (bool_decide_unpack _). vm_compute. exact I. }
  assert (Hstates : states_ok ex_strtol (ex_rulebook [1; 2; 3]) ex_script).
  { apply (bool_decide_unpack _). vm_compute. exact I. }
  assert (Hrules : rules_ok (ex_rulebook [1; 2; 3])
                     (length (flat_map sd_rules ex_script))).
  { apply (bool_decide_unpack _). vm_compute. exact I. }
  destruct (xi_rulebook_prep_untouched ex_strtol ex_atom Hnames'
              (ex_rulebook [1; 2; 3]) ex_script Hstates Hrules)
    as (xrbp' & Hprep & Hcells & _).
  exists xrbp'. split; [exact Hprep|exact Hcells].
Defined.

(** ** The tags of the compiled rules *)

Section CompileTags.

Variable strtol : string -> Z.
Variable xi_parse_atom : option string -> Z.
Hypothesis Hnames : names_distinct xi_parse_atom.

Local Abbreviation atom := (name_atom xi_parse_atom).
Local Abbreviation callback := (xi_rulebook_prep_cb strtol xi_parse_atom).
Local Abbreviation emit := (xi_parse_emit strtol xi_parse_atom).
Local Abbreviation prep_ok := (prep_consts xi_parse_atom).
Local Abbreviation tags_inv := (tags_invariant xi_parse_atom).

Ltac prep_atoms Hok :=
  let Ha := fresh "Ha" in
  destruct Hok as [Ha ?]; simpl in Ha;
  injection Ha as ? ? ? ? ? ? ? ?; simpl in *; subst.

Lemma xi_rule_bitmap_add_fresh xrbp rid tag b bfree :
  rid ≠ PA_NULL_ATOM ->
  pf_cells (xrb_rules xrbp) !! rid = Some rule_zero ->
  pb_free (xrb_bitmaps xrbp) = b :: bfree -> b ≠ PA_NULL_ATOM ->
  xi_rule_bitmap_add xi_parse_atom xrbp rid tag
  = if xi_parse_atom tag =? PA_NULL_ATOM then xrbp
    else mk_rulebook
           (mk_fixed (pf_max_atoms (xrb_rules xrbp))
              (pf_free (xrb_rules xrbp))
              (<[rid := mk_rule 0 0 0 0 b 0]> (pf_cells (xrb_rules xrbp))))
           (xrb_states xrbp)
           (mk_bitmap bfree
              (<[b := {[xi_parse_atom tag]}]> (pb_maps (xrb_bitmaps xrbp))))
           (xrsi_max_state xrbp).
Proof.
  intros Hrid Hr Hfree Hb.
  destruct xrbp as [[rmax rfree rcells] states [bfree0 maps] max_state].
  simpl in Hr, Hfree |- *. subst bfree0.
  unfold xi_rule_bitmap_add, pa_fixed_atom_addr. simpl.
  destruct (xi_parse_atom tag =? PA_NULL_ATOM); [done|].
  destruct (Z.eqb_spec rid PA_NULL_ATOM); [done|]. rewrite Hr. simpl.
  unfold pa_bitmap_alloc. simpl.
  destruct (Z.eqb_spec b PA_NULL_ATOM); [done|].
  unfold set_bitmaps, rule_store, set_rules, pa_fixed_store, pa_bitmap_set.
  simpl. rewrite (alter_present _ _ _ _ Hr), alter_insert_eq.
  by rewrite (right_id_L ∅ (∪)).
Qed.

Lemma store_atom_rules xrbp loc a xrbp' :
  store_atom xrbp loc a = Some xrbp' ->
  pf_cells (xrb_rules xrbp') = link_rule loc a (pf_cells (xrb_rules xrbp))
  ∧ pf_free (xrb_rules xrbp') = pf_free (xrb_rules xrbp)
  ∧ xrb_bitmaps xrbp' = xrb_bitmaps xrbp.
Proof. destruct loc; simpl; [done|by intros [= <-]..]. Qed.

Lemma link_rule_bitmap loc rid cells a r :
  link_rule loc rid cells !! a = Some r ->
  ∃ r0, cells !! a = Some r0 ∧ xr_bitmap r = xr_bitmap r0.
Proof.
  destruct loc as [|sid|x]; simpl; [by eauto..|].
  destruct (decide (x = a)) as [->|Hne].
  - rewrite lookup_alter_eq. destruct (cells !! a) as [r0|]; [|done].
    intros [= <-]. eauto.
  - rewrite lookup_alter_ne by done. eauto.
Qed.

Lemma link_rule_present loc rid cells a :
  is_Some (link_rule loc rid cells !! a) ↔ is_Some (cells !! a).
Proof.
  destruct loc as [|sid|x]; simpl; [done..|].
  destruct (decide (x = a)) as [->|Hne].
  - rewrite lookup_alter_eq. by rewrite fmap_is_Some.
  - by rewrite lookup_alter_ne.
Qed.

(** The events that are not the opening of a [<rule>] leave the rules pool
    and the bitmap pool as they are. *)
Lemma callback_not_rule prep type nodep prep' :
  prep_ok prep -> callback prep type nodep = Some prep' ->
  type ≠ XI_TYPE_OPEN ∨ xn_name nodep ≠ atom "rule" ->
  prep_ok prep'
  ∧ xrb_rules (xrp_rulebook prep') = xrb_rules (xrp_rulebook prep)
  ∧ xrb_bitmaps (xrp_rulebook prep') = xrb_bitmaps (xrp_rulebook prep).
Proof.
  intros Hok Hcb Hcase. unfold xi_rulebook_prep_cb in Hcb.
  destruct (Z.eqb_spec type XI_TYPE_OPEN) as [->|]; [|by injection Hcb as <-].
  destruct Hcase as [|Hname]; [done|].
  destruct (_ =? xrp_atom_script prep); [by injection Hcb as <-|].
  assert (Hrule : xrp_atom_rule prep = atom "rule").
  { destruct prep. by prep_atoms Hok. }
  destruct (_ =? xrp_atom_state prep).
  - unfold prep_open_state in Hcb.
    destruct (xi_tree_get_attrib_string nodep (xrp_atom_id prep)); [|done].
    simpl in Hcb. destruct (_ <? _); [by injection Hcb as <-|].
    destruct (pa_fixed_element _ _).
    + destruct (xi_tree_get_attrib_string _ _); [|done]. simpl in Hcb.
      destruct (xrp_stack prep !! _); [|done]. simpl in Hcb.
      destruct (_ <? _); injection Hcb as <-; simpl;
        (split; [by destruct Hok|done]).
    + simpl in Hcb.
      destruct (_ <? _); injection Hcb as <-; simpl;
        (split; [by destruct Hok|done]).
  - rewrite Hrule in Hcb.
    destruct (Z.eqb_spec (xn_name nodep) (atom "rule")); [done|].
    by injection Hcb as <-.
Qed.

Lemma tags_inv_same prep prep' rids rds :
  tags_inv prep rids rds -> prep_ok prep' ->
  xrb_rules (xrp_rulebook prep') = xrb_rules (xrp_rulebook prep) ->
  xrb_bitmaps (xrp_rulebook prep') = xrb_bitmaps (xrp_rulebook prep) ->
  tags_inv prep' rids rds.
Proof.
  unfold tags_invariant, tag_record. intros (_ & H) Hok Hr Hb.
  rewrite Hr, Hb. by split.
Qed.

Lemma link_rule_new loc rid rec cells :
  ∃ r, link_rule loc rid (<[rid := rec]> cells) !! rid = Some r
       ∧ xr_bitmap r = xr_bitmap rec.
Proof.
  destruct loc as [|sid|x]; simpl;
    [rewrite lookup_insert_eq; eauto..|].
  destruct (decide (x = rid)) as [->|Hne].
  - rewrite lookup_alter_eq, lookup_insert_eq. simpl. eauto.
  - rewrite lookup_alter_ne, lookup_insert_eq by done. eauto.
Qed.

(** A record compiled before keeps its bitmap when a later rule is
    compiled. *)
Lemma tag_record_extend xrbp xrbp' rid rec loc x rd :
  x ≠ rid ->
  pf_cells (xrb_rules xrbp')
  = link_rule loc rid (<[rid := rec]> (pf_cells (xrb_rules xrbp))) ->
  (∀ y, y ∈ pb_free (xrb_bitmaps xrbp') -> y ∈ pb_free (xrb_bitmaps xrbp)) ->
  (∀ y, y ∉ pb_free (xrb_bitmaps xrbp) ->
        pb_maps (xrb_bitmaps xrbp') !! y = pb_maps (xrb_bitmaps xrbp) !! y) ->
  tag_record xi_parse_atom xrbp x rd -> tag_record xi_parse_atom xrbp' x rd.
Proof.
  intros Hne Hcells Hfree Hmaps (r & Hr & Hbm). unfold tag_record.
  rewrite Hcells.
  assert (Hr' : ∃ r', link_rule loc rid (<[rid := rec]>
                                           (pf_cells (xrb_rules xrbp))) !! x
                      = Some r' ∧ xr_bitmap r' = xr_bitmap r).
  { destruct (link_rule_lookup loc rid rec (pf_cells (xrb_rules xrbp)) x Hne)
      as [->|[y ->]]; rewrite Hr; simpl; eauto. }
  destruct Hr' as (r' & -> & Hsame). exists r'. split; [done|].
  rewrite Hsame. destruct (_ =? _); [done|].
  destruct Hbm as (Hnz & Hnin & Hmap). split; [done|]. split.
  - intros Hin. by apply Hnin, Hfree.
  - by rewrite Hmaps.
Qed.

Lemma tags_rule prep prep' rd rids rds :
  tags_inv prep rids rds ->
  pf_free (xrb_rules (xrp_rulebook prep)) ≠ [] ->
  pb_free (xrb_bitmaps (xrp_rulebook prep)) ≠ [] ->
  callback prep XI_TYPE_OPEN (rule_node xi_parse_atom rd) = Some prep' ->
  ∃ rid,
    pf_free (xrb_rules (xrp_rulebook prep))
    = rid :: pf_free (xrb_rules (xrp_rulebook prep'))
    ∧ tags_inv prep' (rids ++ [rid]) (rds ++ [rd])
    ∧ (length (pb_free (xrb_bitmaps (xrp_rulebook prep)))
       ≤ S (length (pb_free (xrb_bitmaps (xrp_rulebook prep')))))%nat.
Proof.
  intros (Hok & Hnd & Hfree & Hbnd & Hbnz & Hm0 & Htags) Hfne Hbne Hcb.
  pose proof (rule_node_attribs xi_parse_atom Hnames rd) as (Htag & _).
  rewrite (callback_rule_node strtol xi_parse_atom Hnames) in Hcb by done.
  destruct prep as [[[rmax rfree rcells] states [bfree maps] max_state]
                      ? ? ? ? ? ? ? ? depth stack].
  simpl in Hnd, Hfree, Hbnd, Hbnz, Hm0, Htags, Hfne, Hbne.
  destruct rfree as [|rid free]; [done|]. destruct bfree as [|b bfree]; [done|].
  apply Forall_cons in Hfree as [[Hrid [old Hold]] Hfree].
  apply Forall_cons in Hbnz as [Hb Hbnz].
  apply NoDup_cons in Hbnd as [Hbnin Hbnd].
  pose proof Hok as Hok'. prep_atoms Hok'.
  unfold prep_open_rule in Hcb. simpl in Hcb. rewrite Htag in Hcb.
  unfold pa_fixed_atom_addr in Hcb at 1.
  destruct (Z.eqb_spec rid PA_NULL_ATOM); [done|]. rewrite Hold in Hcb.
  set (x := rule_store (set_rules _ _) rid _) in Hcb.
  assert (Hx : x = mk_rulebook
                     (mk_fixed rmax free (<[rid := rule_zero]> rcells))
                     states (mk_bitmap (b :: bfree) maps) max_state).
  { subst x. unfold rule_store, set_rules, pa_fixed_store. simpl.
    by rewrite (alter_present _ _ _ _ Hold). }
  rewrite Hx in Hcb. clear x Hx.
  rewrite (xi_rule_bitmap_add_fresh _ rid (rd_tag rd) b bfree) in Hcb;
    [|done|simpl; apply lookup_insert_eq|done|done].
  simpl in Hcb. rewrite insert_insert_eq in Hcb.
  destruct (stack !! Z.to_nat 0) as [e|]; [|done]. simpl in Hcb.
  destruct (store_atom _ _ _) as [xrbp'|] eqn:Hs; [|done].
  injection Hcb as <-. apply store_atom_rules in Hs as (Hc & Hf & Hbm).
  exists rid.
  destruct (Z.eqb_spec (xi_parse_atom (rd_tag rd)) PA_NULL_ATOM) as [Hz|Hnz];
    unfold rule_store, set_rules, pa_fixed_store in Hc, Hf, Hbm;
    simpl in Hc, Hf, Hbm;
    rewrite (alter_present _ _ _ _ (lookup_insert_eq _ _ _)),
      insert_insert_eq in Hc.
  - simpl. split; [by rewrite Hf|]. split; [|rewrite Hbm; simpl; lia].
    unfold tags_invariant. simpl. rewrite Hf, Hbm. simpl.
    split; [done|]. split; [by rewrite <- app_assoc|]. split.
    { eapply Forall_impl; [exact Hfree|]. intros a [Ha Hsome].
      split; [done|]. rewrite Hc. apply link_rule_present.
      apply lookup_insert_is_Some'. by right. }
    split; [by constructor|]. split; [by constructor|]. split; [done|].
    apply Forall2_app.
    + eapply Forall2_impl_elem; [exact Htags|]. intros x rd0 Hin Hrec.
      assert (x ≠ rid).
      { intros ->. apply NoDup_app in Hnd as (_ & Hdisj & _).
        apply (Hdisj rid Hin), list_elem_of_here. }
      eapply (tag_record_extend _ xrbp' rid _ (xrps_nextp e)) in Hrec;
        [exact Hrec|done|exact Hc|by rewrite Hbm|by rewrite Hbm].
    + constructor; [|constructor]. unfold tag_record. rewrite Hc, Hbm.
      destruct (link_rule_new (xrps_nextp e) rid
                  (mk_rule 0
                     (from_option xi_rule_action_value 0
                        (xi_tree_get_attrib_string
                           (rule_node xi_parse_atom rd) (atom "action")))
                     (from_option (λ u, xi_parse_atom (Some u)) 0
                        (xi_tree_get_attrib_string
                           (rule_node xi_parse_atom rd) (atom "use-tag")))
                     (from_option (λ n, u16 (strtol n)) 0
                        (xi_tree_get_attrib_string
                           (rule_node xi_parse_atom rd) (atom "new-state")))
                     0 0) rcells) as (r & Hr & Hbits).
      exists r. split; [exact Hr|]. rewrite Hbits. simpl.
      by rewrite (proj2 (Z.eqb_eq _ _) Hz).
  - simpl. split; [by rewrite Hf|]. split; [|rewrite Hbm; simpl; lia].
    unfold tags_invariant. simpl. rewrite Hf, Hbm. simpl.
    split; [done|]. split; [by rewrite <- app_assoc|]. split.
    { eapply Forall_impl; [exact Hfree|]. intros a [Ha Hsome].
      split; [done|]. rewrite Hc. apply link_rule_present.
      apply lookup_insert_is_Some'. by right. }
    split; [done|]. split; [done|].
    split; [by rewrite lookup_insert_ne|].
    apply Forall2_app.
    + eapply Forall2_impl_elem; [exact Htags|]. intros x rd0 Hin Hrec.
      assert (x ≠ rid).
      { intros ->. apply NoDup_app in Hnd as (_ & Hdisj & _).
        apply (Hdisj rid Hin), list_elem_of_here. }
      eapply (tag_record_extend _ xrbp' rid _ (xrps_nextp e)) in Hrec;
        [exact Hrec|done|exact Hc| | ].
      * rewrite Hbm. simpl. intros y Hy. by apply list_elem_of_further.
      * rewrite Hbm. simpl. intros y Hy. apply lookup_insert_ne.
        intros ->. apply Hy, list_elem_of_here.
    + constructor; [|constructor]. unfold tag_record. rewrite Hc, Hbm.
      destruct (link_rule_new (xrps_nextp e) rid
                  (mk_rule 0
                     (from_option xi_rule_action_value 0
                        (xi_tree_get_attrib_string
                           (rule_node xi_parse_atom rd) (atom "action")))
                     (from_option (λ u, xi_parse_atom (Some u)) 0
                        (xi_tree_get_attrib_string
                           (rule_node xi_parse_atom rd) (atom "use-tag")))
                     (from_option (λ n, u16 (strtol n)) 0
                        (xi_tree_get_attrib_string
                           (rule_node xi_parse_atom rd) (atom "new-state")))
                     b 0) rcells) as (r & Hr & Hbits).
      exists r. split; [exact Hr|]. rewrite Hbits. simpl.
      destruct (Z.eqb_spec (xi_parse_atom (rd_tag rd)) PA_NULL_ATOM); [done|].
      split; [done|]. split; [done|]. apply lookup_insert_eq.
Qed.

Lemma tags_rules rds :
  ∀ prep prep' rids0 rds0,
    tags_inv prep rids0 rds0 ->
    (length rds ≤ length (pf_free (xrb_rules (xrp_rulebook prep))))%nat ->
    (length rds ≤ length (pb_free (xrb_bitmaps (xrp_rulebook prep))))%nat ->
    emit (flat_map (rule_events xi_parse_atom) rds) prep = Some prep' ->
    tags_inv prep'
      (rids0 ++ take (length rds) (pf_free (xrb_rules (xrp_rulebook prep))))
      (rds0 ++ rds)
    ∧ pf_free (xrb_rules (xrp_rulebook prep'))
      = drop (length rds) (pf_free (xrb_rules (xrp_rulebook prep)))
    ∧ (length (pb_free (xrb_bitmaps (xrp_rulebook prep)))
       ≤ length rds
         + length (pb_free (xrb_bitmaps (xrp_rulebook prep'))))%nat.
Proof.
  induction rds as [|rd rds IH]; intros prep prep' rids0 rds0 Hinv Hlen Hblen.
  - simpl. intros [= <-]. by rewrite !app_nil_r.
  - cbn [flat_map rule_events app xi_parse_emit length] in *.
    destruct (callback prep XI_TYPE_OPEN _) as [prep1|] eqn:Hcb; [|done].
    cbn [mbind option_bind]. rewrite callback_close. cbn [mbind option_bind].
    intros Hemit.
    destruct (tags_rule prep prep1 rd rids0 rds0 Hinv)
      as (rid & Hf & Hinv1 & Hb1);
      [intros Hnil; rewrite Hnil in Hlen; simpl in Hlen; lia
      |intros Hnil; rewrite Hnil in Hblen; simpl in Hblen; lia|done|].
    rewrite Hf in Hlen |- *. simpl in Hlen.
    destruct (IH prep1 prep' _ _ Hinv1) as (Hinv' & Hf' & Hb'); [lia|lia|done|].
    rewrite <- !app_assoc in Hinv'. simpl. split; [done|]. split; [done|lia].
Qed.

Lemma tags_state sd prep prep' rids0 rds0 :
  tags_inv prep rids0 rds0 ->
  (length (sd_rules sd)
   ≤ length (pf_free (xrb_rules (xrp_rulebook prep))))%nat ->
  (length (sd_rules sd)
   ≤ length (pb_free (xrb_bitmaps (xrp_rulebook prep))))%nat ->
  emit (state_events xi_parse_atom sd) prep = Some prep' ->
  tags_inv prep'
    (rids0 ++ take (length (sd_rules sd))
                   (pf_free (xrb_rules (xrp_rulebook prep))))
    (rds0 ++ sd_rules sd)
  ∧ pf_free (xrb_rules (xrp_rulebook prep'))
    = drop (length (sd_rules sd)) (pf_free (xrb_rules (xrp_rulebook prep)))
  ∧ (length (pb_free (xrb_bitmaps (xrp_rulebook prep)))
     ≤ length (sd_rules sd)
       + length (pb_free (xrb_bitmaps (xrp_rulebook prep'))))%nat.
Proof.
  intros Hinv Hlen Hblen. unfold state_events. cbn [xi_parse_emit].
  destruct (callback prep XI_TYPE_OPEN _) as [prep1|] eqn:Hcb; [|done].
  cbn [mbind option_bind]. rewrite emit_app.
  destruct (emit (flat_map _ _) prep1) as [prep2|] eqn:Hemit; [|done].
  cbn [mbind option_bind xi_parse_emit]. rewrite callback_close.
  cbn [mbind option_bind]. intros [= <-].
  destruct (callback_not_rule prep XI_TYPE_OPEN (state_node xi_parse_atom sd)
              prep1) as (Hok1 & Hr & Hb);
    [by destruct Hinv|done| |].
  { right. simpl. clear -Hnames. unfold names_distinct in Hnames.
    rewrite !fmap_cons in Hnames.
    apply NoDup_cons in Hnames as [_ Hnd]. apply NoDup_cons in Hnd as [_ Hnd].
    apply NoDup_cons in Hnd as [_ Hnd]. apply NoDup_cons in Hnd as [Hnin _].
    intros Heq. apply Hnin. rewrite <- Heq.
    apply list_elem_of_further, list_elem_of_here. }
  pose proof (tags_inv_same prep prep1 rids0 rds0 Hinv Hok1 Hr Hb) as Hinv1.
  rewrite <- Hr, <- Hb.
  apply tags_rules; [done|by rewrite Hr|by rewrite Hb|done].
Qed.

Lemma tags_states script :
  ∀ prep prep' rids0 rds0,
    tags_inv prep rids0 rds0 ->
    (length (flat_map sd_rules script)
     ≤ length (pf_free (xrb_rules (xrp_rulebook prep))))%nat ->
    (length (flat_map sd_rules script)
     ≤ length (pb_free (xrb_bitmaps (xrp_rulebook prep))))%nat ->
    emit (flat_map (state_events xi_parse_atom) script) prep = Some prep' ->
    tags_inv prep'
      (rids0 ++ take (length (flat_map sd_rules script))
                     (pf_free (xrb_rules (xrp_rulebook prep))))
      (rds0 ++ flat_map sd_rules script).
Proof.
  induction script as [|sd script IH];
    intros prep prep' rids0 rds0 Hinv Hlen Hblen.
  - simpl. intros [= <-]. by rewrite !app_nil_r.
  - cbn [flat_map] in *. rewrite length_app in Hlen, Hblen.
    rewrite emit_app.
    destruct (emit (state_events _ sd) prep) as [prep1|] eqn:Hemit1; [|done].
    cbn [mbind option_bind]. intros Hemit.
    destruct (tags_state sd prep prep1 rids0 rds0 Hinv) as (Hinv1 & Hf1 & Hb1);
      [lia|lia|done|].
    pose proof (IH prep1 prep' _ _ Hinv1) as Hinv'.
    rewrite Hf1, length_drop, <- !app_assoc, take_take_drop in Hinv'.
    rewrite length_app. apply Hinv'; [lia|lia|done].
Qed.

Lemma tag_record_compiled xrbp rid rd :
  pb_maps (xrb_bitmaps xrbp) !! PA_NULL_ATOM = None ->
  tag_record xi_parse_atom xrbp rid rd ->
  tag_compiled xi_parse_atom xrbp rid rd.
Proof.
  intros Hm0 (r & Hr & Hbm) a. unfold rule_matches, pa_bitmap_test.
  rewrite Hr.
  destruct (Z.eqb_spec (xi_parse_atom (rd_tag rd)) PA_NULL_ATOM) as [Hz|Hnz].
  - rewrite Hbm, Hm0. split; [done|]. intros [-> Ha]. done.
  - destruct Hbm as (_ & _ & ->). rewrite bool_decide_eq_true.
    rewrite elem_of_singleton. split; [by intros ->|by intros [-> _]].
Qed.

(** X27: every [<rule>] of the script is compiled into a rule that matches its
    tag and nothing else: the k-th [<rule>] element gets the k-th atom of the
    free list of the rules pool, and after the compilation the bitmap of that
    rule holds the atom of the element's tag, and no other atom (no atom at
    all when the tag has the null atom). *)
Theorem xi_rulebook_prep_tags xrbp script :
  states_ok strtol xrbp script ->
  rules_ok xrbp (length (flat_map sd_rules script)) ->
  bitmaps_ok xrbp (length (flat_map sd_rules script)) ->
  ∃ xrbp',
    xi_rulebook_prep strtol xi_parse_atom xrbp
      (script_events xi_parse_atom script) = Some xrbp'
    ∧ Forall2 (tag_compiled xi_parse_atom xrbp')
        (take (length (flat_map sd_rules script)) (pf_free (xrb_rules xrbp)))
        (flat_map sd_rules script).
Proof.
  intros [Hsids Hstates] (Hlen & Hnd & Hall) (Hblen & Hbnd & Hbnz & Hm0).
  destruct (emit_states strtol xi_parse_atom Hnames script
              (xi_rulebook_prep_init xi_parse_atom xrbp)
              (mk_stack 0 None 0 LocNull) (pf_free (xrb_rules xrbp)))
    as (prep' & Hemit & _); try done.
  exists (xrp_rulebook prep'). split.
  - unfold xi_rulebook_prep, script_events. cbn [xi_parse_emit].
    rewrite callback_script by done. simpl.
    by rewrite emit_app, Hemit.
  - assert (Hinv : tags_inv prep'
              ([] ++ take (length (flat_map sd_rules script))
                          (pf_free (xrb_rules xrbp)))
              ([] ++ flat_map sd_rules script)).
    { apply (tags_states script
               (xi_rulebook_prep_init xi_parse_atom xrbp)); done. }
    destruct Hinv as (_ & _ & _ & _ & _ & Hm0' & Htags).
    simpl in Htags. eapply Forall2_impl; [exact Htags|].
    intros rid rd. by apply tag_record_compiled.
Qed.

End CompileTags.

Lemma xi_rulebook_prep_tags_witness :
  ∃ xrbp',
    ex_compiled = Some xrbp'
    ∧ Forall2 (tag_compiled ex_atom xrbp') [1]
        [mk_rule_decl (Some "doc"%string) (Some "save"%string)
           (Some "2"%string) None].
Proof.
  assert (Hnames' : names_distinct ex_atom).
  { apply (bool_decide_unpack _). vm_compute. exact I. }
  assert (Hstates : states_ok ex_strtol (ex_rulebook [1; 2; 3]) ex_script).
  { apply (bool_decide_unpack _). vm_compute. exact I. }
  assert (Hrules : rules_ok (ex_rulebook [1; 2; 3])
                     (length (flat_map sd_rules ex_script))).
  { apply (bool_decide_unpack _). vm_compute. exact I. }
  assert (Hbitmaps : bitmaps_ok (ex_rulebook [1; 2; 3])
                       (length (flat_map sd_rules ex_script))).
  { apply (bool_decide_unpack _). vm_compute. exact I. }
  apply (xi_rulebook_prep_tags ex_strtol ex_atom Hnames'
           (ex_rulebook [1; 2; 3]) ex_script Hstates Hrules Hbitmaps).
Defined.
